(** * Lenny's Roundtable: the retrieval ranker and the transcript parser

    A shallow embedding of [src/roundtable/retriever.py] (speaker ranking
    over parent/child retrieval) and [src/roundtable/parser.py] (turn
    parsing and chunk splitting), with the properties of the specification
    stated and proved over it; then of the parent documents of
    [ingest.py], the capture check of [verify.py], the speaker colours of
    [app.py] and the rounds of [generator.py], with further properties of
    the code. *)

From Stdlib Require Import String Ascii ZArith Lia Bool Arith List.
From Stdlib Require Import DecimalString DecimalNat.
From Stdlib Require Import Sorting.Sorted Sorting.Permutation.
From Stdlib Require Import Floats.
Import ListNotations.

Local Open Scope string_scope.
Local Open Scope list_scope.

(** ** Python exceptions and the error monad *)

Inductive exn : Type :=
| ValueError          (* max() of an empty sequence *)
| ZeroDivisionError.  (* float division by zero *)

Inductive result (A : Type) : Type :=
| Ok (a : A)
| Raise (e : exn).
Arguments Ok {A} a.
Arguments Raise {A} e.

Definition bind {A B : Type} (r : result A) (k : A -> result B) : result B :=
  match r with
  | Ok a => k a
  | Raise e => Raise e
  end.

Notation "x <- r ;; k" := (bind r (fun x => k))
  (at level 61, r at next level, right associativity).

(** ** The arithmetic of scores

    Scores are Python floats.  The ranking code uses six operations on
    them; the model is written over this interface, whose instance is
    IEEE binary64, what the interpreter computes.  A property stated for
    every instance holds whatever the operations do; a property of the
    order of scores is stated at the binary64 instance. *)

Class Arith (num : Type) : Type := {
  nzero : num;                    (* the 0 that sum() starts from *)
  one_minus : num -> num;         (* 1 - distance *)
  nadd : num -> num -> num;       (* + *)
  ndiv : num -> num -> num;       (* / with a non-zero divisor *)
  nsqrt_len : nat -> num;         (* math.sqrt(len(chunks)) *)
  nltb : num -> num -> bool       (* < *)
}.

#[export] Instance FloatArith : Arith float := {
  nzero := 0%float;
  one_minus := fun d => PrimFloat.sub 1%float d;
  nadd := PrimFloat.add;
  ndiv := PrimFloat.div;
  nsqrt_len := fun n => PrimFloat.sqrt (PrimFloat.of_uint63 (Uint63.of_Z (Z.of_nat n)));
  nltb := PrimFloat.ltb
}.

(** ** Python built-ins used by the ranker *)

(** A [dict] whose values are lists, in insertion order.  [dict_append k v d]
    is the idiom [if k not in d: d[k] = []] followed by [d[k].append(v)]. *)
Fixpoint dict_append {V : Type} (k : string) (v : V) (d : list (string * list V))
  : list (string * list V) :=
  match d with
  | [] => [(k, [v])]
  | (k', vs) :: d' =>
      if String.eqb k k' then (k', vs ++ [v]) :: d'
      else (k', vs) :: dict_append k v d'
  end.

Fixpoint dict_get {V : Type} (k : string) (d : list (string * V)) : option V :=
  match d with
  | [] => None
  | (k', v) :: d' => if String.eqb k k' then Some v else dict_get k d'
  end.

(** [l[:n]] for a Python int [n]: a negative [n] counts from the end. *)
Definition py_slice_to {A : Type} (l : list A) (n : Z) : list A :=
  if (0 <=? n)%Z then firstn (Z.to_nat n) l
  else firstn (length l - Z.to_nat (- n)) l.

Section Ranker.

Context {num : Type} {AR : Arith num}.

(** [max(scores)]: the first maximal element; [ValueError] on an empty list. *)
Definition py_max (l : list num) : result num :=
  match l with
  | [] => Raise ValueError
  | x :: xs => Ok (fold_left (fun m y => if nltb m y then y else m) xs x)
  end.

(** [sum(...)] of floats: a left fold from 0 (the interpreter's summation
    up to Python 3.11; later versions also carry a rounding compensation,
    which is not modelled). *)
Definition py_sum (l : list num) : num := fold_left nadd l nzero.

(** [l.sort(key=..., reverse=True)]: the stable sort into descending key
    order (equal keys keep their order), by comparisons with [<] only. *)
Fixpoint insert_desc {A : Type} (key : A -> num) (x : A) (l : list A) : list A :=
  match l with
  | [] => [x]
  | y :: ys => if nltb (key x) (key y) then y :: insert_desc key x ys
               else x :: y :: ys
  end.

Fixpoint sort_desc {A : Type} (key : A -> num) (l : list A) : list A :=
  match l with
  | [] => []
  | x :: xs => insert_desc key x (sort_desc key xs)
  end.

(** ** Data of one ranking call *)

(** One hit of the child collection: its id, the [parent_id] entry of its
    metadata (absent, or a string) and its distance to the query. *)
Record ChildHit : Type := {
  hit_id : string;
  hit_parent_id : option string;
  hit_distance : num
}.

(** A stored parent chunk: its document text and its metadata. *)
Record ParentData : Type := {
  parent_text : string;
  meta_speaker : option string;
  meta_source_file : option string;
  meta_timestamp : option string
}.

(** The parent collection, by id. *)
Definition ParentStore : Type := string -> option ParentData.

(** The evidence record built for a resolved parent. *)
Record ChunkData : Type := {
  chunk_id : string;
  chunk_text : string;
  chunk_metadata : ParentData;
  similarity : num;
  num_child_matches : nat
}.

Record SpeakerContext : Type := {
  speaker : string;
  score : num;
  chunks : list ChunkData
}.

(** ** rank_speakers *)

(** [not parent_id]: the key is absent or its value is the empty string. *)
Definition parent_of (h : ChildHit) : option string :=
  match hit_parent_id h with
  | Some "" => None
  | Some p => Some p
  | None => None
  end.

(** The first loop: [parent_scores] and [parent_ids]. *)
Definition collect_step (st : list (string * list num) * list string) (h : ChildHit)
  : list (string * list num) * list string :=
  match parent_of h with
  | None => st
  | Some parent_id =>
      let similarity := one_minus (hit_distance h) in
      let parent_ids :=
        match dict_get parent_id (fst st) with
        | None => snd st ++ [parent_id]
        | Some _ => snd st
        end in
      (dict_append parent_id similarity (fst st), parent_ids)
  end.

Definition collect (hits : list ChildHit) : list (string * list num) * list string :=
  fold_left collect_step hits ([], []).

(** [get_parent_chunks]: the stored parents among the requested ids. *)
Definition get_parent_chunks (store : ParentStore) (parent_ids : list string)
  : string -> option ParentData :=
  match parent_ids with
  | [] => fun _ => None
  | _ => fun pid => if existsb (String.eqb pid) parent_ids then store pid else None
  end.

Definition speaker_of (d : ParentData) : string :=
  match meta_speaker d with
  | Some s => s
  | None => "Unknown"
  end.

(** The second loop: group the resolved parents by speaker. *)
Definition group_step (parent_map : string -> option ParentData)
    (acc : result (list (string * list ChunkData))) (e : string * list num)
  : result (list (string * list ChunkData)) :=
  speaker_parents <- acc ;;
  match parent_map (fst e) with
  | None => Ok speaker_parents
  | Some parent_data =>
      best_score <- py_max (snd e) ;;
      Ok (dict_append (speaker_of parent_data)
            {| chunk_id := fst e;
               chunk_text := parent_text parent_data;
               chunk_metadata := parent_data;
               similarity := best_score;
               num_child_matches := length (snd e) |}
            speaker_parents)
  end.

Definition group_by_speaker (parent_map : string -> option ParentData)
    (parent_scores : list (string * list num))
  : result (list (string * list ChunkData)) :=
  fold_left (group_step parent_map) parent_scores (Ok []).

(** The scoring formula.  [math.sqrt(0)] is [0.0], and dividing a float by
    it raises. *)
Definition score_of (cs : list ChunkData) : result num :=
  match cs with
  | [] => Raise ZeroDivisionError
  | _ => Ok (ndiv (py_sum (map similarity cs)) (nsqrt_len (length cs)))
  end.

Definition make_context (sp : string) (cs : list ChunkData) : result SpeakerContext :=
  s <- score_of cs ;;
  Ok {| speaker := sp; score := s; chunks := sort_desc similarity cs |}.

(** The primary pass.  The in-place sort of [chunks] changes the list held
    by [speaker_parents] only for a speaker that has just been scored, and
    the backfill pass skips those speakers. *)
Fixpoint score_speakers (min_chunks : Z) (speaker_parents : list (string * list ChunkData))
  : result (list SpeakerContext) :=
  match speaker_parents with
  | [] => Ok []
  | (sp, cs) :: rest =>
      if (Z.of_nat (length cs) <? min_chunks)%Z then score_speakers min_chunks rest
      else
        ctx <- make_context sp cs ;;
        more <- score_speakers min_chunks rest ;;
        Ok (ctx :: more)
  end.

(** The backfill loop, with its [continue] and its [break]. *)
Fixpoint backfill (top_k : Z) (speaker_parents : list (string * list ChunkData))
    (speaker_scores : list SpeakerContext) : result (list SpeakerContext) :=
  match speaker_parents with
  | [] => Ok speaker_scores
  | (sp, cs) :: rest =>
      if existsb (fun sc => String.eqb (speaker sc) sp) speaker_scores
      then backfill top_k rest speaker_scores
      else if (top_k <=? Z.of_nat (length speaker_scores))%Z
      then Ok speaker_scores
      else
        ctx <- make_context sp cs ;;
        backfill top_k rest (speaker_scores ++ [ctx])
  end.

Definition rank_groups (top_k min_chunks : Z)
    (speaker_parents : list (string * list ChunkData)) : result (list SpeakerContext) :=
  scored <- score_speakers min_chunks speaker_parents ;;
  let speaker_scores := sort_desc score scored in
  final <-
    (if (Z.of_nat (length speaker_scores) <? top_k)%Z
     then
       filled <- backfill top_k speaker_parents speaker_scores ;;
       Ok (sort_desc score filled)
     else Ok speaker_scores) ;;
  Ok (py_slice_to final top_k).

Definition speaker_groups (store : ParentStore) (hits : list ChildHit)
  : result (list (string * list ChunkData)) :=
  let '(parent_scores, parent_ids) := collect hits in
  group_by_speaker (get_parent_chunks store parent_ids) parent_scores.

(** [rank_speakers], from the result of [search_children] on. *)
Definition rank_speakers (store : ParentStore) (hits : list ChildHit)
    (top_k min_chunks : Z) : result (list SpeakerContext) :=
  match hits with
  | [] => Ok []
  | _ =>
      speaker_parents <- speaker_groups store hits ;;
      rank_groups top_k min_chunks speaker_parents
  end.

End Ranker.

Arguments ChildHit num : clear implicits.
Arguments ChunkData num : clear implicits.
Arguments SpeakerContext num : clear implicits.


(** * The transcript parser ([parser.py])

    Python strings are modelled as lists of characters, a character being
    a code point below 256.  White space ([str.strip], [str.split], the
    class [\s]) is Python's on these code points.  The case of letters is
    that of ASCII: the program tests and changes the case of captured
    names, which the patterns restrict to ASCII letters, and lowers bodies
    only to look for ASCII keywords in them. *)

Definition str : Type := list ascii.

Definition lit (s : string) : str := list_ascii_of_string s.

Fixpoint str_eqb (a b : str) : bool :=
  match a, b with
  | [], [] => true
  | x :: a', y :: b' => Ascii.eqb x y && str_eqb a' b'
  | _, _ => false
  end.

Definition nl : ascii := "010"%char.

Definition code (c : ascii) : nat := nat_of_ascii c.
Definition in_range (lo hi : nat) (c : ascii) : bool :=
  (lo <=? code c)%nat && (code c <=? hi)%nat.

Definition is_upper (c : ascii) : bool := in_range 65 90 c.
Definition is_lower (c : ascii) : bool := in_range 97 122 c.
Definition is_alpha (c : ascii) : bool := is_upper c || is_lower c.
Definition is_digit (c : ascii) : bool := in_range 48 57 c.
(** [str.isspace] and the class [\s]: tab to carriage return, the four
    separators 28 to 31, the space, the next-line control 133 and the
    no-break space 160. *)
Definition is_space (c : ascii) : bool :=
  in_range 9 13 c || in_range 28 32 c || in_range 133 133 c || in_range 160 160 c.
Definition is_nl (c : ascii) : bool := Ascii.eqb c nl.

Definition to_lower (c : ascii) : ascii :=
  if is_upper c then ascii_of_nat (code c + 32) else c.
Definition to_upper (c : ascii) : ascii :=
  if is_lower c then ascii_of_nat (code c - 32) else c.

(** ** String methods *)

Definition lower (s : str) : str := map to_lower s.

Fixpoint drop_while (p : ascii -> bool) (s : str) : str :=
  match s with
  | [] => []
  | c :: s' => if p c then drop_while p s' else s
  end.

Fixpoint take_while (p : ascii -> bool) (s : str) : str :=
  match s with
  | [] => []
  | c :: s' => if p c then c :: take_while p s' else []
  end.

Definition lstrip (s : str) : str := drop_while is_space s.
(** [s.rstrip(chars)] *)
Definition rstrip_chars (p : ascii -> bool) (s : str) : str := rev (drop_while p (rev s)).
Definition rstrip (s : str) : str := rstrip_chars is_space s.
Definition strip (s : str) : str := rstrip (lstrip s).

(** [s.isupper()]: some cased character, and no lowercase one. *)
Definition isupper (s : str) : bool :=
  existsb is_alpha s && negb (existsb is_lower s).

(** [s.title()]: a letter that follows a letter is lowercased, any other
    letter is uppercased. *)
Fixpoint title_from (prev_cased : bool) (s : str) : str :=
  match s with
  | [] => []
  | c :: s' =>
      (if is_alpha c then (if prev_cased then to_lower c else to_upper c) else c)
      :: title_from (is_alpha c) s'
  end.
Definition title (s : str) : str := title_from false s.

(** [s.split()]: the maximal runs of characters that are no white space. *)
Fixpoint split_ws_from (cur : str) (s : str) : list str :=
  match s with
  | [] => match cur with [] => [] | _ => [rev cur] end
  | c :: s' =>
      if is_space c
      then match cur with
           | [] => split_ws_from [] s'
           | _ => rev cur :: split_ws_from [] s'
           end
      else split_ws_from (c :: cur) s'
  end.
Definition split_ws (s : str) : list str := split_ws_from [] s.

(** [s.split(c)] for a one-character separator. *)
Fixpoint split_char (sep : ascii) (s : str) : list str :=
  match s with
  | [] => [[]]
  | c :: s' =>
      if Ascii.eqb c sep then [] :: split_char sep s'
      else match split_char sep s' with
           | p :: ps => (c :: p) :: ps
           | [] => [[c]]
           end
  end.

Fixpoint starts_with (p s : str) : bool :=
  match p, s with
  | [], _ => true
  | x :: p', y :: s' => Ascii.eqb x y && starts_with p' s'
  | _ :: _, [] => false
  end.

Definition ends_with (suffix s : str) : bool := starts_with (rev suffix) (rev s).

(** [kw in s] *)
Fixpoint contains (kw s : str) : bool :=
  starts_with kw s ||
  match s with
  | [] => false
  | _ :: s' => contains kw s'
  end.

Definition mem (s : str) (set : list str) : bool := existsb (str_eqb s) set.

(** [s[a:b]] for indices within range or beyond the end. *)
Definition py_slice (s : str) (a b : nat) : str := firstn (b - a) (skipn a s).

(** [s[-n:]] for a Python int [n]: the last [n] characters when [n] is
    positive, the whole string when [n] is 0 (the index [-0] is [0]), and
    [s] from index [-n] on when [n] is negative. *)
Definition py_suffix (s : str) (n : Z) : str :=
  if (0 <? n)%Z then skipn (length s - Z.to_nat n) s
  else skipn (Z.to_nat (- n)) s.

(** ** The module's tables *)

Definition SENTENCE_INDICATORS : list str := map lit
  [ "the"; "and"; "that"; "this"; "what"; "which"; "about"; "with";
    "for"; "from"; "into"; "just"; "yeah"; "yes"; "well"; "okay";
    "really"; "very"; "good"; "great"; "nice"; "last"; "next";
    "piece"; "part"; "idea"; "point"; "thing"; "question"; "answer";
    "so"; "but"; "or"; "if"; "when"; "how"; "why"; "where"; "who";
    "it"; "is"; "are"; "was"; "were"; "be"; "been"; "being";
    "have"; "has"; "had"; "do"; "does"; "did"; "will"; "would";
    "could"; "should"; "may"; "might"; "must"; "shall"; "can";
    "not"; "no"; "all"; "any"; "some"; "every"; "each"; "both";
    "more"; "most"; "other"; "another"; "such"; "only"; "own";
    "same"; "than"; "too"; "also"; "now"; "then"; "here"; "there" ]%string.

Definition SINGLE_WORD_NON_NAMES : list str := map lit
  [ "yeah"; "yes"; "no"; "okay"; "ok"; "sure"; "right"; "exactly";
    "absolutely"; "totally"; "definitely"; "certainly"; "probably";
    "maybe"; "perhaps"; "honestly"; "actually"; "basically"; "literally";
    "interesting"; "amazing"; "awesome"; "great"; "good"; "nice"; "cool";
    "wow"; "oh"; "ah"; "um"; "uh"; "hmm"; "well"; "so"; "like"; "true";
    "advertisement"; "eventually"; "finally"; "unfortunately"; "fortunately";
    "obviously"; "clearly"; "apparently"; "essentially"; "ultimately";
    "minds"; "all" ]%string.

Definition SPONSOR_SPEAKERS : list str := map lit
  [ "advertisement"; "ad"; "sponsor" ]%string.

Definition SPONSOR_KEYWORDS : list str := map lit
  [ "brought to you by";
    "this episode is brought";
    "sponsor";
    "promo code";
    "discount code";
    "coupon code";
    "sign up and get";
    "head over to";
    "check out";
    "special offer" ]%string.

Definition HOST_NAMES : list str := map lit [ "lenny"; "lenny rachitsky" ]%string.

Definition TITLES : list str := map lit [ "Jr."; "Sr."; "Dr."; "Mr."; "Ms."; "Mrs." ]%string.

(** ** The three marker patterns

    A pattern is read as the backtracking matcher reads it: each piece
    yields its possible matches in the order the matcher tries them (a
    greedy repetition longest first), and the match is the first complete
    one. *)

(** One character of a class. *)
Definition rx_char (p : ascii -> bool) (s : str) : list (ascii * str) :=
  match s with
  | c :: r => if p c then [(c, r)] else []
  | [] => []
  end.

(** [p{0,n}], greedy. *)
Fixpoint rx_upto (p : ascii -> bool) (n : nat) (s : str) : list (str * str) :=
  match n, s with
  | S n', c :: r =>
      if p c
      then map (fun m => (c :: fst m, snd m)) (rx_upto p n' r) ++ [([], s)]
      else [([], s)]
  | _, _ => [([], s)]
  end.

(** [p{1,n}], greedy. *)
Definition rx_rep1 (p : ascii -> bool) (n : nat) (s : str) : list (str * str) :=
  flat_map (fun cr => map (fun m => (fst cr :: fst m, snd m))
                          (rx_upto p (n - 1) (snd cr)))
           (rx_char p s).

(** [p*], greedy. *)
Definition rx_star (p : ascii -> bool) (s : str) : list (str * str) :=
  rx_upto p (length s) s.

Definition is_char (c : ascii) (x : ascii) : bool := Ascii.eqb x c.

(** [\d{2}] *)
Definition rx_two_digits (s : str) : list (str * str) :=
  flat_map (fun a => map (fun b => ([fst a; fst b], snd b)) (rx_char is_digit (snd a)))
           (rx_char is_digit s).

(** [\d{1,2}:\d{2}(?::\d{2})?] *)
Definition rx_timestamp (s : str) : list (str * str) :=
  flat_map (fun h =>
  flat_map (fun c1 =>
  flat_map (fun m =>
    flat_map (fun c2 =>
      map (fun sec => (fst h ++ [":"%char] ++ fst m ++ [":"%char] ++ fst sec, snd sec))
          (rx_two_digits (snd c2)))
      (rx_char (is_char ":") (snd m))
    ++ [(fst h ++ [":"%char] ++ fst m, snd m)])
  (rx_two_digits (snd c1)))
  (rx_char (is_char ":") (snd h)))
  (rx_rep1 is_digit 2 s).

(** [$] in multi-line mode: at the end of the text or before a newline. *)
Definition at_eol (s : str) : bool :=
  match s with
  | [] => true
  | c :: _ => is_nl c
  end.

(** The characters of a name after its first: [A-Za-z \.&\-\']. *)
Definition is_name_char (c : ascii) : bool :=
  is_alpha c || is_char " " c || is_char "." c || is_char "&" c ||
  is_char "-" c || is_char "'" c.

(** What a match keeps: group 1, group 2 when the pattern has one, and the
    number of characters matched. *)
Definition RxMatch : Type := (str * option str * nat)%type.

(** [\):\s*$] after [consumed] matched characters; the length of a match
    is the total length of its pieces. *)
Definition rx_close (consumed : nat) (g1 : str) (g2 : option str) (rest : str)
  : list RxMatch :=
  flat_map (fun c1 =>
  flat_map (fun c2 =>
  flat_map (fun w =>
    if at_eol (snd w) then [(g1, g2, consumed + 2 + length (fst w))] else [])
  (rx_star is_space (snd c2)))
  (rx_char (is_char ":") (snd c1)))
  (rx_char (is_char ")") rest).

(** [^([A-Z][A-Za-z \.&\-\']{1,49})\s*\((\d{1,2}:\d{2}(?::\d{2})?)\):\s*$]
    at the start of a line. *)
Definition SPEAKER_WITH_TIMESTAMP_PATTERN (s : str) : option RxMatch :=
  hd_error
    (flat_map (fun c0 =>
     flat_map (fun name =>
     flat_map (fun w =>
     flat_map (fun par =>
     flat_map (fun ts =>
       rx_close (length (fst c0 :: fst name) + length (fst w) + 1 + length (fst ts))
                (fst c0 :: fst name) (Some (fst ts)) (snd ts))
     (rx_timestamp (snd par)))
     (rx_char (is_char "(") (snd w)))
     (rx_star is_space (snd name)))
     (rx_rep1 is_name_char 49 (snd c0)))
     (rx_char is_upper s)).

(** [^([A-Z][A-Za-z \.&\-\']{1,49}):\s*$] at the start of a line. *)
Definition SPEAKER_NO_TIMESTAMP_PATTERN (s : str) : option RxMatch :=
  hd_error
    (flat_map (fun c0 =>
     flat_map (fun name =>
     flat_map (fun c2 =>
     flat_map (fun w =>
       if at_eol (snd w)
       then [(fst c0 :: fst name, @None str,
              length (fst c0 :: fst name) + 1 + length (fst w))]
       else [])
     (rx_star is_space (snd c2)))
     (rx_char (is_char ":") (snd name)))
     (rx_rep1 is_name_char 49 (snd c0)))
     (rx_char is_upper s)).

(** [^\((\d{1,2}:\d{2}(?::\d{2})?)\):\s*$] at the start of a line. *)
Definition TIMESTAMP_ONLY_PATTERN (s : str) : option RxMatch :=
  hd_error
    (flat_map (fun par =>
     flat_map (fun ts =>
       rx_close (1 + length (fst ts)) (fst ts) None (snd ts))
     (rx_timestamp (snd par)))
     (rx_char (is_char "(") s)).

(** A match object: [m.start()], [m.end()], [m.group(1)] and [m.group(2)]
    ([None] when the pattern has a single group). *)
Record Match : Type := {
  m_start : nat;
  m_end : nat;
  m_group1 : str;
  m_group2 : option str
}.

(** [pattern.finditer(text)]: the matches from left to right, none
    overlapping another; [^] holds at the start of the text and after
    every newline. *)
Fixpoint finditer_from (rx : str -> option RxMatch) (s : str)
    (pos : nat) (at_bol : bool) (skip : nat) : list Match :=
  match s with
  | [] => []
  | c :: s' =>
      match skip with
      | S k => finditer_from rx s' (S pos) (is_nl c) k
      | O =>
          match (if at_bol then rx s else None) with
          | Some (g1, g2, len) =>
              {| m_start := pos; m_end := pos + len; m_group1 := g1; m_group2 := g2 |}
              :: finditer_from rx s' (S pos) (is_nl c) (len - 1)
          | None => finditer_from rx s' (S pos) (is_nl c) 0
          end
      end
  end.

Definition finditer (rx : str -> option RxMatch) (text : str) : list Match :=
  finditer_from rx text 0 true 0.

(** ** Speaker names *)

(** Trim the name; an all-capitals name becomes title case. *)
Definition normalize_speaker_name (name : str) : str :=
  let name := strip name in
  if isupper name then title name else name.

Definition ends_with_title (name_clean : str) : bool :=
  existsb (fun t => ends_with t name_clean) TITLES.

(** Whether the captured text is a speaker name and not a sentence: the
    chain of tests of the source, in its order. *)
Definition is_valid_speaker_name (name : str) : bool :=
  let name_clean := strip name in
  let name_lower := lower name_clean in
  match name_clean with
  | [] => false
  | _ =>
      let words := split_ws name_lower in
      if (5 <? length words)%nat then false
      else if (length name_clean <? 3)%nat then false
      else if (length words =? 1)%nat &&
              (existsb (fun part => mem part SINGLE_WORD_NON_NAMES)
                 (split_char "-" (rstrip_chars (is_char ".") (hd [] words)))
               || (ends_with (lit ".") name_clean && negb (ends_with_title name_clean)))
      then false
      else if existsb (fun word =>
                mem (rstrip_chars (fun c => is_char "." c || is_char "," c ||
                                            is_char "!" c || is_char "?" c) word)
                    SENTENCE_INDICATORS) words
      then false
      else if (1 <? length words)%nat && ends_with (lit ".") name_clean &&
              negb (ends_with_title name_clean)
      then false
      else true
  end.

(** [speaker.lower().strip() in HOST_NAMES] *)
Definition is_host (speaker : str) : bool := mem (strip (lower speaker)) HOST_NAMES.

(** [any(kw in text.lower() for kw in SPONSOR_KEYWORDS)] *)
Definition is_sponsor_content (text : str) : bool :=
  existsb (fun kw => contains kw (lower text)) SPONSOR_KEYWORDS.

(** [speaker_name and speaker_name.lower() in SPONSOR_SPEAKERS] *)
Definition is_sponsor_speaker (speaker_name : str) : bool :=
  match speaker_name with
  | [] => false
  | _ => mem (lower speaker_name) SPONSOR_SPEAKERS
  end.

(** ** parse_transcript *)

Record Turn : Type := {
  turn_speaker : str;
  turn_timestamp : str;
  turn_text : str;
  turn_preceding_question : str;
  turn_source_file : str
}.

Inductive marker_type : Type := speaker_marker | continuation_marker.

Record Marker : Type := {
  mk_start : nat;
  mk_end : nat;
  mk_speaker : option str;
  mk_timestamp : str;
  mk_type : marker_type
}.

Record RawTurn : Type := {
  rt_speaker : str;
  rt_timestamp : str;
  rt_text : str;
  rt_is_host : bool
}.

Definition group2_or_empty (m : Match) : str :=
  match m_group2 m with
  | Some ts => ts
  | None => []
  end.

Definition speaker_match_marker (m : Match) : Marker :=
  let raw_name := m_group1 m in
  let timestamp := group2_or_empty m in
  if is_valid_speaker_name raw_name
  then {| mk_start := m_start m; mk_end := m_end m;
          mk_speaker := Some (normalize_speaker_name raw_name);
          mk_timestamp := timestamp; mk_type := speaker_marker |}
  else {| mk_start := m_start m; mk_end := m_end m;
          mk_speaker := None;
          mk_timestamp := timestamp; mk_type := continuation_marker |}.

Definition timestamp_match_marker (m : Match) : Marker :=
  {| mk_start := m_start m; mk_end := m_end m;
     mk_speaker := None;
     mk_timestamp := m_group1 m; mk_type := continuation_marker |}.

(** [all_markers.sort(key=lambda x: x['start'])], a stable sort. *)
Fixpoint insert_by_start (x : Marker) (l : list Marker) : list Marker :=
  match l with
  | [] => [x]
  | y :: ys => if (mk_start y <? mk_start x)%nat then y :: insert_by_start x ys
               else x :: y :: ys
  end.

Fixpoint sort_by_start (l : list Marker) : list Marker :=
  match l with
  | [] => []
  | x :: xs => insert_by_start x (sort_by_start xs)
  end.

(** The matches of the dialect in use: the speaker matches and the
    timestamp-only matches. *)
Definition marker_matches (text : str) : list Match * list Match :=
  match finditer SPEAKER_WITH_TIMESTAMP_PATTERN text with
  | [] => (finditer SPEAKER_NO_TIMESTAMP_PATTERN text, [])
  | speaker_matches => (speaker_matches, finditer TIMESTAMP_ONLY_PATTERN text)
  end.

Definition all_markers (text : str) : list Marker :=
  let '(speaker_matches, timestamp_matches) := marker_matches text in
  sort_by_start (map speaker_match_marker speaker_matches ++
                 map timestamp_match_marker timestamp_matches).

(** The pass over the sorted markers, carrying [current_speaker].  A
    speaker marker always has a name; a continuation takes the current
    speaker, or "Lenny" when there is none yet. *)
Fixpoint raw_turns_from (text : str) (current_speaker : option str) (markers : list Marker)
  : list RawTurn :=
  match markers with
  | [] => []
  | marker :: rest =>
      let current_speaker' :=
        match mk_type marker with
        | speaker_marker => mk_speaker marker
        | continuation_marker => current_speaker
        end in
      let speaker :=
        match mk_type marker with
        | speaker_marker =>
            match mk_speaker marker with Some s => s | None => [] end
        | continuation_marker =>
            match current_speaker with
            | Some (c :: s) => c :: s
            | _ => lit "Lenny"
            end
        end in
      let start := mk_end marker in
      let end_ := match rest with
                  | next :: _ => mk_start next
                  | [] => length text
                  end in
      {| rt_speaker := speaker;
         rt_timestamp := mk_timestamp marker;
         rt_text := strip (py_slice text start end_);
         rt_is_host := is_host speaker |}
      :: raw_turns_from text current_speaker' rest
  end.

Definition raw_turns (text : str) : list RawTurn :=
  raw_turns_from text None (all_markers text).

Definition paragraph_break : str := [nl; nl].

(** Merging consecutive turns of one speaker; [merged] is [merged_turns]
    with its last element first. *)
Fixpoint merge_into (merged : list RawTurn) (turns : list RawTurn) : list RawTurn :=
  match turns with
  | [] => rev merged
  | turn :: rest =>
      match merged with
      | last :: before =>
          if str_eqb (rt_speaker last) (rt_speaker turn)
          then merge_into
                 ({| rt_speaker := rt_speaker last;
                     rt_timestamp := rt_timestamp last;
                     rt_text := rt_text last ++ paragraph_break ++ rt_text turn;
                     rt_is_host := rt_is_host last |} :: before) rest
          else merge_into (turn :: merged) rest
      | [] => merge_into [turn] rest
      end
  end.

Definition merge_turns (turns : list RawTurn) : list RawTurn := merge_into [] turns.

(** The last pass: the guest turns, each with the last host question. *)
Fixpoint guest_turns_from (source_file : str) (last_host_question : str)
    (turns : list RawTurn) : list Turn :=
  match turns with
  | [] => []
  | turn :: rest =>
      if rt_is_host turn
      then guest_turns_from source_file
             (if is_sponsor_content (rt_text turn) then last_host_question
              else rt_text turn) rest
      else if is_sponsor_speaker (rt_speaker turn)
      then guest_turns_from source_file last_host_question rest
      else if is_sponsor_content (rt_text turn)
      then guest_turns_from source_file last_host_question rest
      else if (100 <=? length (rt_text turn))%nat
      then {| turn_speaker := rt_speaker turn;
              turn_timestamp := rt_timestamp turn;
              turn_text := rt_text turn;
              turn_preceding_question := last_host_question;
              turn_source_file := source_file |}
           :: guest_turns_from source_file last_host_question rest
      else guest_turns_from source_file last_host_question rest
  end.

Definition merged_turns (text : str) : list RawTurn := merge_turns (raw_turns text).

(** [parse_transcript], from the text and the name of the file. *)
Definition parse_transcript (text source_file : str) : list Turn :=
  match fst (marker_matches text) with
  | [] => []
  | _ => guest_turns_from source_file [] (merged_turns text)
  end.

(** ** chunk_turn *)

Record TurnChunk : Type := {
  tc_text : str;
  tc_speaker : str;
  tc_timestamp : str;
  tc_preceding_question : str;
  tc_source_file : str;
  tc_chunk_index : nat
}.

Definition make_chunk (turn : Turn) (text : str) (chunk_index : nat) : TurnChunk :=
  {| tc_text := text;
     tc_speaker := turn_speaker turn;
     tc_timestamp := turn_timestamp turn;
     tc_preceding_question := turn_preceding_question turn;
     tc_source_file := turn_source_file turn;
     tc_chunk_index := chunk_index |}.

(** [text.split('\n\n')] *)
Fixpoint split_paragraphs (s : str) : list str :=
  match s with
  | [] => [[]]
  | a :: s' =>
      match s' with
      | b :: s'' =>
          if is_nl a && is_nl b then [] :: split_paragraphs s''
          else match split_paragraphs s' with
               | p :: ps => (a :: p) :: ps
               | [] => [[a]]
               end
      | [] => [[a]]
      end
  end.

(** [current_chunk[-overlap:] if len(current_chunk) > overlap else current_chunk] *)
Definition overlap_text (overlap : Z) (current_chunk : str) : str :=
  if (overlap <? Z.of_nat (length current_chunk))%Z
  then py_suffix current_chunk overlap
  else current_chunk.

Definition nonempty (s : str) : bool :=
  match s with
  | [] => false
  | _ => true
  end.

(** One round of the loop over the paragraphs, on [chunks],
    [current_chunk] and [chunk_index]. *)
Definition chunk_step (turn : Turn) (max_chars overlap : Z)
    (st : list TurnChunk * str * nat) (para : str) : list TurnChunk * str * nat :=
  let '(chunks, current_chunk, chunk_index) := st in
  if (Z.of_nat (length current_chunk) + Z.of_nat (length para) + 2 <=? max_chars)%Z
  then
    if nonempty current_chunk
    then (chunks, current_chunk ++ paragraph_break ++ para, chunk_index)
    else (chunks, para, chunk_index)
  else
    if nonempty current_chunk
    then (chunks ++ [make_chunk turn current_chunk chunk_index],
          overlap_text overlap current_chunk ++ paragraph_break ++ para,
          S chunk_index)
    else (chunks, para, chunk_index).

Definition chunk_loop (turn : Turn) (max_chars overlap : Z) (paragraphs : list str)
  : list TurnChunk * str * nat :=
  fold_left (chunk_step turn max_chars overlap) paragraphs ([], [], 0%nat).

Definition chunk_turn (turn : Turn) (max_chars overlap : Z) : list TurnChunk :=
  let text := turn_text turn in
  if (Z.of_nat (length text) <=? max_chars)%Z
  then [make_chunk turn text 0]
  else
    let '(chunks, current_chunk, chunk_index) :=
      chunk_loop turn max_chars overlap (split_paragraphs text) in
    if nonempty current_chunk && (100 <=? length current_chunk)%nat
    then chunks ++ [make_chunk turn current_chunk chunk_index]
    else chunks.

(** ** The ranking in the words of the specification

    These definitions follow the specification (section 4.3), not the
    code; the theorems below compare the two. *)

(** Grouping a sequence by key, values in order of arrival: what a loop of
    [dict_append] builds. *)
Definition group_list {X V : Type} (key : X -> string) (val : X -> V) (xs : list X)
  : list (string * list V) :=
  fold_left (fun d x => dict_append (key x) (val x) d) xs [].

(** The distinct elements of a list, in order of first occurrence. *)
Definition first_seen (l : list string) : list string :=
  fold_left (fun acc k => if existsb (String.eqb k) acc then acc else acc ++ [k]) l [].

Section RankerSpec.

Context {num : Type} {AR : Arith num}.

(** The maximum of a list of similarities (0 for no similarity at all). *)
Definition max_similarity (l : list num) : num :=
  match l with
  | [] => nzero
  | x :: xs => fold_left (fun m y => if nltb m y then y else m) xs x
  end.

(** The hits that carry a parent identifier, as (parent, similarity). *)
Definition parent_hits (hits : list (ChildHit num)) : list (string * num) :=
  flat_map (fun h => match parent_of h with
                     | Some p => [(p, one_minus (hit_distance h))]
                     | None => []
                     end) hits.

Definition distinct_parents (hits : list (ChildHit num)) : list string :=
  first_seen (map fst (parent_hits hits)).

Definition child_similarities (hits : list (ChildHit num)) (p : string) : list num :=
  map snd (filter (fun x => String.eqb (fst x) p) (parent_hits hits)).

Definition best_similarity (hits : list (ChildHit num)) (p : string) : num :=
  max_similarity (child_similarities hits p).

(** A speaker's evidence parents: the distinct parents of the hits that
    the parent collection resolves to a chunk of that speaker. *)
Definition evidence_parents (store : ParentStore) (hits : list (ChildHit num)) (s : string)
  : list string :=
  filter (fun p => match store p with
                   | Some d => String.eqb (speaker_of d) s
                   | None => false
                   end) (distinct_parents hits).

(** Step 5 of the algorithm: sum of best similarities over the square root
    of the number of evidence parents. *)
Definition spec_score (store : ParentStore) (hits : list (ChildHit num)) (s : string) : num :=
  ndiv (py_sum (map (best_similarity hits) (evidence_parents store hits s)))
       (nsqrt_len (length (evidence_parents store hits s))).

(** The context the code builds for a speaker with at least one chunk. *)
Definition context_of (e : string * list (ChunkData num)) : SpeakerContext num :=
  {| speaker := fst e;
     score := ndiv (py_sum (map similarity (snd e))) (nsqrt_len (length (snd e)));
     chunks := sort_desc similarity (snd e) |}.

(** A speaker passes the threshold of the primary pass. *)
Definition qualifies (min_chunks : Z) (e : string * list (ChunkData num)) : bool :=
  negb (Z.of_nat (length (snd e)) <? min_chunks)%Z.

(** The evidence record of a resolved parent. *)
Definition chunk_of (e : string * list num) (d : ParentData) : ChunkData num :=
  {| chunk_id := fst e;
     chunk_text := parent_text d;
     chunk_metadata := d;
     similarity := max_similarity (snd e);
     num_child_matches := length (snd e) |}.

(** The resolved parents in order, each with its speaker. *)
Definition resolved (pm : string -> option ParentData) (ps : list (string * list num))
  : list (string * ChunkData num) :=
  flat_map (fun e => match pm (fst e) with
                     | Some d => [(speaker_of d, chunk_of e d)]
                     | None => []
                     end) ps.

(** Backfill as the specification words it: the remaining speakers are
    taken from the best score down. *)
Definition backfilled_best_first (top_k min_chunks : Z)
    (groups : list (string * list (ChunkData num))) (out : list (SpeakerContext num)) : Prop :=
  forall e_in e_out,
    In e_in groups -> In e_out groups ->
    qualifies min_chunks e_in = false -> qualifies min_chunks e_out = false ->
    In (fst e_in) (map speaker out) -> ~ In (fst e_out) (map speaker out) ->
    nltb (score (context_of e_in)) (score (context_of e_out)) = false.

End RankerSpec.

Section RankerClosedForm.

Context {num : Type} {AR : Arith num}.

(** The per-speaker grouping, in closed form. *)
Definition groups_of (store : ParentStore) (hits : list (ChildHit num))
  : list (string * list (ChunkData num)) :=
  group_list fst snd (resolved store (group_list fst snd (parent_hits hits))).

(** The speakers of the primary pass, ranked. *)
Definition primary_ranking (min_chunks : Z) (groups : list (string * list (ChunkData num)))
  : list (SpeakerContext num) :=
  sort_desc score (map context_of (filter (qualifies min_chunks) groups)).

(** The speakers below the threshold, in the order of the grouping. *)
Definition remaining_speakers (min_chunks : Z) (groups : list (string * list (ChunkData num)))
  : list (SpeakerContext num) :=
  map context_of (filter (fun e => negb (qualifies min_chunks e)) groups).

(** The list that [rank_speakers] slices at [top_k]. *)
Definition full_ranking (top_k min_chunks : Z) (groups : list (string * list (ChunkData num)))
  : list (SpeakerContext num) :=
  if (Z.of_nat (length (primary_ranking min_chunks groups)) <? top_k)%Z
  then sort_desc score
         (primary_ranking min_chunks groups ++
          firstn (Z.to_nat (top_k - Z.of_nat (length (primary_ranking min_chunks groups))))
                 (remaining_speakers min_chunks groups))
  else primary_ranking min_chunks groups.

(** [any(sc.speaker == speaker for sc in speaker_scores)]. *)
Definition has_speaker (acc : list (SpeakerContext num)) (sp : string) : bool :=
  existsb (fun sc => String.eqb (speaker sc) sp) acc.

End RankerClosedForm.

(** ** Concrete ranking calls, in binary64 arithmetic *)

Set Warnings "-inexact-float".

Definition child_hit (id parent : string) (distance : float) : ChildHit float :=
  {| hit_id := id; hit_parent_id := Some parent; hit_distance := distance |}.

Definition parent_by (sp text : string) : ParentData :=
  {| parent_text := text;
     meta_speaker := Some sp;
     meta_source_file := Some "episode.txt";
     meta_timestamp := Some "00:01:00" |}.

(** Example scenario 3 of the specification: five child hits, three on
    parent P1 of speaker A (similarities 0.9, 0.8, 0.7) and two on parent P2
    of speaker B (similarities 0.6, 0.5). *)
Definition scenario3_store : ParentStore := fun pid =>
  if String.eqb pid "P1" then Some (parent_by "A" "first parent")
  else if String.eqb pid "P2" then Some (parent_by "B" "second parent")
  else None.

Definition scenario3_hits : list (ChildHit float) :=
  [ child_hit "c1" "P1" 0.1; child_hit "c2" "P1" 0.2; child_hit "c3" "P1" 0.3;
    child_hit "c4" "P2" 0.4; child_hit "c5" "P2" 0.5 ]%float.

(** A call in which nobody passes the threshold: speaker X has one parent
    at similarity 0.9, speaker Y two parents at similarity 0.8 each, and
    the hits come in order of distance. *)
Definition backfill_store : ParentStore := fun pid =>
  if String.eqb pid "P1" then Some (parent_by "X" "first parent")
  else if String.eqb pid "P2" then Some (parent_by "Y" "second parent")
  else if String.eqb pid "P3" then Some (parent_by "Y" "third parent")
  else None.

Definition backfill_hits : list (ChildHit float) :=
  [ child_hit "c1" "P1" 0.1; child_hit "c2" "P2" 0.2; child_hit "c3" "P3" 0.2 ]%float.

(** A hit whose metadata has no parent identifier. *)
Definition orphan_hit : ChildHit float :=
  {| hit_id := "c0"; hit_parent_id := None; hit_distance := 0.05%float |}.

(** ** The parser in the words of the specification *)

(** Joining paragraphs with blank lines: the inverse of the split. *)
Fixpoint join_paragraphs (ps : list str) : str :=
  match ps with
  | [] => []
  | [p] => p
  | p :: rest => p ++ paragraph_break ++ join_paragraphs rest
  end.

(** Removing from every chunk but the first the overlap it shares with
    the chunk before it, and concatenating. *)
Fixpoint strip_overlaps (overlap : Z) (prev : str) (chunks : list str) : str :=
  match chunks with
  | [] => []
  | c :: rest =>
      skipn (length (overlap_text overlap prev)) c ++ strip_overlaps overlap c rest
  end.

Definition remove_overlaps (overlap : Z) (chunks : list str) : str :=
  match chunks with
  | [] => []
  | c :: rest => c ++ strip_overlaps overlap c rest
  end.

(** The chunk bound of the specification: within [max_chars], or a single
    paragraph that alone exceeds it. *)
Definition within_chunk_bound (max_chars : Z) (paragraphs : list str) (chunk : str) : Prop :=
  (Z.of_nat (length chunk) <= max_chars)%Z \/
  exists p, In p paragraphs /\ (max_chars < Z.of_nat (length p))%Z /\ chunk = p.

(** The buffer left when the loop over the paragraphs ends. *)
Definition final_buffer (turn : Turn) (max_chars overlap : Z) : str :=
  snd (fst (chunk_loop turn max_chars overlap (split_paragraphs (turn_text turn)))).

Definition sealed_chunks (turn : Turn) (max_chars overlap : Z) : list TurnChunk :=
  fst (fst (chunk_loop turn max_chars overlap (split_paragraphs (turn_text turn)))).

(** The body of the most recent host turn that is no sponsor read. *)
Definition most_recent_host_question (before : list RawTurn) : str :=
  match find (fun t => is_host (rt_speaker t) && negb (is_sponsor_content (rt_text t)))
             (rev before) with
  | Some t => rt_text t
  | None => []
  end.

(** Characterisations of the case of a name. *)
Definition all_uppercase (s : str) : Prop :=
  (exists c, In c s /\ is_alpha c = true) /\
  (forall c, In c s -> is_alpha c = true -> is_upper c = true).

Definition has_lowercase (s : str) : Prop :=
  exists c, In c s /\ is_lower c = true.

(** Title case: a letter is uppercase exactly when no letter precedes it. *)
Fixpoint title_cased_from (prev_cased : bool) (s : str) : Prop :=
  match s with
  | [] => True
  | c :: s' =>
      (is_alpha c = true -> if prev_cased then is_lower c = true else is_upper c = true) /\
      title_cased_from (is_alpha c) s'
  end.

Definition title_cased (s : str) : Prop := title_cased_from false s.

(** ** Concrete transcripts and turns *)

Definition answer_150 : str :=
  lit "I think the most important thing for founders is to understand the delta between what users say and what they actually end up doing with the products.".

(** Example scenario 1. *)
Definition scenario1_text : str :=
  lit "KUNAL SHAH (00:00:08):" ++ [nl] ++ answer_150.

Definition transcript_name : str := lit "Kunal Shah.txt".

(** A host question followed by a guest answer. *)
Definition interview_text : str :=
  lit "Lenny (00:00:01):" ++ [nl] ++
  lit "How should founders think about what users say?" ++ [nl; nl] ++
  lit "Kunal Shah (00:00:08):" ++ [nl] ++ answer_150.

Definition answer_of (text : str) : Turn :=
  {| turn_speaker := lit "Kunal Shah";
     turn_timestamp := lit "00:00:08";
     turn_text := text;
     turn_preceding_question := [];
     turn_source_file := transcript_name |}.

(** Three paragraphs of 1000, 1400 and 1000 characters. *)
Definition long_answer : Turn :=
  answer_of (repeat "a"%char 1000 ++ paragraph_break ++
             repeat "b"%char 1400 ++ paragraph_break ++
             repeat "c"%char 1000).

(** Two paragraphs of 100 and 60 characters. *)
Definition short_tail_answer : Turn :=
  answer_of (repeat "a"%char 100 ++ paragraph_break ++ repeat "b"%char 60).

(** Two paragraphs of 1000 and 1400 characters. *)
Definition two_paragraph_answer : Turn :=
  answer_of (repeat "a"%char 1000 ++ paragraph_break ++ repeat "b"%char 1400).

(** The bound that chunks meet: the bound of the specification, or a
    chunk seeded with the overlap of an earlier chunk, a blank line and one
    paragraph. *)
Definition seeded_chunk_bound (max_chars overlap : Z) (paragraphs prevs : list str)
    (chunk : str) : Prop :=
  within_chunk_bound max_chars paragraphs chunk \/
  exists prev p, In prev prevs /\ In p paragraphs /\
    chunk = overlap_text overlap prev ++ paragraph_break ++ p.

(** The state of the loop meets the bound. *)
Definition chunk_state_bounded (max_chars overlap : Z) (paragraphs : list str)
    (st : list TurnChunk * str * nat) : Prop :=
  let prevs := map tc_text (fst (fst st)) in
  Forall (seeded_chunk_bound max_chars overlap paragraphs prevs) prevs /\
  (snd (fst st) = [] \/
   seeded_chunk_bound max_chars overlap paragraphs prevs (snd (fst st))).

(** The state of the loop reconstructs the paragraphs read so far. *)
Definition chunk_state_reconstructs (overlap : Z) (done : list str)
    (st : list TurnChunk * str * nat) : Prop :=
  let cs := map tc_text (fst (fst st)) in
  let cur := snd (fst st) in
  cur <> [] /\
  (cs = [] \/ exists rest, cur = overlap_text overlap (last cs []) ++ rest) /\
  remove_overlaps overlap (cs ++ [cur]) = join_paragraphs done.

(** What holds of every guest turn that [parse_transcript] returns. *)
Definition guest_turn_invariant (text : str) (t : Turn) : Prop :=
  100 <= length (turn_text t) /\
  is_host (turn_speaker t) = false /\
  mem (lower (turn_speaker t)) SPONSOR_SPEAKERS = false /\
  (forall kw, In kw SPONSOR_KEYWORDS -> contains kw (lower (turn_text t)) = false) /\
  exists before m after,
    merged_turns text = before ++ m :: after /\
    turn_speaker t = rt_speaker m /\
    turn_timestamp t = rt_timestamp m /\
    turn_text t = rt_text m /\
    turn_preceding_question t = most_recent_host_question before.

(** The host flag of a raw turn is the host test of its speaker. *)
Definition host_flag_ok (t : RawTurn) : Prop := rt_is_host t = is_host (rt_speaker t).

Definition interview_turn : Turn :=
  {| turn_speaker := lit "Kunal Shah";
     turn_timestamp := lit "00:00:08";
     turn_text := answer_150;
     turn_preceding_question := lit "How should founders think about what users say?";
     turn_source_file := transcript_name |}.

(** A text without any colon: no line of it is a marker. *)
Definition colon_free (s : str) : Prop := existsb (is_char ":") s = false.

Definition kunal_shah_line : str := lit "KUNAL SHAH (00:00:08):".

(** A body without a marker line of its own: no line of it is a speaker
    marker with a timestamp or a timestamp alone. *)
Definition no_marker_line (body : str) : Prop :=
  finditer SPEAKER_WITH_TIMESTAMP_PATTERN body = [] /\
  finditer TIMESTAMP_ONLY_PATTERN body = [].

(** The start-of-line flag of the search after a run of characters. *)
Definition bol_after (bol : bool) (a : str) : bool :=
  match rev a with
  | c :: _ => is_nl c
  | [] => bol
  end.

(** The Turn of example scenario 1 for a body and a file name. *)
Definition kunal_shah_turn (body source_file : str) : Turn :=
  {| turn_speaker := lit "Kunal Shah";
     turn_timestamp := lit "00:00:08";
     turn_text := body;
     turn_preceding_question := [];
     turn_source_file := source_file |}.

(** The match of the marker line of scenario 1: the pattern ends with
    [\s*], so the match runs over the white space [w] that follows the
    colon. *)
Definition kunal_shah_match_to (w : str) : Match :=
  {| m_start := 0; m_end := 22 + length w;
     m_group1 := lit "KUNAL SHAH "; m_group2 := Some (lit "00:00:08") |}.

(** A body of 150 characters that names a sponsor keyword. *)
Definition sponsor_answer_150 : str :=
  lit ("You should check out what the users do when nobody in the room is watching them, "
       ++ "and do it before you commit a single line of code to the new product.").

(** A body of 150 characters that keeps only 99 of them once trimmed. *)
Definition padded_answer_150 : str := repeat "a"%char 99 ++ repeat " "%char 51.

(** A body of 150 characters with a marker line of its own. *)
Definition two_speaker_answer_150 : str :=
  lit "I will let Anna say." ++ [nl] ++ lit "ANNA LEE (00:00:20):" ++ [nl] ++
  repeat "b"%char 108.

(** * More of the retriever *)

(** The parent collection holds parent [p]. *)
Definition in_store (store : ParentStore) (p : string) : bool :=
  match store p with Some _ => true | None => false end.

Section ContextText.

Context {num : Type} {AR : Arith num}.

Definition newline : string := String (ascii_of_nat 10) EmptyString.
Definition double_quote : string := String (ascii_of_nat 34) EmptyString.

(** One quoted chunk of [get_context_text]: the source and the timestamp
    of the metadata (with their defaults), then the text in quotes on a
    line of its own. *)
Definition format_chunk (chunk : ChunkData num) : string :=
  let text := chunk_text chunk in
  let source := match meta_source_file (chunk_metadata chunk) with
                | Some s => s
                | None => "Unknown"
                end in
  let timestamp := match meta_timestamp (chunk_metadata chunk) with
                   | Some t => t
                   | None => ""
                   end in
  ("[From " ++ source ++ " at " ++ timestamp ++ "]" ++ newline ++
   double_quote ++ text ++ double_quote)%string.

(** [SpeakerContext.get_context_text]. *)
Definition get_context_text (ctx : SpeakerContext num) (max_chunks : Z) : string :=
  String.concat (newline ++ newline)%string
    (map format_chunk (py_slice_to (chunks ctx) max_chunks)).

(** The hit names a parent that the parent collection holds. *)
Definition hit_resolved (store : ParentStore) (h : ChildHit num) : bool :=
  match parent_of h with
  | Some p => in_store store p
  | None => false
  end.

(** What the evidence record of parent [p] must be. *)
Definition evidence_record (store : ParentStore) (hits : list (ChildHit num))
    (p : string) (c : ChunkData num) : Prop :=
  chunk_id c = p /\
  store p = Some (chunk_metadata c) /\
  chunk_text c = parent_text (chunk_metadata c) /\
  similarity c = best_similarity hits p /\
  num_child_matches c = length (child_similarities hits p).

End ContextText.

(** * More of the parser *)

(** No two neighbours of the list have the same speaker. *)
Fixpoint adjacent_distinct (turns : list RawTurn) : Prop :=
  match turns with
  | a :: rest =>
      match rest with
      | b :: _ => rt_speaker a <> rt_speaker b
      | [] => True
      end /\ adjacent_distinct rest
  | [] => True
  end.

(** Where the speaker of a raw turn comes from: a marker line of the
    transcript whose captured name passed the validation, normalised, or
    the default of a continuation before any speaker. *)
Definition speaker_origin (text : str) (s : str) : Prop :=
  s = lit "Lenny" \/
  exists m,
    In m (fst (marker_matches text)) /\
    is_valid_speaker_name (m_group1 m) = true /\
    s = normalize_speaker_name (m_group1 m).

(** A speaker marker names a validated speaker. *)
Definition marker_ok (text : str) (m : Marker) : Prop :=
  match mk_type m with
  | speaker_marker => exists s, mk_speaker m = Some s /\ speaker_origin text s
  | continuation_marker => True
  end.

(** The punctuation that the validation removes from the end of a word. *)
Definition word_punctuation (c : ascii) : bool :=
  is_char "." c || is_char "," c || is_char "!" c || is_char "?" c.

(** What the validation guarantees of a name, in lower case. *)
Definition plausible_name (s : str) : Prop :=
  3 <= length s /\
  length (split_ws (lower s)) <= 5 /\
  forall word, In word (split_ws (lower s)) ->
    mem (rstrip_chars word_punctuation word) SENTENCE_INDICATORS = false.

(** The shape of a name that a speaker pattern captures: a capital letter,
    then 1 to 49 letters, spaces, dots, ampersands, hyphens and
    apostrophes. *)
Definition name_shape (raw_name : str) : Prop :=
  exists c name,
    raw_name = c :: name /\
    is_upper c = true /\
    forallb is_name_char name = true /\
    1 <= length name <= 49.

(** The shape of a normalised speaker name: a capital letter, then at most
    49 letters, spaces, dots, ampersands, hyphens and apostrophes. *)
Definition speaker_shape (s : str) : Prop :=
  exists c rest,
    s = c :: rest /\
    is_upper c = true /\
    forallb is_name_char rest = true /\
    length rest <= 49.

(** A chunk of [turn]: the metadata of the turn around a text that is not
    empty. *)
Definition chunk_made_of (turn : Turn) (c : TurnChunk) : Prop :=
  c = make_chunk turn (tc_text c) (tc_chunk_index c) /\ tc_text c <> [].

(** The state of the chunking loop numbers its chunks from 0 on, and the
    next index is their number. *)
Definition chunk_state_indexed (turn : Turn) (st : list TurnChunk * str * nat) : Prop :=
  snd st = length (fst (fst st)) /\
  map tc_chunk_index (fst (fst st)) = seq 0 (length (fst (fst st))) /\
  Forall (chunk_made_of turn) (fst (fst st)).

(** * Building the parent documents ([ingest.py]) *)

Definition PARENT_CHUNK_SIZE : Z := 2048.

(** [str(n)] for a natural number: its decimal digits. *)
Definition str_of_nat (n : nat) : str :=
  lit (DecimalString.NilEmpty.string_of_uint (Nat.to_uint n)).

(** [f"{n:06d}"]: the decimal digits, padded with zeros to six places. *)
Definition format_06d (n : nat) : str :=
  repeat "0"%char (6 - length (str_of_nat n)) ++ str_of_nat n.

(** [s.replace(old, new)] for one-character [old] and [new]. *)
Definition replace_char (old new : ascii) (s : str) : str :=
  map (fun c => if Ascii.eqb c old then new else c) s.

(** A file of the transcripts directory: its name and its text, or no
    text when reading it raises. *)
Record TranscriptFile : Type := {
  file_name : str;
  file_content : option str
}.

(** A parent document: its text, its metadata and its identifier. *)
Record ParentDocument : Type := {
  pd_text : str;
  pd_speaker : str;
  pd_source_file : str;
  pd_timestamp : str;
  pd_preceding_question : str;
  pd_parent_id : str;
  pd_id : str
}.

(** [d[k] = v] on a dictionary in insertion order. *)
Fixpoint store_set (k v : str) (d : list (str * str)) : list (str * str) :=
  match d with
  | [] => [(k, v)]
  | (k', v') :: rest =>
      if str_eqb k' k then (k', v) :: rest else (k', v') :: store_set k v rest
  end.

Definition make_parent_id (global_chunk_counter : nat) (chunk : TurnChunk) : str :=
  replace_char ":" "-"
    (replace_char " " "_"
       (lit "doc_" ++ format_06d global_chunk_counter ++ lit "_" ++
        tc_speaker chunk ++ lit "_" ++ tc_timestamp chunk)).

Definition make_doc_text (chunk : TurnChunk) : str :=
  match tc_preceding_question chunk with
  | [] => tc_text chunk
  | question =>
      lit "Question: " ++ question ++ [nl; nl] ++ lit "Answer: " ++ tc_text chunk
  end.

Definition make_document (global_chunk_counter : nat) (chunk : TurnChunk) : ParentDocument :=
  let parent_id := make_parent_id global_chunk_counter chunk in
  {| pd_text := make_doc_text chunk;
     pd_speaker := tc_speaker chunk;
     pd_source_file := tc_source_file chunk;
     pd_timestamp := tc_timestamp chunk;
     pd_preceding_question :=
       match tc_preceding_question chunk with
       | [] => []
       | question => firstn 500 question
       end;
     pd_parent_id := parent_id;
     pd_id := parent_id |}.

(** The state of the loops: [parent_documents], [parent_store] and
    [global_chunk_counter] ([speakers_seen] only feeds the progress
    output). *)
Definition IngestState : Type := (list ParentDocument * list (str * str) * nat)%type.

Definition ingest_chunk (st : IngestState) (chunk : TurnChunk) : IngestState :=
  let '(parent_documents, parent_store, global_chunk_counter) := st in
  let doc := make_document global_chunk_counter chunk in
  (parent_documents ++ [doc],
   store_set (pd_id doc) (pd_text doc) parent_store,
   S global_chunk_counter).

Definition ingest_turn (st : IngestState) (turn : Turn) : IngestState :=
  fold_left ingest_chunk (chunk_turn turn PARENT_CHUNK_SIZE 200) st.

(** One file: skipped when it cannot be read or has no turn. *)
Definition ingest_file (st : IngestState) (file : TranscriptFile) : IngestState :=
  match file_content file with
  | None => st
  | Some text =>
      match parse_transcript text (file_name file) with
      | [] => st
      | turns => fold_left ingest_turn turns st
      end
  end.

(** [create_parent_documents], on the transcript files in sorted order. *)
Definition create_parent_documents (transcript_files : list TranscriptFile)
  : list ParentDocument * list (str * str) :=
  fst (fold_left ingest_file transcript_files ([], [], 0%nat)).

(** ** Reading an identifier back *)

(** The number that a string of decimal digits denotes. *)
Definition read_nat (s : str) : option nat :=
  option_map Nat.of_uint
    (DecimalString.NilEmpty.uint_of_string (string_of_list_ascii s)).

(** The counter in a parent identifier: the digits after [doc_]. *)
Definition id_counter (id : str) : option nat :=
  read_nat (take_while is_digit (skipn 4 id)).

(** The state of the ingestion numbers its documents: the counter is
    their number, the identifier of the [k]-th holds [k], and the store has
    one entry per document. *)
Definition ingest_state_ok (st : IngestState) : Prop :=
  snd st = length (fst (fst st)) /\
  map (fun d => id_counter (pd_id d)) (fst (fst st)) =
    map Some (seq 0 (length (fst (fst st)))) /\
  snd (fst st) = map (fun d => (pd_id d, pd_text d)) (fst (fst st)).

(** ** The parent documents in closed form *)

(** The chunks of all the turns of all the readable files, in order. *)
Definition all_chunks (transcript_files : list TranscriptFile) : list TurnChunk :=
  flat_map (fun file =>
    match file_content file with
    | None => []
    | Some text =>
        flat_map (fun turn => chunk_turn turn PARENT_CHUNK_SIZE 200)
                 (parse_transcript text (file_name file))
    end) transcript_files.

(** The documents of a list of chunks, numbered from [n] on. *)
Fixpoint documents_from (n : nat) (chunks : list TurnChunk) : list ParentDocument :=
  match chunks with
  | [] => []
  | chunk :: rest => make_document n chunk :: documents_from (S n) rest
  end.

(** A file that contributes no document: it cannot be read, or its text
    has no turn. *)
Definition contributes_nothing (file : TranscriptFile) : Prop :=
  match file_content file with
  | None => True
  | Some text => parse_transcript text (file_name file) = []
  end.

(** The documents and the counter after a run of chunks. *)
Definition docs_extended (st st' : IngestState) (chunks : list TurnChunk) : Prop :=
  fst (fst st') = fst (fst st) ++ documents_from (snd st) chunks /\
  snd st' = snd st + length chunks.

(** ** Concrete files *)

Definition unreadable_file : TranscriptFile :=
  {| file_name := lit "broken.txt"; file_content := None |}.

Definition scenario1_file : TranscriptFile :=
  {| file_name := transcript_name; file_content := Some scenario1_text |}.

(** ** Storing the parents in batches *)

(** [range(start, stop, step)] for a positive step: [fuel] bounds the
    number of rounds. *)
Fixpoint range_from (fuel start stop step : nat) : list nat :=
  match fuel with
  | O => []
  | S fuel' =>
      if (start <? stop)%nat
      then start :: range_from fuel' (start + step) stop step
      else []
  end.

(** [range(0, stop, step)] *)
Definition py_range_step (stop step : nat) : list nat := range_from stop 0 stop step.

(** [l[a:b]] on a list. *)
Definition list_slice {A : Type} (l : list A) (a b : nat) : list A :=
  firstn (b - a) (skipn a l).

(** The batches in which [ingest_transcripts] adds the parents to their
    collection: [parents[i:i + batch_size]] for [i] in
    [range(0, len(parents), batch_size)]. *)
Definition parent_batches {A : Type} (batch_size : nat) (parents : list A) : list (list A) :=
  map (fun i => list_slice parents i (i + batch_size))
      (py_range_step (length parents) batch_size).

Definition PARENT_BATCH_SIZE : nat := 100.

(** * Speaker colours ([app.py]) *)

Definition SPEAKER_COLORS : list string :=
  [ "#FF6B6B"; "#4ECDC4"; "#45B7D1"; "#96CEB4"; "#FFEAA7" ]%string.

(** [speakers.index(speaker)]: the first position of the speaker, if any. *)
Fixpoint index_of (speaker : string) (speakers : list string) : option nat :=
  match speakers with
  | [] => None
  | s :: rest =>
      if String.eqb s speaker then Some 0%nat
      else option_map S (index_of speaker rest)
  end.

Definition get_speaker_color (speaker : string) (speakers : list string) : string :=
  match index_of speaker speakers with
  | Some idx => nth (idx mod length SPEAKER_COLORS) SPEAKER_COLORS ""%string
  | None => "#808080"%string
  end.

(** The colours of the first [n] positions. *)
Definition position_colors (n : nat) : list string :=
  map (fun idx => nth (idx mod length SPEAKER_COLORS) SPEAKER_COLORS ""%string) (seq 0 n).

Definition six_speakers : list string :=
  [ "A"; "B"; "C"; "D"; "E"; "F" ]%string.

(** * Checking the capture of guest content ([verify.py]) *)

(** A marker of [verify_transcript]. *)
Record VerifyMarker : Type := {
  vm_start : nat;
  vm_end : nat;
  vm_speaker : option str;
  vm_timestamp : str
}.

(** The marker of a speaker match: none when the trimmed name is not
    valid. *)
Definition verify_speaker_marker (m : Match) : list VerifyMarker :=
  let ts := group2_or_empty m in
  let name := strip (m_group1 m) in
  if is_valid_speaker_name name
  then [ {| vm_start := m_start m; vm_end := m_end m;
            vm_speaker := Some name; vm_timestamp := ts |} ]
  else [].

Definition verify_timestamp_marker (m : Match) : VerifyMarker :=
  {| vm_start := m_start m; vm_end := m_end m;
     vm_speaker := None; vm_timestamp := m_group1 m |}.

(** [all_markers.sort(key=lambda x: x['start'])], a stable sort. *)
Fixpoint verify_insert (x : VerifyMarker) (l : list VerifyMarker) : list VerifyMarker :=
  match l with
  | [] => [x]
  | y :: ys => if (vm_start y <? vm_start x)%nat then y :: verify_insert x ys
               else x :: y :: ys
  end.

Fixpoint verify_sort (l : list VerifyMarker) : list VerifyMarker :=
  match l with
  | [] => []
  | x :: xs => verify_insert x (verify_sort xs)
  end.

Definition verify_markers (text : str) : list VerifyMarker :=
  let '(speaker_matches, timestamp_matches) := marker_matches text in
  verify_sort (flat_map verify_speaker_marker speaker_matches ++
               map verify_timestamp_marker timestamp_matches).

(** A speaker that is neither [None] nor empty. *)
Definition named (speaker : option str) : bool :=
  match speaker with
  | Some (_ :: _) => true
  | _ => false
  end.

(** Filling in the speakers of the continuations, in place and from left
    to right: a marker without speaker takes the speaker of the nearest
    marker before it that has one.  [filled] holds the markers already
    passed, the last one first. *)
Fixpoint fill_speakers (filled : list VerifyMarker) (markers : list VerifyMarker)
  : list VerifyMarker :=
  match markers with
  | [] => rev filled
  | marker :: rest =>
      let marker' :=
        match vm_speaker marker with
        | None =>
            match find (fun earlier => named (vm_speaker earlier)) filled with
            | Some earlier =>
                {| vm_start := vm_start marker; vm_end := vm_end marker;
                   vm_speaker := vm_speaker earlier;
                   vm_timestamp := vm_timestamp marker |}
            | None => marker
            end
        | Some _ => marker
        end in
      fill_speakers (marker' :: filled) rest
  end.

(** The characters between the markers that follow a guest speaker. *)
Fixpoint count_guest_chars (text_length : nat) (markers : list VerifyMarker) : Z :=
  match markers with
  | [] => 0
  | marker :: rest =>
      let start := vm_end marker in
      let end_ := match rest with
                  | next :: _ => vm_start next
                  | [] => text_length
                  end in
      let content_len := (Z.of_nat end_ - Z.of_nat start)%Z in
      let counted :=
        match vm_speaker marker with
        | Some (c :: s) => if is_host (c :: s) then 0%Z else content_len
        | _ => 0%Z
        end in
      (counted + count_guest_chars text_length rest)%Z
  end.

(** The distinct elements of a list of names, in order of first
    occurrence (the source has a set). *)
Definition distinct_names (l : list str) : list str :=
  fold_left (fun acc s => if mem s acc then acc else acc ++ [s]) l [].

(** An integer as a float; exact below [2^53]. *)
Definition float_of_Z (z : Z) : float := PrimFloat.of_uint63 (Uint63.of_Z z).

Record VerifyResult : Type := {
  vr_file : str;
  vr_total_chars : nat;
  vr_guest_chars : Z;
  vr_parsed_turns : nat;
  vr_parsed_guest_chars : nat;
  vr_capture_ratio : float;
  vr_speakers : list str
}.

(** [verify_transcript], from the text and the name of the file. *)
Definition verify_transcript (text file : str) : VerifyResult :=
  let all_markers := fill_speakers [] (verify_markers text) in
  let guest_chars := count_guest_chars (length text) all_markers in
  let turns := parse_transcript text file in
  let parsed_guest_chars := fold_left Nat.add (map (fun t => length (turn_text t)) turns) 0%nat in
  {| vr_file := file;
     vr_total_chars := length text;
     vr_guest_chars := guest_chars;
     vr_parsed_turns := length turns;
     vr_parsed_guest_chars := parsed_guest_chars;
     vr_capture_ratio :=
       if (0 <? guest_chars)%Z
       then PrimFloat.div (float_of_Z (Z.of_nat parsed_guest_chars)) (float_of_Z guest_chars)
       else 1%float;
     vr_speakers := distinct_names (map turn_speaker turns) |}.

(** A file is an issue when it cannot be read or its capture is below
    [min_capture]. *)
Definition verify_issue (min_capture : float) (file : TranscriptFile) : bool :=
  match file_content file with
  | None => true
  | Some text =>
      PrimFloat.ltb (vr_capture_ratio (verify_transcript text (file_name file))) min_capture
  end.

(** [verify_all]: whether all the files pass; no file at all is a
    failure.  The totals it prints are left out. *)
Definition verify_all (files : list TranscriptFile) (min_capture : float) : bool :=
  match files with
  | [] => false
  | _ =>
      match filter (verify_issue min_capture) files with
      | [] => true
      | _ => false
      end
  end.

Definition prose_file : TranscriptFile :=
  {| file_name := lit "prose.txt"; file_content := Some answer_150 |}.

(** * The discussion ([generator.py])

    The language model and the shuffle are parameters: the completion of a
    call is any function of the number of the call and of the two messages,
    the shuffle any function of the round and of the list. *)

Record Response : Type := {
  r_speaker : string;
  r_text : string;
  r_round_num : Z
}.

Definition SYSTEM_PROMPT (speaker length : string) : string :=
  ("You are " ++ speaker ++ ". Answer based ONLY on the quotes provided - do not invent information.

STRICT RULES:
1. First word must NOT be: Okay, Well, So, Look, Honestly, I think, I agree, That's, You
2. NO stage directions like (smiling), (adjusting mic), etc.
3. NO quotation marks around your response
4. NEVER repeat or paraphrase what others said - use YOUR OWN words
5. Reference SPECIFIC examples from your quotes
6. Keep to " ++ length)%string.

Definition INITIAL_PROMPT (question context : string) : string :=
  ("Question: " ++ double_quote ++ question ++ double_quote ++ "

YOUR ACTUAL QUOTES FROM THE PODCAST:
---
" ++ context ++ "
---

Share YOUR unique perspective using a specific example from your quotes. Start with a concrete insight.")%string.

Definition DISCUSSION_PROMPT (question previous_responses context : string) : string :=
  ("Question: " ++ double_quote ++ question ++ double_quote ++ "

WHAT OTHERS SAID:
" ++ previous_responses ++ "

YOUR ACTUAL QUOTES FROM THE PODCAST:
---
" ++ context ++ "
---

IMPORTANT: Do NOT echo or restate what others said. Start with YOUR OWN fresh angle.

Either:
- DISAGREE with a specific point and explain why
- ADD a different example that challenges the consensus
- SHARE a contrarian take from your experience

Be specific and concrete. No generic agreement.")%string.

(** [BREVITY_MAP.get(brevity, "2-3 sentences")] *)
Definition brevity_length (brevity : Z) : string :=
  if (brevity =? 1)%Z then "1-2 sentences"
  else if (brevity =? 2)%Z then "2-3 sentences"
  else if (brevity =? 3)%Z then "3-5 sentences"
  else if (brevity =? 4)%Z then "1-2 paragraphs"
  else if (brevity =? 5)%Z then "2-3 paragraphs"
  else "2-3 sentences".

Section Generator.

Context {num : Type} {AR : Arith num}.

(** The responses of the other speakers. *)
Definition other_responses (speaker_name : string) (previous_responses : list Response)
  : list Response :=
  filter (fun r => negb (String.eqb (r_speaker r) speaker_name)) previous_responses.

Definition format_response (r : Response) : string :=
  ("[" ++ r_speaker r ++ "]: " ++ r_text r)%string.

(** The text put under [WHAT OTHERS SAID]. *)
Definition previous_text (speaker_name : string) (previous_responses : list Response)
  : string :=
  match other_responses speaker_name previous_responses with
  | [] => "No other responses yet."
  | others => String.concat (newline ++ newline)%string (map format_response others)
  end.

(** The system message and the user message of [generate_response]. *)
Definition response_messages (speaker_context : SpeakerContext num) (question : string)
    (previous_responses : list Response) (brevity : Z) : string * string :=
  let context := get_context_text speaker_context 3 in
  let length := brevity_length brevity in
  let system := SYSTEM_PROMPT (speaker speaker_context) length in
  let prompt :=
    match previous_responses with
    | [] => INITIAL_PROMPT question context
    | _ => DISCUSSION_PROMPT question
             (previous_text (speaker speaker_context) previous_responses) context
    end in
  (system, prompt).

(** [generate_response], [complete] being the call of the model on the two
    messages; no previous responses stands for [None] too. *)
Definition generate_response (complete : string -> string -> string)
    (speaker_context : SpeakerContext num) (question : string)
    (previous_responses : list Response) (round_num : Z) (brevity : Z) : Response :=
  let '(system, prompt) :=
    response_messages speaker_context question previous_responses brevity in
  {| r_speaker := speaker speaker_context;
     r_text := complete system prompt;
     r_round_num := round_num |}.

Variable llm : nat -> string -> string -> string.
Variable shuffle : Z -> list (SpeakerContext num) -> list (SpeakerContext num).

(** One speaker of a round, on [round_responses] and [all_responses]. *)
Definition discussion_turn (question : string) (round_num : Z)
    (st : list Response * list Response) (ctx : SpeakerContext num)
  : list Response * list Response :=
  let '(round_responses, all_responses) := st in
  let response :=
    generate_response (llm (length all_responses)) ctx question
      (if (1 <? round_num)%Z then all_responses else []) round_num 2 in
  (round_responses ++ [response], all_responses ++ [response]).

(** One round, on [all_rounds] and [all_responses]. *)
Definition discussion_round (speaker_contexts : list (SpeakerContext num)) (question : string)
    (st : list (list Response) * list Response) (round_num : Z)
  : list (list Response) * list Response :=
  let '(all_rounds, all_responses) := st in
  let contexts :=
    if (1 <? round_num)%Z then shuffle round_num speaker_contexts else speaker_contexts in
  let '(round_responses, all_responses') :=
    fold_left (discussion_turn question round_num) contexts ([], all_responses) in
  (all_rounds ++ [round_responses], all_responses').

(** [range(1, num_rounds + 1)] *)
Definition round_numbers (num_rounds : Z) : list Z :=
  map Z.of_nat (seq 1 (Z.to_nat num_rounds)).

Definition run_discussion (speaker_contexts : list (SpeakerContext num)) (question : string)
    (num_rounds : Z) : list (list Response) :=
  fst (fold_left (discussion_round speaker_contexts question)
                 (round_numbers num_rounds) ([], [])).

(** The speakers of a round, in the order in which they answer. *)
Definition round_order (speaker_contexts : list (SpeakerContext num)) (round_num : Z)
  : list (SpeakerContext num) :=
  if (1 <? round_num)%Z then shuffle round_num speaker_contexts else speaker_contexts.

(** The responses [new] of a round after the responses [before]: the
    [i]-th is the response of the [i]-th speaker of the round, generated
    by call number [length before + i] on the responses made so far (from
    round 2 on) or on none (in round 1). *)
Definition round_calls (question : string) (round_num : Z)
    (contexts : list (SpeakerContext num)) (before new : list Response) : Prop :=
  forall i r,
    nth_error new i = Some r ->
    exists ctx,
      nth_error contexts i = Some ctx /\
      r = generate_response (llm (length (before ++ firstn i new))) ctx question
            (if (1 <? round_num)%Z then before ++ firstn i new else [])
            round_num 2.

(** The rounds [new_rounds] of the round numbers [rounds], after the
    responses [before]. *)
Fixpoint rounds_calls (speaker_contexts : list (SpeakerContext num)) (question : string)
    (before : list Response) (rounds : list Z) (new_rounds : list (list Response)) : Prop :=
  match rounds, new_rounds with
  | [], [] => True
  | round_num :: rounds', round :: more =>
      round_calls question round_num (round_order speaker_contexts round_num) before round /\
      rounds_calls speaker_contexts question (before ++ round) rounds' more
  | _, _ => False
  end.

End Generator.

(** A model that answers with its call number, and a shuffle that
    reverses. *)
Definition counting_llm (n : nat) (system prompt : string) : string :=
  DecimalString.NilEmpty.string_of_uint (Nat.to_uint n).

Definition reversing_shuffle {A : Type} (round_num : Z) (l : list A) : list A := rev l.

Definition scenario3_contexts : list (SpeakerContext float) :=
  match rank_speakers scenario3_store scenario3_hits 5 1 with
  | Ok out => out
  | Raise _ => []
  end.
(** ** Theory of insertion-ordered dictionaries of lists *)

Section DictTheory.

Context {V : Type}.
Implicit Types (d : list (string * list V)) (k : string) (v : V).

Lemma dict_get_append k k' v d :
  dict_get k (dict_append k' v d) =
  if String.eqb k k'
  then Some (match dict_get k d with Some vs => vs ++ [v] | None => [v] end)
  else dict_get k d.
Proof.
  induction d as [|[k0 vs] d IH]; simpl.
  - destruct (String.eqb k k'); reflexivity.
  - destruct (String.eqb k' k0) eqn:E0; simpl.
    + apply String.eqb_eq in E0; subst k0.
      destruct (String.eqb k k'); reflexivity.
    + destruct (String.eqb k k0) eqn:E1.
      * apply String.eqb_eq in E1; subst k0.
        rewrite String.eqb_sym, E0. reflexivity.
      * exact IH.
Qed.

Lemma dict_get_in_keys k d :
  dict_get k d <> None <-> In k (map fst d).
Proof.
  induction d as [|[k0 vs] d IH]; simpl.
  - split; [congruence | tauto].
  - destruct (String.eqb k k0) eqn:E.
    + apply String.eqb_eq in E; subst. split; [auto | congruence].
    + apply String.eqb_neq in E. rewrite IH. split; [auto | intros [H|H]; [congruence | exact H]].
Qed.

Lemma dict_get_none k d :
  dict_get k d = None <-> ~ In k (map fst d).
Proof.
  rewrite <- dict_get_in_keys. destruct (dict_get k d); intuition congruence.
Qed.

Lemma dict_append_keys k v d :
  map fst (dict_append k v d) =
  match dict_get k d with
  | Some _ => map fst d
  | None => map fst d ++ [k]
  end.
Proof.
  induction d as [|[k0 vs] d IH]; simpl; [reflexivity|].
  destruct (String.eqb k k0) eqn:E; simpl; [reflexivity|].
  rewrite IH. destruct (dict_get k d); reflexivity.
Qed.

Lemma dict_append_nonempty k v d :
  Forall (fun e => snd e <> []) d ->
  Forall (fun e => snd e <> []) (dict_append k v d).
Proof.
  induction d as [|[k0 vs] d IH]; simpl; intros H.
  - constructor; [simpl; congruence | constructor].
  - inversion H; subst. destruct (String.eqb k k0).
    + constructor; [simpl; destruct vs; simpl; congruence | assumption].
    + constructor; auto.
Qed.

Lemma in_dict_get k (vs : list V) d :
  NoDup (map fst d) -> In (k, vs) d -> dict_get k d = Some vs.
Proof.
  induction d as [|[k0 vs0] d IH]; simpl; [tauto|].
  intros Hnd [H|H].
  - inversion H; subst. rewrite String.eqb_refl. reflexivity.
  - inversion Hnd; subst. destruct (String.eqb k k0) eqn:E.
    + apply String.eqb_eq in E; subst. exfalso. apply H2.
      change k0 with (fst (k0, vs)). apply in_map. exact H.
    + auto.
Qed.

(** A dictionary with distinct keys is its key list mapped through its
    lookup. *)
Lemma dict_as_map d :
  NoDup (map fst d) ->
  d = map (fun k => (k, match dict_get k d with Some vs => vs | None => [] end))
          (map fst d).
Proof.
  induction d as [|[k0 vs0] d IH]; simpl; intros Hnd; [reflexivity|].
  inversion Hnd as [|? ? Hnin Hnd']; subst.
  rewrite String.eqb_refl. f_equal.
  rewrite (IH Hnd') at 1. apply map_ext_in.
  intros k Hk. destruct (String.eqb k k0) eqn:E; [|reflexivity].
  apply String.eqb_eq in E; subst. contradiction.
Qed.

End DictTheory.

Section GroupTheory.

Context {X V : Type} (key : X -> string) (val : X -> V).

Lemma group_list_snoc xs x :
  group_list key val (xs ++ [x]) = dict_append (key x) (val x) (group_list key val xs).
Proof. unfold group_list. rewrite fold_left_app. reflexivity. Qed.

Lemma first_seen_snoc l k :
  first_seen (l ++ [k]) =
  if existsb (String.eqb k) (first_seen l) then first_seen l else first_seen l ++ [k].
Proof. unfold first_seen. rewrite fold_left_app. reflexivity. Qed.

Lemma existsb_eqb_in k (l : list string) :
  existsb (String.eqb k) l = true <-> In k l.
Proof.
  rewrite existsb_exists. split.
  - intros (x & Hx & E). apply String.eqb_eq in E. subst. exact Hx.
  - intros H. exists k. split; [exact H | apply String.eqb_refl].
Qed.

Lemma existsb_eqb_not_in k (l : list string) :
  existsb (String.eqb k) l = false <-> ~ In k l.
Proof.
  rewrite <- existsb_eqb_in. destruct (existsb (String.eqb k) l); intuition congruence.
Qed.

Lemma first_seen_nodup l : NoDup (first_seen l).
Proof.
  induction l as [|k0 l IH] using rev_ind; [constructor|].
  rewrite first_seen_snoc.
  destruct (existsb (String.eqb k0) (first_seen l)) eqn:E; [exact IH|].
  apply existsb_eqb_not_in in E.
  apply NoDup_app; [exact IH | constructor; [simpl; tauto | constructor] |].
  intros x Hx [Hk|[]]; subst; contradiction.
Qed.

Lemma group_list_keys xs :
  map fst (group_list key val xs) = first_seen (map key xs).
Proof.
  induction xs as [|x xs IH] using rev_ind; [reflexivity|].
  rewrite group_list_snoc, map_app. change (map key [x]) with [key x].
  rewrite first_seen_snoc, dict_append_keys, <- IH.
  destruct (dict_get (key x) (group_list key val xs)) eqn:E.
  - assert (H : In (key x) (map fst (group_list key val xs))).
    { apply dict_get_in_keys. congruence. }
    apply existsb_eqb_in in H. rewrite H. reflexivity.
  - apply dict_get_none, existsb_eqb_not_in in E. rewrite E. reflexivity.
Qed.

Lemma group_list_nodup xs : NoDup (map fst (group_list key val xs)).
Proof. rewrite group_list_keys. apply first_seen_nodup. Qed.

Lemma group_list_get xs k :
  dict_get k (group_list key val xs) =
  match map val (filter (fun x => String.eqb (key x) k) xs) with
  | [] => None
  | vs => Some vs
  end.
Proof.
  induction xs as [|x xs IH] using rev_ind; [reflexivity|].
  rewrite group_list_snoc, dict_get_append, filter_app, map_app, IH. simpl.
  rewrite (String.eqb_sym (key x) k).
  destruct (String.eqb k (key x)); simpl.
  - destruct (map val (filter (fun x0 => String.eqb (key x0) k) xs)); reflexivity.
  - rewrite app_nil_r. reflexivity.
Qed.

(** The loop of appends computes the grouping: the keys in order of first
    occurrence, each with the values of its elements in order. *)
Lemma group_list_spec xs :
  group_list key val xs =
  map (fun k => (k, map val (filter (fun x => String.eqb (key x) k) xs)))
      (first_seen (map key xs)).
Proof.
  rewrite (dict_as_map (group_list key val xs)) at 1 by apply group_list_nodup.
  rewrite group_list_keys. apply map_ext. intros k.
  rewrite group_list_get.
  destruct (map val (filter (fun x => String.eqb (key x) k) xs)); reflexivity.
Qed.

Lemma group_list_nonempty xs :
  Forall (fun e => snd e <> []) (group_list key val xs).
Proof.
  induction xs as [|x xs IH] using rev_ind; [constructor|].
  rewrite group_list_snoc. apply dict_append_nonempty. exact IH.
Qed.

Lemma group_list_in xs k vs :
  In (k, vs) (group_list key val xs) ->
  vs = map val (filter (fun x => String.eqb (key x) k) xs).
Proof.
  rewrite group_list_spec, in_map_iff. intros (k' & E & _).
  inversion E; subst. reflexivity.
Qed.

End GroupTheory.

Lemma in_firstn {A : Type} (l : list A) n x :
  In x (firstn n l) -> In x l.
Proof.
  intros H. rewrite <- (firstn_skipn n l). apply in_or_app. left. exact H.
Qed.

(** ** The ranker in closed form *)

Section RankerTheory.

Context {num : Type} {AR : Arith num}.

Lemma parent_of_none (h : ChildHit num) :
  hit_parent_id h = None \/ hit_parent_id h = Some "" -> parent_of h = None.
Proof. unfold parent_of. intros [-> | ->]; reflexivity. Qed.

Lemma collect_snoc (hits : list (ChildHit num)) h :
  collect (hits ++ [h]) = collect_step (collect hits) h.
Proof. unfold collect. rewrite fold_left_app. reflexivity. Qed.

Lemma parent_hits_snoc (hits : list (ChildHit num)) h :
  parent_hits (hits ++ [h]) =
  parent_hits hits ++ match parent_of h with
                      | Some p => [(p, one_minus (hit_distance h))]
                      | None => []
                      end.
Proof. unfold parent_hits. rewrite flat_map_app. simpl. rewrite app_nil_r. reflexivity. Qed.

(** [parent_scores] groups the similarities of the hits by parent. *)
Lemma collect_fst (hits : list (ChildHit num)) :
  fst (collect hits) = group_list fst snd (parent_hits hits).
Proof.
  induction hits as [|h hits IH] using rev_ind; [reflexivity|].
  rewrite collect_snoc, parent_hits_snoc. unfold collect_step.
  destruct (parent_of h) as [p|]; simpl.
  - rewrite group_list_snoc, IH. reflexivity.
  - rewrite app_nil_r. exact IH.
Qed.

(** [parent_ids] lists the keys of [parent_scores]. *)
Lemma collect_snd (hits : list (ChildHit num)) :
  snd (collect hits) = map fst (fst (collect hits)).
Proof.
  induction hits as [|h hits IH] using rev_ind; [reflexivity|].
  rewrite collect_snoc. unfold collect_step.
  destruct (parent_of h) as [p|]; [|exact IH]. simpl.
  rewrite dict_append_keys, IH.
  destruct (dict_get p (fst (collect hits))); reflexivity.
Qed.

Lemma py_max_ok (l : list num) : l <> [] -> py_max l = Ok (max_similarity l).
Proof. destruct l; [congruence | reflexivity]. Qed.

Lemma resolved_snoc pm (ps : list (string * list num)) e :
  resolved pm (ps ++ [e]) =
  resolved pm ps ++ match pm (fst e) with
                    | Some d => [(speaker_of d, chunk_of e d)]
                    | None => []
                    end.
Proof. unfold resolved. rewrite flat_map_app. simpl. rewrite app_nil_r. reflexivity. Qed.

Lemma group_by_speaker_snoc pm (ps : list (string * list num)) e :
  group_by_speaker pm (ps ++ [e]) = group_step pm (group_by_speaker pm ps) e.
Proof. unfold group_by_speaker. rewrite fold_left_app. reflexivity. Qed.

(** On non-empty similarity lists the grouping loop never raises and
    groups the resolved parents by speaker. *)
Lemma group_by_speaker_spec pm (ps : list (string * list num)) :
  Forall (fun e => snd e <> []) ps ->
  group_by_speaker pm ps = Ok (group_list fst snd (resolved pm ps)).
Proof.
  induction ps as [|e ps IH] using rev_ind; intros Hne; [reflexivity|].
  apply Forall_app in Hne. destruct Hne as [Hps He].
  inversion He as [|? ? Hse _]; subst.
  rewrite group_by_speaker_snoc, (IH Hps), resolved_snoc. unfold group_step. simpl.
  destruct (pm (fst e)) as [d|].
  - rewrite (py_max_ok _ Hse). simpl. rewrite group_list_snoc. reflexivity.
  - rewrite app_nil_r. reflexivity.
Qed.

Lemma resolved_ext_in pm pm' (ps : list (string * list num)) :
  (forall e, In e ps -> pm (fst e) = pm' (fst e)) ->
  resolved pm ps = resolved pm' ps.
Proof.
  induction ps as [|e ps IH]; intros H; [reflexivity|]. simpl.
  rewrite (H e (or_introl eq_refl)). f_equal. apply IH. intros; apply H; right; assumption.
Qed.

Lemma get_parent_chunks_in store ids p :
  In p ids -> get_parent_chunks store ids p = store p.
Proof.
  intros H. unfold get_parent_chunks. destruct ids as [|i ids]; [destruct H|].
  apply existsb_eqb_in in H. rewrite H. reflexivity.
Qed.

Lemma speaker_groups_spec store (hits : list (ChildHit num)) :
  speaker_groups store hits = Ok (groups_of store hits).
Proof.
  unfold speaker_groups, groups_of.
  destruct (collect hits) as [ps ids] eqn:E.
  assert (Hps : ps = group_list fst snd (parent_hits hits)).
  { rewrite <- collect_fst, E. reflexivity. }
  assert (Hids : ids = map fst ps).
  { pose proof (collect_snd hits) as H. rewrite E in H. exact H. }
  rewrite group_by_speaker_spec.
  - f_equal. f_equal. rewrite <- Hps. apply resolved_ext_in.
    intros e He. apply get_parent_chunks_in. subst ids. apply in_map. exact He.
  - rewrite Hps. apply group_list_nonempty.
Qed.

Lemma groups_of_nodup store (hits : list (ChildHit num)) :
  NoDup (map fst (groups_of store hits)).
Proof. apply group_list_nodup. Qed.

Lemma groups_of_nonempty store (hits : list (ChildHit num)) :
  Forall (fun e => snd e <> []) (groups_of store hits).
Proof. apply group_list_nonempty. Qed.

Lemma make_context_ok sp (cs : list (ChunkData num)) :
  cs <> [] -> make_context sp cs = Ok (context_of (sp, cs)).
Proof. destruct cs; [congruence | reflexivity]. Qed.

Lemma score_speakers_spec min_chunks (g : list (string * list (ChunkData num))) :
  Forall (fun e => snd e <> []) g ->
  score_speakers min_chunks g = Ok (map context_of (filter (qualifies min_chunks) g)).
Proof.
  induction g as [|[sp cs] g IH]; intros Hne; [reflexivity|].
  inversion Hne as [|? ? Hcs Hg]; subst. simpl in Hcs. simpl.
  unfold qualifies at 1. simpl.
  destruct (Z.of_nat (length cs) <? min_chunks)%Z; simpl.
  - apply IH, Hg.
  - rewrite (make_context_ok _ _ Hcs), (IH Hg). reflexivity.
Qed.

Lemma has_speaker_in (acc : list (SpeakerContext num)) sp :
  has_speaker acc sp = true <-> In sp (map speaker acc).
Proof.
  unfold has_speaker. rewrite existsb_exists, in_map_iff. split.
  - intros (x & Hx & E). apply String.eqb_eq in E. eauto.
  - intros (x & E & Hx). exists x. split; [exact Hx|]. subst. apply String.eqb_refl.
Qed.

Lemma has_speaker_snoc (acc : list (SpeakerContext num)) c sp :
  has_speaker (acc ++ [c]) sp = has_speaker acc sp || String.eqb (speaker c) sp.
Proof. unfold has_speaker. rewrite existsb_app. simpl. rewrite orb_false_r. reflexivity. Qed.

(** The backfill loop appends the speakers not yet present, in the order
    of the grouping, until [top_k] is reached. *)
Lemma backfill_spec top_k (g : list (string * list (ChunkData num))) :
  NoDup (map fst g) ->
  Forall (fun e => snd e <> []) g ->
  forall acc,
  backfill top_k g acc =
  Ok (acc ++ firstn (Z.to_nat (top_k - Z.of_nat (length acc)))
                    (map context_of (filter (fun e => negb (has_speaker acc (fst e))) g))).
Proof.
  induction g as [|[sp cs] g IH]; intros Hnd Hne acc.
  - simpl. rewrite firstn_nil, app_nil_r. reflexivity.
  - inversion Hnd as [|? ? Hnin Hnd']; subst.
    inversion Hne as [|? ? Hcs Hg]; subst. simpl in Hcs.
    simpl. fold (has_speaker acc sp).
    destruct (has_speaker acc sp) eqn:Ehas; simpl.
    + apply IH; assumption.
    + destruct (top_k <=? Z.of_nat (length acc))%Z eqn:Ek.
      * apply Z.leb_le in Ek.
        replace (Z.to_nat (top_k - Z.of_nat (length acc))) with 0%nat by lia.
        simpl. rewrite app_nil_r. reflexivity.
      * apply Z.leb_gt in Ek.
        rewrite (make_context_ok _ _ Hcs). simpl.
        rewrite (IH Hnd' Hg). f_equal.
        rewrite <- app_assoc. f_equal. simpl.
        rewrite length_app. simpl.
        replace (Z.to_nat (top_k - Z.of_nat (length acc)))
          with (S (Z.to_nat (top_k - Z.of_nat (length acc + 1)))) by lia.
        simpl. f_equal. f_equal. f_equal.
        apply filter_ext_in. intros [sp' cs'] Hin. simpl.
        rewrite has_speaker_snoc. simpl.
        destruct (String.eqb sp sp') eqn:E; [|rewrite orb_false_r; reflexivity].
        apply String.eqb_eq in E; subst. exfalso. apply Hnin.
        change sp' with (fst (sp', cs')). apply in_map. exact Hin.
Qed.

Lemma insert_desc_perm {A : Type} (key : A -> num) x l :
  Permutation (insert_desc key x l) (x :: l).
Proof.
  induction l as [|y ys IH]; simpl; [reflexivity|].
  destruct (nltb (key x) (key y)); [|reflexivity].
  rewrite IH. apply perm_swap.
Qed.

Lemma sort_desc_perm {A : Type} (key : A -> num) l :
  Permutation (sort_desc key l) l.
Proof.
  induction l as [|x xs IH]; simpl; [reflexivity|].
  rewrite insert_desc_perm, IH. reflexivity.
Qed.

Lemma sort_desc_length {A : Type} (key : A -> num) l :
  length (sort_desc key l) = length l.
Proof. apply Permutation_length, sort_desc_perm. Qed.

Lemma sort_desc_in {A : Type} (key : A -> num) l x :
  In x (sort_desc key l) <-> In x l.
Proof.
  split; apply Permutation_in; [|symmetry]; apply sort_desc_perm.
Qed.

Lemma map_speaker_context_of (g : list (string * list (ChunkData num))) :
  map speaker (map context_of g) = map fst g.
Proof. rewrite map_map. reflexivity. Qed.

(** Among the speakers of the grouping, the primary ranking holds exactly
    those that pass the threshold. *)
Lemma has_speaker_primary min_chunks (g : list (string * list (ChunkData num))) e :
  NoDup (map fst g) -> In e g ->
  has_speaker (primary_ranking min_chunks g) (fst e) = qualifies min_chunks e.
Proof.
  intros Hnd He.
  destruct (qualifies min_chunks e) eqn:Eq.
  - apply has_speaker_in. unfold primary_ranking.
    apply (Permutation_in _ (Permutation_map (@speaker num) (Permutation_sym (sort_desc_perm score _)))).
    rewrite map_speaker_context_of. apply in_map. apply filter_In. auto.
  - destruct (has_speaker (primary_ranking min_chunks g) (fst e)) eqn:Eh; [|reflexivity].
    apply has_speaker_in in Eh. unfold primary_ranking in Eh.
    apply (Permutation_in _ (Permutation_map (@speaker num) (sort_desc_perm score _))) in Eh.
    rewrite map_speaker_context_of in Eh.
    apply in_map_iff in Eh. destruct Eh as ([sp cs] & Efst & Hin).
    apply filter_In in Hin. destruct Hin as [Hin Hq].
    destruct e as [sp' cs']. simpl in Efst. subst sp'.
    pose proof (in_dict_get _ _ _ Hnd Hin) as H1.
    pose proof (in_dict_get _ _ _ Hnd He) as H2.
    rewrite H1 in H2. inversion H2; subst. congruence.
Qed.

(** The whole of [rank_speakers] after the grouping, in closed form. *)
Lemma rank_groups_spec top_k min_chunks (g : list (string * list (ChunkData num))) :
  NoDup (map fst g) ->
  Forall (fun e => snd e <> []) g ->
  rank_groups top_k min_chunks g =
  Ok (py_slice_to
        (if (Z.of_nat (length (primary_ranking min_chunks g)) <? top_k)%Z
         then sort_desc score
                (primary_ranking min_chunks g ++
                 firstn (Z.to_nat (top_k - Z.of_nat (length (primary_ranking min_chunks g))))
                        (remaining_speakers min_chunks g))
         else primary_ranking min_chunks g)
        top_k).
Proof.
  intros Hnd Hne. unfold rank_groups.
  rewrite (score_speakers_spec _ _ Hne). simpl.
  fold (primary_ranking min_chunks g).
  destruct (Z.of_nat (length (primary_ranking min_chunks g)) <? top_k)%Z; [|reflexivity].
  rewrite (backfill_spec _ _ Hnd Hne). simpl.
  unfold remaining_speakers. do 6 f_equal.
  apply filter_ext_in. intros e He. rewrite (has_speaker_primary _ _ _ Hnd He). reflexivity.
Qed.

Lemma rank_speakers_spec store (hits : list (ChildHit num)) top_k min_chunks :
  hits <> [] ->
  rank_speakers store hits top_k min_chunks =
  rank_groups top_k min_chunks (groups_of store hits).
Proof.
  intros H. unfold rank_speakers. destruct hits; [congruence|].
  rewrite speaker_groups_spec. reflexivity.
Qed.

Lemma rank_groups_nil top_k min_chunks :
  rank_groups top_k min_chunks (@nil (string * list (ChunkData num))) = Ok [].
Proof.
  unfold rank_groups. simpl.
  destruct (0 <? top_k)%Z; simpl; unfold py_slice_to;
    destruct (0 <=? top_k)%Z; simpl; rewrite ?firstn_nil; reflexivity.
Qed.

(** [rank_speakers] is [rank_groups] of the grouping, also on no hits. *)
Lemma rank_speakers_groups store (hits : list (ChildHit num)) top_k min_chunks :
  rank_speakers store hits top_k min_chunks =
  rank_groups top_k min_chunks (groups_of store hits).
Proof.
  destruct hits as [|h hits].
  - simpl. symmetry. apply rank_groups_nil.
  - apply rank_speakers_spec. discriminate.
Qed.

End RankerTheory.
(** ** Order of the ranking *)

Section SortedLists.

Context {A : Type}.

Lemma forall2_in_r {B : Type} (Rel : A -> B -> Prop) l1 l2 b :
  Forall2 Rel l1 l2 -> In b l2 -> exists a, In a l1 /\ Rel a b.
Proof.
  induction 1 as [|a b' l1 l2 Hab _ IH]; simpl; [tauto|].
  intros [->|Hin]; [eauto|]. destruct (IH Hin) as (a' & Ha' & Hr). eauto.
Qed.

End SortedLists.

Section SortOrder.

Context {num : Type} {AR : Arith num}.

(** The values the order treats as numbers: for floats, all but NaN. *)
Variable ordinary : num -> Prop.
Hypothesis nltb_asym : forall x y, nltb x y = true -> nltb y x = false.
Hypothesis nltb_false_trans :
  forall x y z, ordinary y -> nltb x y = false -> nltb y z = false -> nltb x z = false.

(** The stable descending sort sorts: no element is less than a later one. *)
Lemma insert_desc_sorted {A : Type} (key : A -> num) x l :
  Forall (fun a => ordinary (key a)) l ->
  StronglySorted (fun a b => nltb (key a) (key b) = false) l ->
  StronglySorted (fun a b => nltb (key a) (key b) = false) (insert_desc key x l).
Proof.
  induction l as [|y ys IH]; simpl; intros Hord Hs.
  - repeat constructor.
  - inversion Hs as [|? ? Hys Hf]; subst.
    inversion Hord as [|? ? Hy Hord']; subst.
    destruct (nltb (key x) (key y)) eqn:E.
    + constructor; [auto|].
      apply Forall_forall. intros z Hz.
      apply (Permutation_in _ (insert_desc_perm key x ys)) in Hz.
      destruct Hz as [<-|Hz]; [apply nltb_asym; exact E|].
      rewrite Forall_forall in Hf. auto.
    + constructor; [exact Hs|].
      constructor; [exact E|].
      apply Forall_forall. intros z Hz. rewrite Forall_forall in Hf.
      exact (nltb_false_trans _ _ _ Hy E (Hf z Hz)).
Qed.

Lemma sort_desc_sorted {A : Type} (key : A -> num) l :
  Forall (fun a => ordinary (key a)) l ->
  StronglySorted (fun a b => nltb (key a) (key b) = false) (sort_desc key l).
Proof.
  induction l as [|x xs IH]; simpl; intros Hord; [constructor|].
  inversion Hord; subst.
  apply insert_desc_sorted; [|auto].
  apply Forall_forall. intros a Ha. apply sort_desc_in in Ha.
  rewrite Forall_forall in H2. auto.
Qed.

End SortOrder.

Section SortedFacts.

Context {A : Type}.

Lemma strongly_sorted_impl (R1 R2 : A -> A -> Prop) l :
  (forall a b, In a l -> In b l -> R1 a b -> R2 a b) ->
  StronglySorted R1 l -> StronglySorted R2 l.
Proof.
  induction l as [|x l IH]; intros Himp Hs; [constructor|].
  inversion Hs as [|? ? Hl Hf]; subst. constructor.
  - apply IH; [|exact Hl]. intros a b Ha Hb. apply Himp; right; assumption.
  - apply Forall_forall. intros b Hb. rewrite Forall_forall in Hf.
    apply Himp; [left; reflexivity | right; exact Hb | auto].
Qed.

End SortedFacts.

(** ** The order of binary64 numbers

    [<] on floats is asymmetric, and "not less than" is transitive through
    a number that is not NaN; between two numbers that are not NaN, "not
    less than" is [>=]. *)

Section FloatOrder.

Lemma is_nan_false x : PrimFloat.is_nan x = false -> Prim2SF x <> S754_nan.
Proof.
  unfold PrimFloat.is_nan. rewrite eqb_spec. unfold SFeqb. intros H E.
  rewrite E in H. discriminate H.
Qed.

Ltac order_cases :=
  repeat match goal with
  | H : context [Z.compare ?a ?b] |- _ => destruct (Z.compare_spec a b)
  | |- context [Z.compare ?a ?b] => destruct (Z.compare_spec a b)
  | H : context [Pos.compare_cont Eq ?a ?b] |- _ =>
      change (Pos.compare_cont Eq a b) with (Pos.compare a b) in H;
      destruct (Pos.compare_spec a b)
  | |- context [Pos.compare_cont Eq ?a ?b] =>
      change (Pos.compare_cont Eq a b) with (Pos.compare a b);
      destruct (Pos.compare_spec a b)
  end.

Lemma SFltb_asym a b : SFltb a b = true -> SFltb b a = false.
Proof.
  unfold SFltb.
  destruct a as [s1|s1| |s1 m1 e1], b as [s2|s2| |s2 m2 e2];
    try destruct s1; try destruct s2; simpl; try congruence;
    order_cases; simpl; try congruence; try lia.
Qed.

Lemma SFltb_false_trans a b c :
  b <> S754_nan ->
  SFltb a b = false -> SFltb b c = false -> SFltb a c = false.
Proof.
  unfold SFltb. intros Hb.
  destruct a as [s1|s1| |s1 m1 e1], b as [s2|s2| |s2 m2 e2], c as [s3|s3| |s3 m3 e3];
    try congruence;
    try destruct s1; try destruct s2; try destruct s3; simpl; try congruence;
    order_cases; simpl; try congruence; try lia.
Qed.

Lemma SFltb_false_leb a b :
  a <> S754_nan -> b <> S754_nan -> SFltb a b = false -> SFleb b a = true.
Proof.
  unfold SFltb, SFleb. intros Ha Hb.
  destruct a as [s1|s1| |s1 m1 e1], b as [s2|s2| |s2 m2 e2];
    try congruence;
    try destruct s1; try destruct s2; simpl; try congruence;
    order_cases; simpl; try congruence; try lia.
Qed.

Lemma float_ltb_asym (x y : float) : PrimFloat.ltb x y = true -> PrimFloat.ltb y x = false.
Proof. rewrite !ltb_spec. apply SFltb_asym. Qed.

Lemma float_ltb_false_trans (x y z : float) :
  PrimFloat.is_nan y = false ->
  PrimFloat.ltb x y = false -> PrimFloat.ltb y z = false -> PrimFloat.ltb x z = false.
Proof. rewrite !ltb_spec. intros H. apply SFltb_false_trans, is_nan_false, H. Qed.

Lemma float_ltb_false_leb (x y : float) :
  PrimFloat.is_nan x = false -> PrimFloat.is_nan y = false ->
  PrimFloat.ltb x y = false -> PrimFloat.leb y x = true.
Proof.
  rewrite ltb_spec, leb_spec. intros Hx Hy.
  apply SFltb_false_leb; apply is_nan_false; assumption.
Qed.

End FloatOrder.

Section FloatRanking.

Lemma float_sort_desc_sorted {A : Type} (key : A -> float) l :
  Forall (fun a => PrimFloat.is_nan (key a) = false) l ->
  StronglySorted (fun a b => PrimFloat.leb (key b) (key a) = true) (sort_desc key l).
Proof.
  intros Hord.
  pose proof (sort_desc_sorted (fun x => PrimFloat.is_nan x = false)
                float_ltb_asym float_ltb_false_trans key l Hord) as Hs.
  revert Hs. apply strongly_sorted_impl. intros a b Ha Hb Hab.
  apply sort_desc_in in Ha, Hb. rewrite Forall_forall in Hord.
  apply float_ltb_false_leb; [apply Hord, Ha | apply Hord, Hb | exact Hab].
Qed.

End FloatRanking.
Section ListFacts.

Context {A : Type}.

Lemma nodup_firstn (l : list A) n : NoDup l -> NoDup (firstn n l).
Proof.
  intros H. rewrite <- (firstn_skipn n l) in H.
  apply NoDup_app_remove_r in H. exact H.
Qed.

Lemma nodup_map_filter {B : Type} (f : A -> B) (p : A -> bool) l :
  NoDup (map f l) -> NoDup (map f (filter p l)).
Proof.
  induction l as [|a l IH]; simpl; intros H; [constructor|].
  inversion H as [|? ? Hnin Hnd]; subst.
  destruct (p a); simpl; [|auto].
  constructor; [|auto]. intros Hin. apply Hnin.
  apply in_map_iff in Hin. destruct Hin as (x & E & Hx).
  apply filter_In in Hx. apply in_map_iff. exists x. tauto.
Qed.

Lemma py_slice_to_firstn (l : list A) k : exists n, py_slice_to l k = firstn n l.
Proof. unfold py_slice_to. destruct (0 <=? k)%Z; eauto. Qed.

End ListFacts.

Section FullRanking.

Context {num : Type} {AR : Arith num}.

Lemma rank_groups_full top_k min_chunks (g : list (string * list (ChunkData num))) :
  NoDup (map fst g) ->
  Forall (fun e => snd e <> []) g ->
  rank_groups top_k min_chunks g =
  Ok (py_slice_to (full_ranking top_k min_chunks g) top_k).
Proof. apply rank_groups_spec. Qed.

Lemma primary_ranking_in min_chunks (g : list (string * list (ChunkData num))) ctx :
  In ctx (primary_ranking min_chunks g) <->
  exists e, In e g /\ qualifies min_chunks e = true /\ ctx = context_of e.
Proof.
  unfold primary_ranking. rewrite sort_desc_in, in_map_iff. split.
  - intros (e & <- & He). apply filter_In in He. exists e. tauto.
  - intros (e & He & Hq & ->). exists e. rewrite filter_In. tauto.
Qed.

Lemma remaining_speakers_in min_chunks (g : list (string * list (ChunkData num))) ctx n :
  In ctx (firstn n (remaining_speakers min_chunks g)) ->
  exists e, In e (firstn n (filter (fun e => negb (qualifies min_chunks e)) g)) /\
            ctx = context_of e.
Proof.
  unfold remaining_speakers. rewrite firstn_map, in_map_iff.
  intros (e & <- & He). eauto.
Qed.

(** No speaker is ranked twice. *)
Lemma full_ranking_nodup top_k min_chunks (g : list (string * list (ChunkData num))) :
  NoDup (map fst g) ->
  NoDup (map speaker (full_ranking top_k min_chunks g)).
Proof.
  intros Hnd.
  assert (Hprim : NoDup (map speaker (primary_ranking min_chunks g))).
  { unfold primary_ranking.
    apply (Permutation_NoDup
             (Permutation_map (@speaker num) (Permutation_sym (sort_desc_perm score _)))).
    rewrite map_speaker_context_of. apply nodup_map_filter. exact Hnd. }
  unfold full_ranking.
  destruct (Z.of_nat (length (primary_ranking min_chunks g)) <? top_k)%Z; [|exact Hprim].
  apply (Permutation_NoDup
           (Permutation_map (@speaker num) (Permutation_sym (sort_desc_perm score _)))).
  rewrite map_app. apply NoDup_app; [exact Hprim | |].
  - unfold remaining_speakers. rewrite firstn_map, map_speaker_context_of, <- firstn_map.
    apply nodup_firstn, nodup_map_filter. exact Hnd.
  - intros sp H1 H2.
    apply in_map_iff in H1. destruct H1 as (c1 & E1 & H1).
    apply in_map_iff in H2. destruct H2 as (c2 & E2 & H2).
    apply primary_ranking_in in H1. destruct H1 as (e1 & He1 & Hq1 & ->).
    apply remaining_speakers_in in H2. destruct H2 as (e2 & He2 & ->).
    apply in_firstn, filter_In in He2. destruct He2 as [He2 Hq2].
    simpl in E1, E2. destruct e1 as [s1 c1], e2 as [s2 c2]. simpl in *. subst s1 s2.
    pose proof (in_dict_get _ _ _ Hnd He1) as G1.
    pose proof (in_dict_get _ _ _ Hnd He2) as G2.
    rewrite G1 in G2. inversion G2; subst. rewrite Hq1 in Hq2. discriminate.
Qed.

End FullRanking.
(** ** Paragraphs and chunks *)

Section ChunkTheory.

Lemma split_paragraphs_step a b s :
  split_paragraphs (a :: b :: s) =
  if is_nl a && is_nl b then [] :: split_paragraphs s
  else match split_paragraphs (b :: s) with
       | p :: ps => (a :: p) :: ps
       | [] => [[a]]
       end.
Proof. reflexivity. Qed.

Lemma split_paragraphs_nonempty s : split_paragraphs s <> [].
Proof.
  destruct s as [|a [|b s'']]; try discriminate.
  rewrite split_paragraphs_step.
  destruct (is_nl a && is_nl b); [discriminate|].
  destruct (split_paragraphs (b :: s'')); discriminate.
Qed.

Lemma join_paragraphs_cons p ps :
  ps <> [] -> join_paragraphs (p :: ps) = p ++ paragraph_break ++ join_paragraphs ps.
Proof. destruct ps; [congruence | reflexivity]. Qed.

Lemma join_paragraphs_char a p ps :
  join_paragraphs ((a :: p) :: ps) = a :: join_paragraphs (p :: ps).
Proof. destruct ps; reflexivity. Qed.

Lemma is_nl_eq c : is_nl c = true -> c = nl.
Proof. unfold is_nl. apply Ascii.eqb_eq. Qed.

(** Joining the paragraphs of a text gives the text back. *)
Lemma join_split_paragraphs s : join_paragraphs (split_paragraphs s) = s.
Proof.
  assert (H : forall n s, length s <= n -> join_paragraphs (split_paragraphs s) = s).
  { clear s. induction n as [|n IH]; intros s Hlen.
    - destruct s; [reflexivity | simpl in Hlen; lia].
    - destruct s as [|a [|b s'']]; try reflexivity.
      simpl in Hlen.
      rewrite split_paragraphs_step.
      destruct (is_nl a && is_nl b) eqn:E.
      + apply andb_prop in E. destruct E as [Ea Eb].
        apply is_nl_eq in Ea, Eb. subst a b.
        rewrite join_paragraphs_cons by apply split_paragraphs_nonempty.
        rewrite IH by lia. reflexivity.
      + pose proof (IH (b :: s'') ltac:(simpl; lia)) as Hs.
        destruct (split_paragraphs (b :: s'')) as [|p ps] eqn:Ep.
        * exfalso. apply (split_paragraphs_nonempty (b :: s'')). exact Ep.
        * rewrite join_paragraphs_char. f_equal. exact Hs. }
  apply (H (length s)). lia.
Qed.

Lemma join_paragraphs_snoc ps p :
  ps <> [] ->
  join_paragraphs (ps ++ [p]) = join_paragraphs ps ++ paragraph_break ++ p.
Proof.
  induction ps as [|q ps IH]; [congruence|]. intros _.
  destruct ps as [|q' ps].
  - reflexivity.
  - change ((q :: q' :: ps) ++ [p]) with (q :: ((q' :: ps) ++ [p])).
    rewrite join_paragraphs_cons by (destruct ps; discriminate).
    rewrite IH by discriminate.
    rewrite (join_paragraphs_cons q (q' :: ps)) by discriminate.
    rewrite <- !app_assoc. reflexivity.
Qed.

Lemma starts_with_break a b s :
  starts_with paragraph_break (a :: b :: s) = is_nl a && is_nl b.
Proof.
  unfold paragraph_break, is_nl. cbn [starts_with].
  rewrite (Ascii.eqb_sym nl a), (Ascii.eqb_sym nl b), andb_true_r. reflexivity.
Qed.

(** A text that does not begin with a blank line begins with a paragraph
    that is not empty. *)
Lemma split_paragraphs_head s :
  s <> [] -> starts_with paragraph_break s = false ->
  exists p ps, split_paragraphs s = p :: ps /\ p <> [].
Proof.
  destruct s as [|a [|b s'']]; [congruence | |]; intros _ H.
  - exists [a], []. split; [reflexivity | discriminate].
  - rewrite split_paragraphs_step.
    rewrite starts_with_break in H. rewrite H. destruct (split_paragraphs (b :: s'')) as [|p ps].
    + exists [a], []. split; [reflexivity | discriminate].
    + exists (a :: p), ps. split; [reflexivity | discriminate].
Qed.

(** *** Removing overlaps *)

Lemma last_default {A : Type} (l : list A) d1 d2 :
  l <> [] -> last l d1 = last l d2.
Proof.
  induction l as [|x l IH]; [congruence|]. intros _.
  destruct l as [|y l]; [reflexivity|].
  change (last (y :: l) d1 = last (y :: l) d2). apply IH. discriminate.
Qed.

Lemma strip_overlaps_snoc overlap prev l d :
  strip_overlaps overlap prev (l ++ [d]) =
  strip_overlaps overlap prev l ++
  skipn (length (overlap_text overlap (last l prev))) d.
Proof.
  revert prev. induction l as [|c l IH]; intros prev.
  - simpl. rewrite app_nil_r. reflexivity.
  - change (strip_overlaps overlap prev ((c :: l) ++ [d]))
      with (skipn (length (overlap_text overlap prev)) c ++
            strip_overlaps overlap c (l ++ [d])).
    rewrite IH.
    change (strip_overlaps overlap prev (c :: l))
      with (skipn (length (overlap_text overlap prev)) c ++ strip_overlaps overlap c l).
    rewrite <- app_assoc.
    destruct l as [|x l]; [reflexivity|].
    change (last (c :: x :: l) prev) with (last (x :: l) prev).
    rewrite (last_default (x :: l) c prev) by discriminate. reflexivity.
Qed.

Lemma remove_overlaps_snoc overlap cs d :
  cs <> [] ->
  remove_overlaps overlap (cs ++ [d]) =
  remove_overlaps overlap cs ++ skipn (length (overlap_text overlap (last cs []))) d.
Proof.
  destruct cs as [|c cs]; [congruence|]. intros _.
  change (remove_overlaps overlap ((c :: cs) ++ [d]))
    with (c ++ strip_overlaps overlap c (cs ++ [d])).
  rewrite strip_overlaps_snoc.
  change (remove_overlaps overlap (c :: cs)) with (c ++ strip_overlaps overlap c cs).
  rewrite <- app_assoc.
  destruct cs as [|x cs]; [reflexivity|].
  change (last (c :: x :: cs) []) with (last (x :: cs) (@nil ascii)).
  rewrite (last_default (x :: cs) c []) by discriminate. reflexivity.
Qed.

Lemma skipn_length_app {A : Type} (l1 l2 : list A) :
  skipn (length l1) (l1 ++ l2) = l2.
Proof. induction l1; simpl; auto. Qed.

(** Growing the buffer at its end grows the reconstruction by as much,
    once the buffer holds the overlap of the chunk before it. *)
Lemma remove_overlaps_grow overlap cs cur x :
  (cs = [] \/ exists rest, cur = overlap_text overlap (last cs []) ++ rest) ->
  remove_overlaps overlap (cs ++ [cur ++ x]) =
  remove_overlaps overlap (cs ++ [cur]) ++ x.
Proof.
  intros [->|(rest & ->)].
  - simpl. rewrite !app_nil_r. reflexivity.
  - destruct cs as [|c cs].
    + simpl. rewrite !app_nil_r. reflexivity.
    + rewrite !remove_overlaps_snoc by discriminate.
      set (k := overlap_text overlap (last (c :: cs) [])).
      rewrite <- (app_assoc k rest x), !skipn_length_app.
      apply app_assoc.
Qed.

Lemma remove_overlaps_seal overlap cs cur y :
  remove_overlaps overlap ((cs ++ [cur]) ++ [overlap_text overlap cur ++ y]) =
  remove_overlaps overlap (cs ++ [cur]) ++ y.
Proof.
  rewrite remove_overlaps_snoc by (destruct cs; discriminate).
  rewrite last_last, skipn_length_app. reflexivity.
Qed.

Lemma nonempty_true s : nonempty s = true <-> s <> [].
Proof. destruct s; simpl; split; congruence. Qed.

Lemma overlap_text_length overlap s :
  (0 < overlap)%Z -> (Z.of_nat (length (overlap_text overlap s)) <= overlap)%Z.
Proof.
  intros H. unfold overlap_text, py_suffix.
  destruct (overlap <? Z.of_nat (length s))%Z eqn:E.
  - apply Z.ltb_lt in E. apply Z.ltb_lt in H. rewrite H.
    rewrite length_skipn. apply Z.ltb_lt in H. lia.
  - apply Z.ltb_ge in E. exact E.
Qed.

End ChunkTheory.
Section ChunkInvariants.

Variables (turn : Turn) (max_chars overlap : Z).

Lemma seeded_chunk_bound_mono paragraphs prevs more c :
  seeded_chunk_bound max_chars overlap paragraphs prevs c ->
  seeded_chunk_bound max_chars overlap paragraphs (prevs ++ more) c.
Proof.
  intros [H|(prev & p & Hprev & Hp & E)]; [left; exact H|].
  right. exists prev, p. repeat split; try assumption.
  apply in_or_app. left. exact Hprev.
Qed.

Lemma chunk_step_bounded paragraphs st para :
  In para paragraphs ->
  chunk_state_bounded max_chars overlap paragraphs st ->
  chunk_state_bounded max_chars overlap paragraphs
    (chunk_step turn max_chars overlap st para).
Proof.
  destruct st as [[chunks cur] idx]. intros Hpara [Hall Hcur].
  unfold chunk_state_bounded in *. simpl in Hall, Hcur. unfold chunk_step.
  destruct (Z.of_nat (length cur) + Z.of_nat (length para) + 2 <=? max_chars)%Z eqn:Efit.
  - apply Z.leb_le in Efit. destruct (nonempty cur) eqn:Ene; simpl.
    + split; [exact Hall|]. right. left. left.
      rewrite !length_app. simpl. lia.
    + split; [exact Hall|]. right. left. left. lia.
  - apply Z.leb_gt in Efit. destruct (nonempty cur) eqn:Ene; simpl.
    + apply nonempty_true in Ene. destruct Hcur as [Hcur|Hcur]; [contradiction|].
      rewrite map_app. simpl. split.
      * apply Forall_app. split.
        -- eapply Forall_impl; [|exact Hall].
           intros c Hc. apply seeded_chunk_bound_mono. exact Hc.
        -- constructor; [|constructor]. apply seeded_chunk_bound_mono. exact Hcur.
      * right. right. exists cur, para. repeat split; [|exact Hpara].
        apply in_or_app. right. left. reflexivity.
    + split; [exact Hall|]. right. left.
      destruct (Z_le_gt_dec (Z.of_nat (length para)) max_chars) as [Hle|Hgt].
      * left. exact Hle.
      * right. exists para. repeat split; [exact Hpara | lia].
Qed.

Lemma chunk_fold_bounded paragraphs rest st :
  (forall p, In p rest -> In p paragraphs) ->
  chunk_state_bounded max_chars overlap paragraphs st ->
  chunk_state_bounded max_chars overlap paragraphs
    (fold_left (chunk_step turn max_chars overlap) rest st).
Proof.
  revert st. induction rest as [|p rest IH]; intros st Hin Hst; [exact Hst|].
  simpl. apply IH.
  - intros q Hq. apply Hin. right. exact Hq.
  - apply chunk_step_bounded; [apply Hin; left; reflexivity | exact Hst].
Qed.

Lemma chunk_loop_bounded paragraphs :
  chunk_state_bounded max_chars overlap paragraphs
    (chunk_loop turn max_chars overlap paragraphs).
Proof.
  apply chunk_fold_bounded; [auto|].
  split; [constructor | left; reflexivity].
Qed.

Lemma chunk_step_reconstructs done st para :
  done <> [] ->
  chunk_state_reconstructs overlap done st ->
  chunk_state_reconstructs overlap (done ++ [para])
    (chunk_step turn max_chars overlap st para).
Proof.
  destruct st as [[chunks cur] idx]. intros Hdone (Hne & Hpre & Hrec).
  unfold chunk_state_reconstructs in *. simpl in Hne, Hpre, Hrec. unfold chunk_step.
  assert (Ene : nonempty cur = true) by (apply nonempty_true; exact Hne).
  rewrite Ene.
  destruct (Z.of_nat (length cur) + Z.of_nat (length para) + 2 <=? max_chars)%Z; simpl.
  - split; [destruct cur; [congruence | discriminate]|]. split.
    + destruct Hpre as [Hpre|(rest & Hpre)]; [left; exact Hpre|].
      right. exists (rest ++ paragraph_break ++ para).
      rewrite Hpre at 1. rewrite <- app_assoc. reflexivity.
    + rewrite (remove_overlaps_grow _ _ _ _ Hpre).
      rewrite (join_paragraphs_snoc _ _ Hdone). f_equal. exact Hrec.
  - rewrite map_app. simpl. split; [|split].
    + unfold paragraph_break. destruct (overlap_text overlap cur); discriminate.
    + right. rewrite last_last. eauto.
    + rewrite remove_overlaps_seal.
      rewrite (join_paragraphs_snoc _ _ Hdone). f_equal. exact Hrec.
Qed.

Lemma chunk_fold_reconstructs rest done st :
  done <> [] ->
  chunk_state_reconstructs overlap done st ->
  chunk_state_reconstructs overlap (done ++ rest)
    (fold_left (chunk_step turn max_chars overlap) rest st).
Proof.
  revert done st. induction rest as [|p rest IH]; intros done st Hdone Hst.
  - rewrite app_nil_r. exact Hst.
  - simpl.
    replace (done ++ p :: rest) with ((done ++ [p]) ++ rest)
      by (rewrite <- app_assoc; reflexivity).
    apply IH; [destruct done; discriminate|].
    apply chunk_step_reconstructs; assumption.
Qed.

(** From a first paragraph that is not empty on, the sealed chunks and
    the buffer reconstruct the paragraphs. *)
Lemma chunk_loop_reconstructs p ps :
  p <> [] ->
  chunk_state_reconstructs overlap (p :: ps)
    (chunk_loop turn max_chars overlap (p :: ps)).
Proof.
  intros Hp. unfold chunk_loop.
  apply (chunk_fold_reconstructs ps [p]
           (chunk_step turn max_chars overlap ([], [], 0%nat) p)); [discriminate|].
  unfold chunk_step. simpl.
  destruct (Z.of_nat (length p) + 2 <=? max_chars)%Z;
    (split; [exact Hp|]; split; [left; reflexivity|]; simpl; apply app_nil_r).
Qed.

End ChunkInvariants.
(** ** The passes of parse_transcript *)

Section ParserTheory.

Lemma raw_turns_from_flags text cur markers :
  Forall host_flag_ok (raw_turns_from text cur markers).
Proof.
  revert cur. induction markers as [|m rest IH]; intros cur; simpl.
  - constructor.
  - constructor; [reflexivity | apply IH].
Qed.

Lemma merge_into_flags merged turns :
  Forall host_flag_ok merged -> Forall host_flag_ok turns ->
  Forall host_flag_ok (merge_into merged turns).
Proof.
  revert merged. induction turns as [|t rest IH]; intros merged Hm Ht; simpl.
  - apply Forall_rev. exact Hm.
  - inversion Ht as [|? ? Hthis Hrest]; subst.
    destruct merged as [|last before].
    + apply IH; [constructor; [exact Hthis | constructor] | exact Hrest].
    + inversion Hm as [|? ? Hlast Hbefore]; subst.
      destruct (str_eqb (rt_speaker last) (rt_speaker t)).
      * apply IH; [|exact Hrest]. constructor; [exact Hlast | exact Hbefore].
      * apply IH; [|exact Hrest]. constructor; [exact Hthis | exact Hm].
Qed.

Lemma merged_turns_flags text : Forall host_flag_ok (merged_turns text).
Proof.
  unfold merged_turns, merge_turns, raw_turns.
  apply merge_into_flags; [constructor | apply raw_turns_from_flags].
Qed.

Lemma most_recent_host_question_snoc before m :
  most_recent_host_question (before ++ [m]) =
  if is_host (rt_speaker m) && negb (is_sponsor_content (rt_text m))
  then rt_text m
  else most_recent_host_question before.
Proof.
  unfold most_recent_host_question. rewrite rev_app_distr. simpl.
  destruct (is_host (rt_speaker m) && negb (is_sponsor_content (rt_text m))); reflexivity.
Qed.

Lemma guest_turns_from_cons source_file q turn rest :
  guest_turns_from source_file q (turn :: rest) =
  if rt_is_host turn
  then guest_turns_from source_file
         (if is_sponsor_content (rt_text turn) then q else rt_text turn) rest
  else if is_sponsor_speaker (rt_speaker turn)
  then guest_turns_from source_file q rest
  else if is_sponsor_content (rt_text turn)
  then guest_turns_from source_file q rest
  else if (100 <=? length (rt_text turn))%nat
  then {| turn_speaker := rt_speaker turn;
          turn_timestamp := rt_timestamp turn;
          turn_text := rt_text turn;
          turn_preceding_question := q;
          turn_source_file := source_file |}
       :: guest_turns_from source_file q rest
  else guest_turns_from source_file q rest.
Proof. reflexivity. Qed.

(** The last pass: every turn it emits comes from a merged guest turn of
    at least 100 characters, neither sponsor-labelled nor a sponsor read,
    and carries the last host question before it. *)
Lemma guest_turns_from_spec source_file turns :
  Forall host_flag_ok turns ->
  forall before q t,
    q = most_recent_host_question before ->
    In t (guest_turns_from source_file q turns) ->
    exists pre m post,
      turns = pre ++ m :: post /\
      turn_speaker t = rt_speaker m /\
      turn_timestamp t = rt_timestamp m /\
      turn_text t = rt_text m /\
      turn_preceding_question t = most_recent_host_question (before ++ pre) /\
      is_host (rt_speaker m) = false /\
      is_sponsor_speaker (rt_speaker m) = false /\
      is_sponsor_content (rt_text m) = false /\
      100 <= length (rt_text m).
Proof.
  induction turns as [|m rest IH]; intros Hflags before q t Hq Hin; [destruct Hin|].
  inversion Hflags as [|? ? Hm Hrest]; subst. unfold host_flag_ok in Hm.
  assert (Hnext : forall q',
            q' = most_recent_host_question (before ++ [m]) ->
            In t (guest_turns_from source_file q' rest) ->
            exists pre m0 post,
              m :: rest = pre ++ m0 :: post /\
              turn_speaker t = rt_speaker m0 /\
              turn_timestamp t = rt_timestamp m0 /\
              turn_text t = rt_text m0 /\
              turn_preceding_question t = most_recent_host_question (before ++ pre) /\
              is_host (rt_speaker m0) = false /\
              is_sponsor_speaker (rt_speaker m0) = false /\
              is_sponsor_content (rt_text m0) = false /\
              100 <= length (rt_text m0)).
  { intros q' Hq' Hin'.
    destruct (IH Hrest (before ++ [m]) q' t Hq' Hin')
      as (pre & m0 & post & E & H1 & H2 & H3 & H4 & H5).
    exists (m :: pre), m0, post. rewrite E. split; [reflexivity|].
    rewrite <- app_assoc in H4. simpl in H4. tauto. }
  rewrite guest_turns_from_cons in Hin.
  destruct (rt_is_host m) eqn:Ehost.
  - apply Hnext in Hin; [exact Hin|].
    rewrite most_recent_host_question_snoc, <- Hm. simpl.
    destruct (is_sponsor_content (rt_text m)); reflexivity.
  - assert (Hskip : most_recent_host_question before =
                    most_recent_host_question (before ++ [m])).
    { rewrite most_recent_host_question_snoc, <- Hm. reflexivity. }
    destruct (is_sponsor_speaker (rt_speaker m)) eqn:Espk;
      [apply Hnext in Hin; [exact Hin | congruence]|].
    destruct (is_sponsor_content (rt_text m)) eqn:Econtent;
      [apply Hnext in Hin; [exact Hin | congruence]|].
    destruct (100 <=? length (rt_text m))%nat eqn:Elen;
      [|apply Hnext in Hin; [exact Hin | congruence]].
    destruct Hin as [<-|Hin]; [|apply Hnext in Hin; [exact Hin | congruence]].
    exists [], m, rest. simpl. rewrite app_nil_r.
    apply Nat.leb_le in Elen. repeat split; try assumption; congruence.
Qed.

End ParserTheory.
(** ** Case of characters and names *)

Section NameTheory.

Ltac each_char c := destruct c as [[] [] [] [] [] [] [] []]; vm_compute.

Lemma lower_is_alpha c : is_lower c = true -> is_alpha c = true.
Proof. unfold is_alpha. intros ->. apply orb_true_r. Qed.

Lemma lower_not_upper c : is_lower c = true -> is_upper c = false.
Proof. each_char c; intros H; first [reflexivity | discriminate H]. Qed.

Lemma alpha_cases c : is_alpha c = true -> is_lower c = false -> is_upper c = true.
Proof. unfold is_alpha. destruct (is_upper c); simpl; congruence. Qed.

Lemma to_lower_is_lower c : is_alpha c = true -> is_lower (to_lower c) = true.
Proof. each_char c; intros H; first [reflexivity | discriminate H]. Qed.

Lemma to_upper_is_upper c : is_alpha c = true -> is_upper (to_upper c) = true.
Proof. each_char c; intros H; first [reflexivity | discriminate H]. Qed.

Lemma to_lower_alpha c : is_alpha (to_lower c) = is_alpha c.
Proof. each_char c; reflexivity. Qed.

Lemma to_upper_alpha c : is_alpha (to_upper c) = is_alpha c.
Proof. each_char c; reflexivity. Qed.

Lemma to_lower_idem c : to_lower (to_lower c) = to_lower c.
Proof. each_char c; reflexivity. Qed.

Lemma to_lower_upper c : to_lower (to_upper c) = to_lower c.
Proof. each_char c; reflexivity. Qed.

(** [isupper] decides [all_uppercase]. *)
Lemma isupper_spec s : isupper s = true <-> all_uppercase s.
Proof.
  unfold isupper, all_uppercase. rewrite andb_true_iff, negb_true_iff, existsb_exists.
  split.
  - intros [Hex Hno]. split; [exact Hex|].
    intros c Hc Ha. apply alpha_cases; [exact Ha|].
    destruct (is_lower c) eqn:E; [|reflexivity].
    assert (Hx : existsb is_lower s = true) by (apply existsb_exists; eauto).
    congruence.
  - intros [Hex Hall]. split; [exact Hex|].
    destruct (existsb is_lower s) eqn:E; [|reflexivity].
    apply existsb_exists in E. destruct E as (c & Hc & Hl).
    pose proof (Hall c Hc (lower_is_alpha c Hl)) as Hu.
    rewrite (lower_not_upper c Hl) in Hu. discriminate Hu.
Qed.

Lemma has_lowercase_not_upper s : has_lowercase s -> isupper s = false.
Proof.
  intros (c & Hc & Hl). unfold isupper.
  assert (Hx : existsb is_lower s = true) by (apply existsb_exists; eauto).
  rewrite Hx. apply andb_false_r.
Qed.

Lemma title_from_cased prev s : title_cased_from prev (title_from prev s).
Proof.
  revert prev. induction s as [|c s IH]; intros prev; simpl; [exact I|].
  destruct (is_alpha c) eqn:Ea.
  - destruct prev.
    + rewrite to_lower_alpha, Ea. split; [|apply IH].
      intros _. apply to_lower_is_lower. exact Ea.
    + rewrite to_upper_alpha, Ea. split; [|apply IH].
      intros _. apply to_upper_is_upper. exact Ea.
  - rewrite Ea. split; [congruence | apply IH].
Qed.

Lemma title_from_lower prev s : lower (title_from prev s) = lower s.
Proof.
  revert prev. induction s as [|c s IH]; intros prev; simpl; [reflexivity|].
  rewrite IH. f_equal.
  destruct (is_alpha c); [|reflexivity].
  destruct prev; [apply to_lower_idem | apply to_lower_upper].
Qed.

Lemma title_from_length prev s : length (title_from prev s) = length s.
Proof.
  revert prev. induction s as [|c s IH]; intros prev; simpl; [reflexivity|].
  rewrite IH. reflexivity.
Qed.

End NameTheory.
(** ** The marker patterns on text without colons *)

Section RegexTheory.

Lemma flat_map_nil {A B : Type} (f : A -> list B) (l : list A) :
  (forall x, In x l -> f x = []) -> flat_map f l = [].
Proof.
  induction l as [|x l IH]; intros H; [reflexivity|]. simpl.
  rewrite (H x (or_introl eq_refl)), IH; [reflexivity|].
  intros y Hy. apply H. right. exact Hy.
Qed.

Lemma colon_free_app s1 s2 : colon_free (s1 ++ s2) -> colon_free s2.
Proof.
  unfold colon_free. rewrite existsb_app. apply orb_false_elim.
Qed.

Lemma colon_free_cons c s : colon_free (c :: s) -> colon_free s.
Proof. apply (colon_free_app [c] s). Qed.

Lemma colon_free_head c s : colon_free (c :: s) -> is_char ":" c = false.
Proof. unfold colon_free. simpl. intros H. apply orb_false_elim in H. tauto. Qed.

Lemma rx_char_in p s c r : In (c, r) (rx_char p s) -> s = c :: r /\ p c = true.
Proof.
  destruct s as [|a s]; simpl; [tauto|].
  destruct (p a) eqn:E; [|intros []].
  intros [H|[]]. inversion H; subst. auto.
Qed.

Lemma rx_upto_in p n s m r : In (m, r) (rx_upto p n s) -> s = m ++ r.
Proof.
  revert s m r. induction n as [|n IH]; intros s m r.
  - destruct s; simpl; intros [H|[]]; inversion H; reflexivity.
  - destruct s as [|c s]; simpl; [intros [H|[]]; inversion H; reflexivity|].
    destruct (p c).
    + intros H. apply in_app_or in H. destruct H as [H|[H|[]]].
      * apply in_map_iff in H. destruct H as ([m' r'] & E & H). inversion E; subst.
        simpl. f_equal. apply IH. exact H.
      * inversion H; reflexivity.
    + intros [H|[]]. inversion H; reflexivity.
Qed.

Lemma rx_rep1_in p n s m r : In (m, r) (rx_rep1 p n s) -> s = m ++ r.
Proof.
  unfold rx_rep1. intros H. apply in_flat_map in H. destruct H as ([c r0] & Hc & H).
  apply rx_char_in in Hc. destruct Hc as [-> _].
  apply in_map_iff in H. destruct H as ([m' r'] & E & H). inversion E; subst.
  simpl. f_equal. apply (rx_upto_in _ _ _ _ _ H).
Qed.

(** A timestamp holds a colon. *)
Lemma rx_timestamp_colon_free s : colon_free s -> rx_timestamp s = [].
Proof.
  intros Hs. unfold rx_timestamp. apply flat_map_nil. intros [h r1] Hh.
  apply rx_rep1_in in Hh. subst s. apply colon_free_app in Hs. simpl.
  destruct r1 as [|c r1]; [reflexivity|]. simpl.
  rewrite (colon_free_head _ _ Hs). reflexivity.
Qed.

Lemma speaker_with_timestamp_colon_free s :
  colon_free s -> SPEAKER_WITH_TIMESTAMP_PATTERN s = None.
Proof.
  intros Hs. unfold SPEAKER_WITH_TIMESTAMP_PATTERN.
  rewrite flat_map_nil; [reflexivity|]. intros [c0 r0] H0.
  apply rx_char_in in H0. destruct H0 as [-> _]. apply colon_free_cons in Hs.
  apply flat_map_nil. intros [name r1] H1.
  apply rx_rep1_in in H1. simpl in H1. subst r0. apply colon_free_app in Hs.
  apply flat_map_nil. intros [w r2] H2.
  apply rx_upto_in in H2. simpl in H2. subst r1. apply colon_free_app in Hs.
  apply flat_map_nil. intros [par r3] H3.
  apply rx_char_in in H3. simpl in H3. destruct H3 as [-> _].
  apply colon_free_cons in Hs. simpl.
  rewrite (rx_timestamp_colon_free _ Hs). reflexivity.
Qed.

Lemma timestamp_only_colon_free s :
  colon_free s -> TIMESTAMP_ONLY_PATTERN s = None.
Proof.
  intros Hs. unfold TIMESTAMP_ONLY_PATTERN.
  rewrite flat_map_nil; [reflexivity|]. intros [par r] H.
  apply rx_char_in in H. destruct H as [-> _]. apply colon_free_cons in Hs. simpl.
  rewrite (rx_timestamp_colon_free _ Hs). reflexivity.
Qed.

(** A pattern that matches no text without a colon finds nothing in one. *)
Lemma finditer_from_colon_free (rx : str -> option RxMatch) s pos bol :
  (forall s', colon_free s' -> rx s' = None) ->
  colon_free s -> finditer_from rx s pos bol 0 = [].
Proof.
  intros Hrx. revert pos bol. induction s as [|c s IH]; intros pos bol Hs; [reflexivity|].
  simpl. rewrite (Hrx _ Hs).
  destruct bol; apply IH; apply (colon_free_cons _ _ Hs).
Qed.

End RegexTheory.
(** ** A marker line followed by a body without markers *)

Section ScenarioTheory.

Variable rx : str -> option RxMatch.

Lemma finditer_from_match c s pos g1 g2 len :
  rx (c :: s) = Some (g1, g2, len) ->
  finditer_from rx (c :: s) pos true 0 =
  {| m_start := pos; m_end := pos + len; m_group1 := g1; m_group2 := g2 |}
  :: finditer_from rx s (S pos) (is_nl c) (len - 1).
Proof. intros H. simpl. rewrite H. reflexivity. Qed.

Lemma finditer_from_no_match c s pos :
  rx (c :: s) = None ->
  finditer_from rx (c :: s) pos true 0 = finditer_from rx s (S pos) (is_nl c) 0.
Proof. intros H. simpl. rewrite H. reflexivity. Qed.

(** Inside a match nothing is tried. *)
Lemma finditer_from_skip p c rest pos bol :
  finditer_from rx ((p ++ [c]) ++ rest) pos bol (length (p ++ [c])) =
  finditer_from rx rest (pos + length (p ++ [c])) (is_nl c) 0.
Proof.
  revert pos bol. induction p as [|a p IH]; intros pos bol.
  - simpl. destruct rest; simpl; rewrite ?Nat.add_1_r; reflexivity.
  - change (finditer_from rx (((a :: p) ++ [c]) ++ rest) pos bol (length ((a :: p) ++ [c])))
      with (finditer_from rx ((p ++ [c]) ++ rest) (S pos) (is_nl a) (length (p ++ [c]))).
    rewrite IH. f_equal. simpl. lia.
Qed.

(** Off the start of a line nothing is tried. *)
Lemma finditer_from_midline p rest pos :
  forallb (fun c => negb (is_nl c)) p = true ->
  finditer_from rx (p ++ rest) pos false 0 =
  finditer_from rx rest (pos + length p) false 0.
Proof.
  revert pos. induction p as [|a p IH]; intros pos H.
  - simpl. rewrite Nat.add_0_r. reflexivity.
  - simpl in H. apply andb_prop in H. destruct H as [Ha Hp].
    apply negb_true_iff in Ha.
    change (finditer_from rx ((a :: p) ++ rest) pos false 0)
      with (finditer_from rx (p ++ rest) (S pos) (is_nl a) 0).
    rewrite Ha, (IH _ Hp). f_equal. simpl. lia.
Qed.

End ScenarioTheory.

Section Scenario1.

Lemma py_slice_suffix (p rest : str) :
  py_slice (p ++ rest) (length p) (length (p ++ rest)) = rest.
Proof.
  unfold py_slice. rewrite skipn_length_app, length_app.
  replace (length p + length rest - length p) with (length rest) by lia.
  apply firstn_all.
Qed.

Lemma drop_while_length p s : length (drop_while p s) <= length s.
Proof.
  induction s as [|c s IH]; simpl; [lia|].
  destruct (p c); simpl; lia.
Qed.

End Scenario1.
(** ** Properties of rank_speakers *)

Section RankerClaims.

Context {num : Type} {AR : Arith num}.

Lemma py_slice_to_all {A : Type} (l : list A) n :
  (Z.of_nat (length l) <= n)%Z -> py_slice_to l n = l.
Proof.
  intros H. unfold py_slice_to.
  destruct (0 <=? n)%Z eqn:E; [apply firstn_all2; lia|].
  apply Z.leb_gt in E. lia.
Qed.

Lemma py_slice_to_in {A : Type} (l : list A) n x :
  In x (py_slice_to l n) -> In x l.
Proof.
  unfold py_slice_to. destruct (0 <=? n)%Z; apply in_firstn.
Qed.

(** Every returned context is the context of a speaker of the grouping. *)
Lemma rank_groups_in top_k min_chunks (g : list (string * list (ChunkData num))) out :
  NoDup (map fst g) ->
  Forall (fun e => snd e <> []) g ->
  rank_groups top_k min_chunks g = Ok out ->
  forall ctx, In ctx out -> exists e, In e g /\ ctx = context_of e.
Proof.
  intros Hnd Hne Hout ctx Hin.
  rewrite (rank_groups_spec _ _ _ Hnd Hne) in Hout. inversion Hout; subst out. clear Hout.
  apply py_slice_to_in in Hin.
  assert (Hprim : forall c, In c (primary_ranking min_chunks g) ->
                  exists e, In e g /\ c = context_of e).
  { intros c Hc. unfold primary_ranking in Hc. apply sort_desc_in in Hc.
    apply in_map_iff in Hc. destruct Hc as (e & <- & He).
    apply filter_In in He. exists e. tauto. }
  destruct (Z.of_nat (length (primary_ranking min_chunks g)) <? top_k)%Z; [|auto].
  apply sort_desc_in in Hin. apply in_app_or in Hin. destruct Hin as [Hin|Hin]; [auto|].
  apply in_firstn in Hin. rename Hin into Hrem.
  unfold remaining_speakers in Hrem. apply in_map_iff in Hrem.
  destruct Hrem as (e & <- & He). apply filter_In in He. exists e. tauto.
Qed.

Lemma rank_speakers_total store (hits : list (ChildHit num)) top_k min_chunks :
  exists out, rank_speakers store hits top_k min_chunks = Ok out.
Proof.
  rewrite rank_speakers_groups, rank_groups_spec;
    [eauto | apply groups_of_nodup | apply groups_of_nonempty].
Qed.

(** The chunks of a speaker of the grouping are its evidence parents, each
    with its best child similarity. *)
Lemma resolved_similarities store (hits : list (ChildHit num)) sp (P : list string) :
  map similarity
    (map snd (filter (fun x => String.eqb (fst x) sp)
       (resolved store
          (map (fun k => (k, map snd (filter (fun x => String.eqb (fst x) k) (parent_hits hits)))) P)))) =
  map (best_similarity hits)
    (filter (fun p => match store p with
                      | Some d => String.eqb (speaker_of d) sp
                      | None => false
                      end) P).
Proof.
  induction P as [|p P IH]; [reflexivity|].
  simpl. destruct (store p) as [d|]; simpl; [|exact IH].
  destruct (String.eqb (speaker_of d) sp); simpl; [|exact IH].
  rewrite IH. reflexivity.
Qed.

Lemma groups_of_similarities store (hits : list (ChildHit num)) sp cs :
  In (sp, cs) (groups_of store hits) ->
  map similarity cs = map (best_similarity hits) (evidence_parents store hits sp).
Proof.
  intros H. unfold groups_of in H. apply group_list_in in H. subst cs.
  rewrite group_list_spec. apply resolved_similarities.
Qed.

Lemma groups_of_score store (hits : list (ChildHit num)) e :
  In e (groups_of store hits) ->
  score (context_of e) = spec_score store hits (fst e).
Proof.
  destruct e as [sp cs]. intros H. unfold spec_score. simpl.
  pose proof (groups_of_similarities _ _ _ _ H) as E.
  assert (L : length (evidence_parents store hits sp) = length cs).
  { rewrite <- (length_map (best_similarity hits)), <- E. apply length_map. }
  rewrite L, E. reflexivity.
Qed.

(** Every chunk of the grouping is a parent that the store resolves, filed
    under the speaker of its metadata. *)
Lemma groups_of_resolved store (hits : list (ChildHit num)) sp cs c :
  In (sp, cs) (groups_of store hits) -> In c cs ->
  store (chunk_id c) = Some (chunk_metadata c) /\ speaker_of (chunk_metadata c) = sp.
Proof.
  intros H Hc. unfold groups_of in H. apply group_list_in in H. subst cs.
  apply in_map_iff in Hc. destruct Hc as ([sp' c'] & Ec & Hin). simpl in Ec. subst c'.
  apply filter_In in Hin. destruct Hin as [Hin E]. simpl in E. apply String.eqb_eq in E. subst sp'.
  unfold resolved in Hin. apply in_flat_map in Hin. destruct Hin as (e & _ & Hin).
  destruct (store (fst e)) as [d|] eqn:Es; [|destruct Hin].
  destruct Hin as [Hin|[]]. inversion Hin; subst. simpl. auto.
Qed.

(** The hits without a parent identifier leave [parent_scores] and
    [parent_ids] as they are. *)
Lemma collect_skip (l1 l2 : list (ChildHit num)) h :
  parent_of h = None -> collect (l1 ++ h :: l2) = collect (l1 ++ l2).
Proof.
  intros H. unfold collect. rewrite !fold_left_app. simpl.
  unfold collect_step at 2. rewrite H. reflexivity.
Qed.

End RankerClaims.

(** C7. When the child search returns no hit, [rank_speakers] returns the
    empty list and raises nothing, whatever [top_k] and [min_chunks] are. *)
Theorem rank_speakers_no_hits :
  forall (num : Type) (AR : Arith num) (store : ParentStore) (top_k min_chunks : Z),
    rank_speakers store (@nil (ChildHit num)) top_k min_chunks = Ok [].
Proof. reflexivity. Qed.

(** C8. No speaker reaches the scoring formula without evidence: every
    speaker of the grouping has at least one chunk, each chunk a parent the
    store resolved, so [score_of] divides by the root of a positive count;
    the primary pass, the backfill pass (from any list of speakers) and
    the whole call return without raising. *)
Theorem scoring_never_divides_by_zero :
  forall (num : Type) (AR : Arith num) (store : ParentStore)
         (hits : list (ChildHit num)) (top_k min_chunks : Z),
  exists groups,
    speaker_groups store hits = Ok groups /\
    (forall sp cs, In (sp, cs) groups ->
       cs <> [] /\
       (forall c, In c cs -> store (chunk_id c) = Some (chunk_metadata c)) /\
       score_of cs =
         Ok (ndiv (py_sum (map similarity cs)) (nsqrt_len (length cs)))) /\
    (exists scored, score_speakers min_chunks groups = Ok scored) /\
    (forall acc, exists filled, backfill top_k groups acc = Ok filled) /\
    (exists out, rank_speakers store hits top_k min_chunks = Ok out).
Proof.
  intros num AR store hits top_k min_chunks.
  exists (groups_of store hits).
  pose proof (groups_of_nodup store hits) as Hnd.
  pose proof (groups_of_nonempty store hits) as Hne.
  split; [apply speaker_groups_spec|]. split; [|split; [|split]].
  - intros sp cs Hin.
    assert (Hcs : cs <> []).
    { rewrite Forall_forall in Hne. apply (Hne _ Hin). }
    split; [exact Hcs|]. split.
    + intros c Hc. apply (groups_of_resolved _ _ _ _ _ Hin Hc).
    + destruct cs; [congruence | reflexivity].
  - rewrite (score_speakers_spec _ _ Hne). eauto.
  - intros acc. rewrite (backfill_spec _ _ Hnd Hne). eauto.
  - apply rank_speakers_total.
Qed.

(** C10. A hit whose metadata has no parent identifier (the key absent or
    its value empty) is skipped: [parent_scores] and [parent_ids], the
    grouping by speaker and the ranking are the same as without the hit,
    and the call returns without raising. *)
Theorem hit_without_parent_is_skipped :
  forall (num : Type) (AR : Arith num) (store : ParentStore)
         (before after : list (ChildHit num)) (h : ChildHit num) (top_k min_chunks : Z),
    hit_parent_id h = None \/ hit_parent_id h = Some "" ->
    collect (before ++ h :: after) = collect (before ++ after) /\
    speaker_groups store (before ++ h :: after) = speaker_groups store (before ++ after) /\
    rank_speakers store (before ++ h :: after) top_k min_chunks =
      rank_speakers store (before ++ after) top_k min_chunks /\
    exists out, rank_speakers store (before ++ h :: after) top_k min_chunks = Ok out.
Proof.
  intros num AR store before after h top_k min_chunks Hh.
  apply parent_of_none in Hh.
  assert (Hc : collect (before ++ h :: after) = collect (before ++ after))
    by (apply collect_skip; exact Hh).
  assert (Hg : speaker_groups store (before ++ h :: after) =
               speaker_groups store (before ++ after))
    by (unfold speaker_groups; rewrite Hc; reflexivity).
  repeat split; try assumption.
  - rewrite !rank_speakers_groups.
    rewrite !speaker_groups_spec in Hg. inversion Hg as [Hg']. rewrite Hg'. reflexivity.
  - apply rank_speakers_total.
Qed.

Lemma hit_without_parent_is_skipped_witness :
  rank_speakers scenario3_store (orphan_hit :: scenario3_hits) 5 1 =
  rank_speakers scenario3_store scenario3_hits 5 1.
Proof.
  exact (proj1 (proj2 (proj2
    (hit_without_parent_is_skipped float FloatArith scenario3_store
       [] scenario3_hits orphan_hit 5 1 (or_introl eq_refl))))).
Defined.

(** C4. Every returned speaker's score is the sum, over the speaker's
    distinct resolved evidence parents, of the best child similarity
    [1 - distance] of the parent, divided by the square root of their
    number.  On example scenario 3 with [min_chunks = 1], speaker A scores
    0.9, speaker B scores 0.6, and A comes first. *)
Theorem speaker_score_formula :
  (forall (num : Type) (AR : Arith num) (store : ParentStore)
          (hits : list (ChildHit num)) (top_k min_chunks : Z),
     exists out,
       rank_speakers store hits top_k min_chunks = Ok out /\
       Forall (fun ctx => score ctx = spec_score store hits (speaker ctx)) out) /\
  child_similarities scenario3_hits "P1" = [0.9; 0.8; 0.7]%float /\
  child_similarities scenario3_hits "P2" = [0.6; 0.5]%float /\
  (exists a b,
     rank_speakers scenario3_store scenario3_hits 5 1 = Ok [a; b] /\
     speaker a = "A" /\ score a = 0.9%float /\
     speaker b = "B" /\ score b = 0.6%float).
Proof.
  split; [|split; [|split]].
  - intros num AR store hits top_k min_chunks.
    destruct (rank_speakers_total store hits top_k min_chunks) as [out Hout].
    exists out. split; [exact Hout|].
    rewrite rank_speakers_groups in Hout.
    apply Forall_forall. intros ctx Hin.
    destruct (rank_groups_in _ _ _ _ (groups_of_nodup store hits)
                (groups_of_nonempty store hits) Hout ctx Hin) as (e & He & ->).
    apply groups_of_score. exact He.
  - vm_compute. reflexivity.
  - vm_compute. reflexivity.
  - eexists. eexists. split; [vm_compute; reflexivity|].
    repeat split.
Qed.

(** C1, as the specification words it, fails: with [top_k = 1] and
    [min_chunks = 3] nobody passes the threshold, speaker X (one parent,
    score 0.9) is backfilled because its parent was seen first, and
    speaker Y (two parents, score 1.6/sqrt 2 > 0.9) is left out. *)
Lemma backfill_is_not_best_first :
  exists groups out,
    speaker_groups backfill_store backfill_hits = Ok groups /\
    rank_speakers backfill_store backfill_hits 1 3 = Ok out /\
    primary_ranking 3 groups = [] /\
    map speaker out = ["X"] /\
    ~ backfilled_best_first 1 3 groups out.
Proof.
  eexists. eexists.
  split; [vm_compute; reflexivity|].
  split; [vm_compute; reflexivity|].
  split; [reflexivity|].
  split; [reflexivity|].
  intros H.
  match type of H with
  | backfilled_best_first _ _ [?x; ?y] _ =>
      specialize (H x y (or_introl eq_refl) (or_intror (or_introl eq_refl))
                    eq_refl eq_refl (or_introl eq_refl))
  end.
  assert (Hout : ~ In "Y" ["X"]) by (intros [E|[]]; discriminate E).
  specialize (H Hout). vm_compute in H. discriminate H.
Qed.

(** C1, amended.  When fewer than [top_k] speakers pass the threshold, the
    speakers below it are appended in the order of the per-speaker grouping
    (the order in which their parents were first seen), as many as bring
    the list to [top_k] or all of them, and the combined list is sorted
    again by descending score. *)
Theorem backfill_appends_in_grouping_order :
  forall (num : Type) (AR : Arith num) (store : ParentStore)
         (hits : list (ChildHit num)) (top_k min_chunks : Z),
    let groups := groups_of store hits in
    let primary := primary_ranking min_chunks groups in
    (Z.of_nat (length primary) < top_k)%Z ->
    speaker_groups store hits = Ok groups /\
    score_speakers min_chunks groups =
      Ok (map context_of (filter (qualifies min_chunks) groups)) /\
    rank_speakers store hits top_k min_chunks =
      Ok (sort_desc score
            (primary ++
             firstn (Z.to_nat (top_k - Z.of_nat (length primary)))
                    (remaining_speakers min_chunks groups))).
Proof.
  intros num AR store hits top_k min_chunks groups primary Hlt.
  pose proof (groups_of_nodup store hits) as Hnd.
  pose proof (groups_of_nonempty store hits) as Hne.
  split; [apply speaker_groups_spec|].
  split; [apply score_speakers_spec; exact Hne|].
  rewrite rank_speakers_groups, (rank_groups_spec _ _ _ Hnd Hne).
  fold groups. fold primary.
  apply Z.ltb_lt in Hlt. rewrite Hlt. f_equal.
  apply Z.ltb_lt in Hlt.
  apply py_slice_to_all.
  rewrite sort_desc_length, length_app, length_firstn. lia.
Qed.

Lemma backfill_appends_in_grouping_order_witness :
  rank_speakers backfill_store backfill_hits 2 3 =
  Ok (sort_desc score
        (primary_ranking 3 (groups_of backfill_store backfill_hits) ++
         firstn (Z.to_nat (2 - Z.of_nat (length
                   (primary_ranking 3 (groups_of backfill_store backfill_hits)))))
                (remaining_speakers 3 (groups_of backfill_store backfill_hits)))).
Proof.
  apply (backfill_appends_in_grouping_order float FloatArith
           backfill_store backfill_hits 2 3).
  vm_compute. reflexivity.
Defined.
(** ** Properties of chunk_turn *)

(** C2, as stated, fails: with the default [max_chars = 1500] and
    [overlap = 200], paragraphs of 1000, 1400 and 1000 characters give a
    second chunk of 200 + 2 + 1400 = 1602 characters, which is no single
    paragraph, and no paragraph exceeds 1500 characters. *)
Lemma seeded_chunk_exceeds_max_chars :
  exists c,
    In c (chunk_turn long_answer 1500 200) /\
    length (tc_text c) = 1602 /\
    ~ within_chunk_bound 1500 (split_paragraphs (turn_text long_answer)) (tc_text c).
Proof.
  exists (make_chunk long_answer
            (repeat "a"%char 200 ++ paragraph_break ++ repeat "b"%char 1400) 1).
  split; [vm_compute; right; left; reflexivity|].
  split; [vm_compute; reflexivity|].
  intros [H|(p & Hp & Hlt & _)].
  - vm_compute in H. apply H. reflexivity.
  - assert (Hall : forallb (fun p => (Z.of_nat (length p) <=? 1500)%Z)
                     (split_paragraphs (turn_text long_answer)) = true)
      by (vm_compute; reflexivity).
    rewrite forallb_forall in Hall. specialize (Hall p Hp).
    apply Z.leb_le in Hall. lia.
Qed.

(** C2, amended.  Every chunk emitted by [chunk_turn] has at most
    [max_chars] characters, or is a single paragraph that alone exceeds
    [max_chars], or consists of the overlap carried from an earlier chunk,
    a blank line and a single paragraph; with a positive [overlap] such a
    chunk has at most [overlap + 2] characters more than that paragraph. *)
Theorem chunk_length_bound :
  forall (turn : Turn) (max_chars overlap : Z) (c : TurnChunk),
    In c (chunk_turn turn max_chars overlap) ->
    seeded_chunk_bound max_chars overlap
      (split_paragraphs (turn_text turn))
      (map tc_text (chunk_turn turn max_chars overlap)) (tc_text c) /\
    ((0 < overlap)%Z ->
     (Z.of_nat (length (tc_text c)) <= max_chars)%Z \/
     exists p, In p (split_paragraphs (turn_text turn)) /\
       (Z.of_nat (length (tc_text c)) <= overlap + 2 + Z.of_nat (length p))%Z).
Proof.
  intros turn max_chars overlap c Hin.
  assert (Hb : seeded_chunk_bound max_chars overlap
                 (split_paragraphs (turn_text turn))
                 (map tc_text (chunk_turn turn max_chars overlap)) (tc_text c)).
  { unfold chunk_turn in *.
    destruct (Z.of_nat (length (turn_text turn)) <=? max_chars)%Z eqn:Efit.
    - apply Z.leb_le in Efit. destruct Hin as [<-|[]]. left. left. exact Efit.
    - pose proof (chunk_loop_bounded turn max_chars overlap
                    (split_paragraphs (turn_text turn))) as [Hall Hcur].
      destruct (chunk_loop turn max_chars overlap (split_paragraphs (turn_text turn)))
        as [[chunks cur] idx].
      simpl in Hall, Hcur.
      destruct (nonempty cur && (100 <=? length cur)%nat) eqn:Elast.
      + apply andb_prop in Elast. destruct Elast as [Ene _].
        apply nonempty_true in Ene. destruct Hcur as [Hcur|Hcur]; [contradiction|].
        rewrite map_app. simpl.
        apply in_app_or in Hin. destruct Hin as [Hin|[<-|[]]].
        * apply seeded_chunk_bound_mono. rewrite Forall_forall in Hall.
          apply Hall. apply in_map. exact Hin.
        * apply seeded_chunk_bound_mono. exact Hcur.
      + rewrite Forall_forall in Hall. apply Hall. apply in_map. exact Hin. }
  split; [exact Hb|]. intros Hov.
  destruct Hb as [[Hle|(p & Hp & _ & E)]|(prev & p & _ & Hp & E)].
  - left. exact Hle.
  - right. exists p. split; [exact Hp|]. rewrite E. lia.
  - right. exists p. split; [exact Hp|]. rewrite E, !length_app. simpl.
    pose proof (overlap_text_length overlap prev Hov). lia.
Qed.

Lemma chunk_length_bound_witness :
  seeded_chunk_bound 1500 200
    (split_paragraphs (turn_text long_answer))
    (map tc_text (chunk_turn long_answer 1500 200))
    (repeat "a"%char 200 ++ paragraph_break ++ repeat "b"%char 1400).
Proof.
  apply (chunk_length_bound long_answer 1500 200
           (make_chunk long_answer
              (repeat "a"%char 200 ++ paragraph_break ++ repeat "b"%char 1400) 1)).
  vm_compute. right. left. reflexivity.
Defined.

(** C3, as stated, fails: with [max_chars = 120] and [overlap = 20], a body
    of two paragraphs of 100 and 60 characters yields the first paragraph
    as the only chunk; the final buffer (82 characters) is dropped. *)
Lemma dropped_tail_is_not_reconstructed :
  map tc_text (chunk_turn short_tail_answer 120 20) = [repeat "a"%char 100] /\
  remove_overlaps 20 (map tc_text (chunk_turn short_tail_answer 120 20))
    <> turn_text short_tail_answer.
Proof.
  split; [vm_compute; reflexivity|].
  intros H. apply (f_equal (@length ascii)) in H. vm_compute in H. discriminate H.
Qed.

(** C3, amended.  For a Turn whose body does not begin with a blank line:
    the sealed chunks followed by the final buffer, with the overlap
    between consecutive chunks removed, reconstruct the body exactly; the
    chunks returned by [chunk_turn] do so when the body fits in [max_chars]
    or the final buffer has at least 100 characters; otherwise, the body
    being longer than [max_chars] and the final buffer shorter than 100
    characters, [chunk_turn] returns the sealed chunks alone: they lack
    exactly that dropped buffer. *)
Theorem chunks_reconstruct_turn :
  forall (turn : Turn) (max_chars overlap : Z),
    starts_with paragraph_break (turn_text turn) = false ->
    remove_overlaps overlap
      (map tc_text (sealed_chunks turn max_chars overlap) ++
       [final_buffer turn max_chars overlap]) = turn_text turn /\
    ((Z.of_nat (length (turn_text turn)) <= max_chars)%Z \/
     100 <= length (final_buffer turn max_chars overlap) ->
     remove_overlaps overlap (map tc_text (chunk_turn turn max_chars overlap)) =
     turn_text turn) /\
    ((max_chars < Z.of_nat (length (turn_text turn)))%Z ->
     length (final_buffer turn max_chars overlap) < 100 ->
     chunk_turn turn max_chars overlap = sealed_chunks turn max_chars overlap).
Proof.
  intros turn max_chars overlap Hstart.
  assert (Hloop : turn_text turn <> [] ->
            chunk_state_reconstructs overlap (split_paragraphs (turn_text turn))
              (chunk_loop turn max_chars overlap (split_paragraphs (turn_text turn)))).
  { intros Hne. destruct (split_paragraphs_head _ Hne Hstart) as (p & ps & E & Hp).
    rewrite E. apply chunk_loop_reconstructs. exact Hp. }
  split; [|split].
  - destruct (turn_text turn) as [|c text] eqn:Etext.
    + unfold sealed_chunks, final_buffer, chunk_loop. rewrite Etext. simpl.
      destruct (2 <=? max_chars)%Z; reflexivity.
    + assert (Hne : c :: text <> []) by discriminate.
      destruct (Hloop Hne) as (_ & _ & Hrec).
      unfold sealed_chunks, final_buffer. rewrite Etext.
      rewrite join_split_paragraphs in Hrec. exact Hrec.
  - intros Hcase. unfold chunk_turn.
    destruct (Z.of_nat (length (turn_text turn)) <=? max_chars)%Z eqn:Efit.
    + simpl. apply app_nil_r.
    + apply Z.leb_gt in Efit. destruct Hcase as [Hfit|Hbuf]; [lia|].
      assert (Hne : turn_text turn <> []).
      { intros E. unfold final_buffer, chunk_loop in Hbuf. rewrite E in Hbuf.
        simpl in Hbuf. destruct (2 <=? max_chars)%Z; simpl in Hbuf; lia. }
      destruct (Hloop Hne) as (Hcur & _ & Hrec).
      unfold final_buffer in Hbuf.
      destruct (chunk_loop turn max_chars overlap (split_paragraphs (turn_text turn)))
        as [[chunks cur] idx].
      simpl in Hcur, Hrec, Hbuf.
      apply nonempty_true in Hcur. rewrite Hcur.
      apply Nat.leb_le in Hbuf. rewrite Hbuf. simpl.
      rewrite map_app. simpl.
      rewrite join_split_paragraphs in Hrec. exact Hrec.
  - intros Hlong Hshort. unfold chunk_turn.
    apply Z.leb_gt in Hlong. rewrite Hlong.
    unfold final_buffer in Hshort. unfold sealed_chunks.
    destruct (chunk_loop turn max_chars overlap (split_paragraphs (turn_text turn)))
      as [[chunks cur] idx].
    simpl in Hshort. cbv beta iota. cbn [fst].
    apply Nat.leb_gt in Hshort. rewrite Hshort, andb_false_r. reflexivity.
Qed.

Lemma chunks_reconstruct_turn_witness :
  remove_overlaps 20
    (map tc_text (sealed_chunks short_tail_answer 120 20) ++
     [final_buffer short_tail_answer 120 20]) = turn_text short_tail_answer /\
  chunk_turn short_tail_answer 120 20 = sealed_chunks short_tail_answer 120 20 /\
  remove_overlaps 200 (map tc_text (chunk_turn two_paragraph_answer 1500 200)) =
  turn_text two_paragraph_answer.
Proof.
  destruct (chunks_reconstruct_turn short_tail_answer 120 20) as (Hall & _ & Hdrop).
  { vm_compute. reflexivity. }
  split; [exact Hall|]. split.
  - apply Hdrop; vm_compute; [reflexivity | lia].
  - apply (chunks_reconstruct_turn two_paragraph_answer 1500 200).
    + vm_compute. reflexivity.
    + right. vm_compute. lia.
Defined.
(** ** Properties of parse_transcript *)

(** C6. Every Turn returned by [parse_transcript] has a body of at least
    100 characters, a speaker that is no host name (whatever the case) and
    no sponsor speaker, a body that contains no sponsor keyword (whatever
    the case), and as preceding question the body of the most recent merged
    host turn before it that is no sponsor read, or the empty string when
    there is none. *)
Theorem guest_turns_are_filtered :
  forall (text source_file : str) (t : Turn),
    In t (parse_transcript text source_file) ->
    guest_turn_invariant text t.
Proof.
  intros text source_file t Hin. unfold parse_transcript in Hin.
  destruct (fst (marker_matches text)) as [|first_match more]; [destruct Hin|].
  destruct (guest_turns_from_spec source_file (merged_turns text)
              (merged_turns_flags text) [] [] t eq_refl Hin)
    as (pre & m & post & E & Hs & Hts & Htx & Hq & Hhost & Hspk & Hcontent & Hlen).
  unfold guest_turn_invariant. rewrite Hs, Htx.
  split; [exact Hlen|]. split; [exact Hhost|]. split; [|split].
  - unfold is_sponsor_speaker in Hspk.
    destruct (rt_speaker m); [reflexivity | exact Hspk].
  - intros kw Hkw. unfold is_sponsor_content in Hcontent.
    destruct (contains kw (lower (rt_text m))) eqn:Ec; [|reflexivity].
    assert (Hx : existsb (fun kw => contains kw (lower (rt_text m))) SPONSOR_KEYWORDS = true)
      by (apply existsb_exists; eauto).
    congruence.
  - exists pre, m, post. repeat split; assumption.
Qed.

Lemma guest_turns_are_filtered_witness :
  guest_turn_invariant interview_text interview_turn.
Proof.
  apply (guest_turns_are_filtered interview_text transcript_name interview_turn).
  vm_compute. left. reflexivity.
Defined.


(** * Further properties of the ranker *)

Section MoreListFacts.

Context {A : Type}.

Lemma filter_partition_length (p : A -> bool) l :
  (length (filter p l) + length (filter (fun x => negb (p x)) l) = length l)%nat.
Proof.
  induction l as [|a l IH]; simpl; [reflexivity|].
  destruct (p a); simpl; lia.
Qed.

Lemma strongly_sorted_firstn (Rel : A -> A -> Prop) n l :
  StronglySorted Rel l -> StronglySorted Rel (firstn n l).
Proof.
  revert l. induction n as [|n IH]; intros l Hs; simpl; [constructor|].
  destruct l as [|a l]; [constructor|].
  inversion Hs as [|? ? Hl Hf]; subst. constructor; [auto|].
  apply Forall_forall. intros x Hx. apply in_firstn in Hx.
  rewrite Forall_forall in Hf. auto.
Qed.

Lemma strongly_sorted_cross (Rel : A -> A -> Prop) l1 l2 :
  StronglySorted Rel (l1 ++ l2) ->
  forall a b, In a l1 -> In b l2 -> Rel a b.
Proof.
  induction l1 as [|x l1 IH]; simpl; intros Hs a b Ha Hb; [destruct Ha|].
  inversion Hs as [|? ? Hl Hf]; subst.
  destruct Ha as [->|Ha]; [|eauto].
  rewrite Forall_forall in Hf. apply Hf, in_or_app. auto.
Qed.

Lemma py_slice_to_split (l : list A) k :
  exists rest, l = py_slice_to l k ++ rest.
Proof.
  destruct (py_slice_to_firstn l k) as (n & ->).
  exists (skipn n l). symmetry. apply firstn_skipn.
Qed.

Lemma py_slice_to_length (l : list A) k :
  (0 <= k)%Z -> length (py_slice_to l k) = Nat.min (Z.to_nat k) (length l).
Proof.
  intros H. unfold py_slice_to.
  destruct (0 <=? k)%Z eqn:E; [apply length_firstn|].
  apply Z.leb_gt in E. lia.
Qed.

Lemma first_seen_filter (p : string -> bool) l :
  first_seen (filter p l) = filter p (first_seen l).
Proof.
  induction l as [|k l IH] using rev_ind; [reflexivity|].
  rewrite filter_app, !first_seen_snoc. simpl.
  destruct (p k) eqn:Ek.
  - rewrite first_seen_snoc, IH.
    destruct (existsb (String.eqb k) (first_seen l)) eqn:E.
    + assert (E' : existsb (String.eqb k) (filter p (first_seen l)) = true).
      { apply existsb_exists in E. destruct E as (x & Hx & Ex).
        apply existsb_exists. exists x. split; [|exact Ex].
        apply String.eqb_eq in Ex. subst x. apply filter_In. auto. }
      rewrite E'. reflexivity.
    + assert (E' : existsb (String.eqb k) (filter p (first_seen l)) = false).
      { destruct (existsb (String.eqb k) (filter p (first_seen l))) eqn:E'; [|reflexivity].
        apply existsb_exists in E'. destruct E' as (x & Hx & Ex).
        apply filter_In in Hx.
        assert (existsb (String.eqb k) (first_seen l) = true)
          by (apply existsb_exists; exists x; tauto).
        congruence. }
      rewrite E', filter_app. simpl. rewrite Ek. reflexivity.
  - rewrite app_nil_r, IH.
    destruct (existsb (String.eqb k) (first_seen l)); [reflexivity|].
    rewrite filter_app. simpl. rewrite Ek, app_nil_r. reflexivity.
Qed.

End MoreListFacts.

Section GroupFilter.

Context {X V : Type} (key : X -> string) (val : X -> V).

Lemma map_key_filter (p : string -> bool) (xs : list X) :
  map key (filter (fun x => p (key x)) xs) = filter p (map key xs).
Proof.
  induction xs as [|x xs IH]; simpl; [reflexivity|].
  destruct (p (key x)); simpl; rewrite IH; reflexivity.
Qed.

Lemma filter_key_filter (p : string -> bool) k (xs : list X) :
  p k = true ->
  filter (fun x => String.eqb (key x) k) (filter (fun x => p (key x)) xs) =
  filter (fun x => String.eqb (key x) k) xs.
Proof.
  intros Hk. induction xs as [|x xs IH]; simpl; [reflexivity|].
  destruct (p (key x)) eqn:Ep; simpl.
  - rewrite IH. reflexivity.
  - destruct (String.eqb (key x) k) eqn:E; [|exact IH].
    apply String.eqb_eq in E. congruence.
Qed.

(** Grouping what is left of a sequence after the elements of some keys
    are taken out gives the grouping without those keys. *)
Lemma group_list_filter (p : string -> bool) (xs : list X) :
  group_list key val (filter (fun x => p (key x)) xs) =
  filter (fun e => p (fst e)) (group_list key val xs).
Proof.
  rewrite !group_list_spec, map_key_filter, first_seen_filter.
  generalize (first_seen (map key xs)). intros ks.
  induction ks as [|k ks IH]; simpl; [reflexivity|].
  destruct (p k) eqn:Ek; simpl; [|exact IH].
  rewrite IH, (filter_key_filter p k xs Ek). reflexivity.
Qed.

End GroupFilter.

Section RankerMoreTheory.

Context {num : Type} {AR : Arith num}.

Lemma parent_hits_resolved store (hits : list (ChildHit num)) :
  parent_hits (filter (hit_resolved store) hits) =
  filter (fun x => in_store store (fst x)) (parent_hits hits).
Proof.
  induction hits as [|h hits IH]; [reflexivity|].
  simpl. unfold hit_resolved at 1, in_store.
  destruct (parent_of h) as [p|] eqn:Ep; simpl.
  - destruct (store p); simpl; [rewrite Ep; simpl; f_equal|]; exact IH.
  - exact IH.
Qed.

Lemma resolved_in_store store (ps : list (string * list num)) :
  resolved store (filter (fun e => in_store store (fst e)) ps) = resolved store ps.
Proof.
  induction ps as [|e ps IH]; [reflexivity|].
  simpl. unfold in_store at 1.
  destruct (store (fst e)) as [d|] eqn:Es; simpl; [rewrite Es; simpl; f_equal|]; exact IH.
Qed.

(** The hits whose parent the collection does not hold leave the grouping
    as it is. *)
Lemma groups_of_resolved_hits store (hits : list (ChildHit num)) :
  groups_of store (filter (hit_resolved store) hits) = groups_of store hits.
Proof.
  unfold groups_of. rewrite parent_hits_resolved.
  rewrite (group_list_filter fst snd (in_store store)), resolved_in_store.
  reflexivity.
Qed.

Lemma rank_speakers_closed store (hits : list (ChildHit num)) top_k min_chunks :
  rank_speakers store hits top_k min_chunks =
  Ok (py_slice_to (full_ranking top_k min_chunks (groups_of store hits)) top_k).
Proof.
  rewrite rank_speakers_groups.
  apply rank_groups_full; [apply groups_of_nodup | apply groups_of_nonempty].
Qed.

Lemma primary_ranking_length min_chunks (g : list (string * list (ChunkData num))) :
  length (primary_ranking min_chunks g) = length (filter (qualifies min_chunks) g).
Proof. unfold primary_ranking. rewrite sort_desc_length, length_map. reflexivity. Qed.

Lemma remaining_speakers_length min_chunks (g : list (string * list (ChunkData num))) :
  length (remaining_speakers min_chunks g) =
  length (filter (fun e => negb (qualifies min_chunks e)) g).
Proof. unfold remaining_speakers. apply length_map. Qed.

Lemma full_ranking_length top_k min_chunks (g : list (string * list (ChunkData num))) :
  (0 <= top_k)%Z ->
  length (py_slice_to (full_ranking top_k min_chunks g) top_k) =
  Nat.min (Z.to_nat top_k) (length g).
Proof.
  intros Hk. rewrite (py_slice_to_length _ _ Hk).
  pose proof (filter_partition_length (qualifies min_chunks) g) as Hlen.
  rewrite <- primary_ranking_length, <- remaining_speakers_length in Hlen.
  unfold full_ranking.
  destruct (Z.of_nat (length (primary_ranking min_chunks g)) <? top_k)%Z eqn:E.
  - apply Z.ltb_lt in E.
    rewrite sort_desc_length, length_app, length_firstn. lia.
  - apply Z.ltb_ge in E. lia.
Qed.

(** The chunks filed under a speaker are the evidence records of the
    speaker's evidence parents, in their order. *)
Lemma resolved_records store (hits : list (ChildHit num)) sp (P : list string) :
  Forall2 (evidence_record store hits)
    (filter (fun p => match store p with
                      | Some d => String.eqb (speaker_of d) sp
                      | None => false
                      end) P)
    (map snd (filter (fun x => String.eqb (fst x) sp)
       (resolved store
          (map (fun k => (k, map snd (filter (fun x => String.eqb (fst x) k) (parent_hits hits)))) P)))).
Proof.
  induction P as [|p P IH]; [constructor|].
  simpl. destruct (store p) as [d|] eqn:Es; simpl; [|exact IH].
  destruct (String.eqb (speaker_of d) sp); simpl; [|exact IH].
  constructor; [|exact IH].
  unfold evidence_record. simpl. rewrite Es. repeat split; reflexivity.
Qed.

Lemma groups_of_records store (hits : list (ChildHit num)) sp cs :
  In (sp, cs) (groups_of store hits) ->
  Forall2 (evidence_record store hits) (evidence_parents store hits sp) cs.
Proof.
  intros H. unfold groups_of in H. apply group_list_in in H. subst cs.
  rewrite group_list_spec. apply resolved_records.
Qed.

Lemma groups_of_in_nonempty store (hits : list (ChildHit num)) e :
  In e (groups_of store hits) -> snd e <> [].
Proof.
  intros H. pose proof (groups_of_nonempty store hits) as Hne.
  rewrite Forall_forall in Hne. auto.
Qed.

(** Every returned context is the context of a speaker of the grouping. *)
Lemma rank_speakers_in store (hits : list (ChildHit num)) top_k min_chunks out ctx :
  rank_speakers store hits top_k min_chunks = Ok out -> In ctx out ->
  exists e, In e (groups_of store hits) /\ ctx = context_of e.
Proof.
  rewrite rank_speakers_groups. intros H.
  apply (rank_groups_in _ _ _ _ (groups_of_nodup store hits) (groups_of_nonempty store hits) H).
Qed.

End RankerMoreTheory.

Section MaxSimilarity.

Context {num : Type} {AR : Arith num}.

Lemma fold_max_in (xs : list num) x :
  In (fold_left (fun m y => if nltb m y then y else m) xs x) (x :: xs).
Proof.
  revert x. induction xs as [|y ys IH]; intros x; simpl; [auto|].
  destruct (nltb x y).
  - right. apply IH.
  - destruct (IH x) as [H|H]; [left; exact H | right; right; exact H].
Qed.

Lemma max_similarity_in (l : list num) : l <> [] -> In (max_similarity l) l.
Proof. destruct l as [|x xs]; [congruence|]. intros _. apply fold_max_in. Qed.

Lemma parent_hits_in (hits : list (ChildHit num)) x :
  In x (parent_hits hits) ->
  exists h, In h hits /\ snd x = one_minus (hit_distance h).
Proof.
  unfold parent_hits. rewrite in_flat_map. intros (h & Hh & Hx).
  destruct (parent_of h); [|destruct Hx].
  destruct Hx as [<-|[]]. exists h. split; [exact Hh | reflexivity].
Qed.

(** The similarity of an evidence record is the similarity of one of the
    hits. *)
Lemma groups_of_chunk_similarity store (hits : list (ChildHit num)) sp cs c :
  In (sp, cs) (groups_of store hits) -> In c cs ->
  exists h, In h hits /\ similarity c = one_minus (hit_distance h).
Proof.
  intros H Hc. unfold groups_of in H. apply group_list_in in H. subst cs.
  apply in_map_iff in Hc. destruct Hc as ([sp' c'] & Ec & Hin). simpl in Ec. subst c'.
  apply filter_In in Hin. destruct Hin as [Hin _].
  unfold resolved in Hin. apply in_flat_map in Hin. destruct Hin as (e & He & Hin).
  destruct (store (fst e)) as [d|]; [|destruct Hin].
  destruct Hin as [Hin|[]]. inversion Hin; subst. simpl.
  pose proof (group_list_nonempty fst snd (parent_hits hits)) as Hne.
  rewrite Forall_forall in Hne. specialize (Hne e He).
  pose proof (max_similarity_in (snd e) Hne) as Hmax.
  destruct e as [p sims]. simpl in *.
  apply group_list_in in He. rewrite He in Hmax.
  apply in_map_iff in Hmax. destruct Hmax as (x & Ex & Hx).
  apply filter_In in Hx. destruct Hx as [Hx _].
  destruct (parent_hits_in hits x Hx) as (h & Hh & E).
  exists h. split; [exact Hh|]. rewrite He, <- Ex. exact E.
Qed.

End MaxSimilarity.

(** * Further properties of the parser *)

Section MergeTheory.

Lemma str_eqb_eq a b : str_eqb a b = true <-> a = b.
Proof.
  revert b. induction a as [|x a IH]; intros [|y b]; simpl; split; try congruence.
  - intros H. apply andb_true_iff in H. destruct H as [Hx Ha].
    apply Ascii.eqb_eq in Hx. apply IH in Ha. congruence.
  - intros H. inversion H; subst. rewrite Ascii.eqb_refl. simpl. apply IH. reflexivity.
Qed.

Lemma str_eqb_neq a b : str_eqb a b = false <-> a <> b.
Proof.
  rewrite <- str_eqb_eq. destruct (str_eqb a b); intuition congruence.
Qed.

Lemma adjacent_distinct_snoc l a :
  adjacent_distinct (l ++ [a]) <->
  adjacent_distinct l /\
  match rev l with
  | b :: _ => rt_speaker b <> rt_speaker a
  | [] => True
  end.
Proof.
  induction l as [|x l IH]; [simpl; tauto|].
  change ((x :: l) ++ [a]) with (x :: (l ++ [a])).
  destruct l as [|y l].
  - simpl. tauto.
  - change (adjacent_distinct (x :: (y :: l) ++ [a]))
      with (rt_speaker x <> rt_speaker y /\ adjacent_distinct ((y :: l) ++ [a])).
    change (adjacent_distinct (x :: y :: l))
      with (rt_speaker x <> rt_speaker y /\ adjacent_distinct (y :: l)).
    rewrite IH.
    assert (E : forall d, match rev (x :: y :: l) with b :: _ => rt_speaker b <> d | [] => True end
                          <-> match rev (y :: l) with b :: _ => rt_speaker b <> d | [] => True end).
    { intros d. change (rev (x :: y :: l)) with (rev (y :: l) ++ [x]).
      destruct (rev (y :: l)) eqn:Er; [|simpl; tauto].
      apply (f_equal (@length _)) in Er. rewrite length_rev in Er. discriminate Er. }
    rewrite E. tauto.
Qed.

(** The merged list, with the turns merged so far last first. *)
Lemma merge_into_distinct merged turns :
  adjacent_distinct (rev merged) -> adjacent_distinct (merge_into merged turns).
Proof.
  revert merged. induction turns as [|t rest IH]; intros merged Hm; simpl; [exact Hm|].
  destruct merged as [|last before].
  - apply IH. simpl. tauto.
  - destruct (str_eqb (rt_speaker last) (rt_speaker t)) eqn:E.
    + apply IH. simpl in Hm |- *. apply adjacent_distinct_snoc in Hm.
      apply adjacent_distinct_snoc. exact Hm.
    + apply IH. apply str_eqb_neq in E.
      change (rev (t :: last :: before)) with (rev (last :: before) ++ [t]).
      apply adjacent_distinct_snoc. split; [exact Hm|].
      rewrite rev_involutive. exact E.
Qed.

Lemma merge_into_fixed merged turns :
  adjacent_distinct (rev merged ++ turns) ->
  merge_into merged turns = rev merged ++ turns.
Proof.
  revert merged. induction turns as [|t rest IH]; intros merged Hm; simpl.
  - rewrite app_nil_r. reflexivity.
  - assert (Hm' : adjacent_distinct (rev (t :: merged) ++ rest)).
    { simpl. rewrite <- app_assoc. exact Hm. }
    assert (Hkeep : merge_into (t :: merged) rest = rev merged ++ t :: rest).
    { rewrite (IH _ Hm'). simpl. rewrite <- app_assoc. reflexivity. }
    destruct merged as [|last before]; [exact Hkeep|].
    destruct (str_eqb (rt_speaker last) (rt_speaker t)) eqn:E; [|exact Hkeep].
    exfalso. apply str_eqb_eq in E.
    simpl in Hm. rewrite <- app_assoc in Hm. simpl in Hm.
    clear -Hm E. induction (rev before) as [|x l IHl].
    + simpl in Hm. tauto.
    + apply IHl. destruct Hm as [_ Hm]. exact Hm.
Qed.

Lemma join_paragraphs_merge pre a b post :
  join_paragraphs (pre ++ (a ++ paragraph_break ++ b) :: post) =
  join_paragraphs (pre ++ a :: b :: post).
Proof.
  induction pre as [|p pre IH].
  - simpl app. destruct post as [|q post].
    + reflexivity.
    + rewrite !join_paragraphs_cons by discriminate.
      rewrite <- !app_assoc. reflexivity.
  - change (join_paragraphs (p :: (pre ++ (a ++ paragraph_break ++ b) :: post)) =
            join_paragraphs (p :: (pre ++ a :: b :: post))).
    rewrite !join_paragraphs_cons by (destruct pre; discriminate).
    rewrite IH. reflexivity.
Qed.

Lemma merge_into_text merged turns :
  join_paragraphs (map rt_text (merge_into merged turns)) =
  join_paragraphs (map rt_text (rev merged ++ turns)).
Proof.
  revert merged. induction turns as [|t rest IH]; intros merged; simpl.
  - rewrite app_nil_r. reflexivity.
  - assert (Hkeep : join_paragraphs (map rt_text (merge_into (t :: merged) rest)) =
                    join_paragraphs (map rt_text (rev merged ++ t :: rest))).
    { rewrite IH. simpl. rewrite <- app_assoc. reflexivity. }
    destruct merged as [|last before]; [exact Hkeep|].
    destruct (str_eqb (rt_speaker last) (rt_speaker t)); [|exact Hkeep].
    rewrite IH. simpl. rewrite <- !app_assoc, !map_app. simpl.
    apply join_paragraphs_merge.
Qed.

End MergeTheory.

Section SpeakerTheory.

Lemma normalize_speaker_name_lower raw :
  lower (normalize_speaker_name raw) = lower (strip raw).
Proof.
  unfold normalize_speaker_name. cbv zeta.
  destruct (isupper (strip raw)); [apply title_from_lower | reflexivity].
Qed.

Lemma normalize_speaker_name_length raw :
  length (normalize_speaker_name raw) = length (strip raw).
Proof.
  unfold normalize_speaker_name. cbv zeta.
  destruct (isupper (strip raw)); [apply title_from_length | reflexivity].
Qed.

(** A name that passes the validation is plausible once normalised. *)
Lemma valid_name_plausible raw :
  is_valid_speaker_name raw = true -> plausible_name (normalize_speaker_name raw).
Proof.
  unfold is_valid_speaker_name, plausible_name. cbv zeta.
  rewrite normalize_speaker_name_lower, normalize_speaker_name_length.
  destruct (strip raw) as [|c nc] eqn:Es; [discriminate|].
  destruct (5 <? length (split_ws (lower (c :: nc))))%nat eqn:E5; [discriminate|].
  destruct (length (c :: nc) <? 3)%nat eqn:E3; [discriminate|].
  match goal with |- (if ?b then _ else _) = _ -> _ => destruct b; [discriminate|] end.
  match goal with |- (if ?b then _ else _) = _ -> _ => destruct b eqn:Ew; [discriminate|] end.
  intros _.
  split; [apply Nat.ltb_ge in E3; exact E3|].
  split; [apply Nat.ltb_ge in E5; exact E5|].
  intros word Hword.
  destruct (mem (rstrip_chars word_punctuation word) SENTENCE_INDICATORS) eqn:Em;
    [|reflexivity].
  assert (Hex : existsb (fun word =>
                   mem (rstrip_chars (fun c => is_char "." c || is_char "," c ||
                                               is_char "!" c || is_char "?" c) word)
                       SENTENCE_INDICATORS) (split_ws (lower (c :: nc))) = true).
  { apply existsb_exists. exists word. split; [exact Hword | exact Em]. }
  rewrite Hex in Ew. discriminate Ew.
Qed.

Lemma insert_by_start_forall (P : Marker -> Prop) x l :
  P x -> Forall P l -> Forall P (insert_by_start x l).
Proof.
  intros Hx. induction 1 as [|y ys Hy Hys IH]; simpl; [repeat constructor; exact Hx|].
  destruct (mk_start y <? mk_start x)%nat; repeat constructor; assumption.
Qed.

Lemma sort_by_start_forall (P : Marker -> Prop) l :
  Forall P l -> Forall P (sort_by_start l).
Proof.
  induction 1 as [|x xs Hx Hxs IH]; simpl; [constructor|].
  apply insert_by_start_forall; assumption.
Qed.

Lemma all_markers_ok text : Forall (marker_ok text) (all_markers text).
Proof.
  unfold all_markers.
  destruct (marker_matches text) as [speaker_matches timestamp_matches] eqn:E.
  apply sort_by_start_forall, Forall_app. split; apply Forall_forall; intros mk Hmk;
    apply in_map_iff in Hmk; destruct Hmk as (m & <- & Hm).
  - unfold marker_ok, speaker_match_marker.
    destruct (is_valid_speaker_name (m_group1 m)) eqn:Ev; simpl; [|exact I].
    eexists. split; [reflexivity|]. right. exists m. rewrite E. auto.
  - exact I.
Qed.

Lemma raw_turns_from_origin text text' cur markers :
  Forall (marker_ok text) markers ->
  (forall s, cur = Some s -> speaker_origin text s) ->
  Forall (fun t => speaker_origin text (rt_speaker t)) (raw_turns_from text' cur markers).
Proof.
  intros Hm. revert cur. induction Hm as [|m rest Hmk Hrest IH]; intros cur Hcur; simpl.
  - constructor.
  - unfold marker_ok in Hmk. destruct (mk_type m).
    + destruct Hmk as (s & Es & Hs). rewrite Es.
      constructor; [exact Hs|]. apply IH. intros s' E'. inversion E'; subst. exact Hs.
    + constructor; [|apply IH; exact Hcur].
      simpl. destruct cur as [[|c s]|]; [left; reflexivity | | left; reflexivity].
      apply Hcur. reflexivity.
Qed.

Lemma merge_into_speakers (P : str -> Prop) merged turns :
  Forall (fun t => P (rt_speaker t)) merged ->
  Forall (fun t => P (rt_speaker t)) turns ->
  Forall (fun t => P (rt_speaker t)) (merge_into merged turns).
Proof.
  revert merged. induction turns as [|t rest IH]; intros merged Hm Ht; simpl.
  - apply Forall_rev. exact Hm.
  - inversion Ht as [|? ? Hthis Hrest]; subst.
    destruct merged as [|last before].
    + apply IH; [constructor; [exact Hthis | constructor] | exact Hrest].
    + inversion Hm as [|? ? Hlast Hbefore]; subst.
      destruct (str_eqb (rt_speaker last) (rt_speaker t)).
      * apply IH; [|exact Hrest]. constructor; [exact Hlast | exact Hbefore].
      * apply IH; [|exact Hrest]. constructor; [exact Hthis | exact Hm].
Qed.

(** Every speaker of the merged turns comes from a validated marker of
    the transcript, or is the default host. *)
Lemma merged_turns_origin text :
  Forall (fun t => speaker_origin text (rt_speaker t)) (merged_turns text).
Proof.
  unfold merged_turns, merge_turns, raw_turns.
  apply (merge_into_speakers (speaker_origin text)); [constructor|].
  apply raw_turns_from_origin; [apply all_markers_ok | discriminate].
Qed.

Lemma guest_turns_from_source source_file q turns :
  Forall (fun t => turn_source_file t = source_file)
         (guest_turns_from source_file q turns).
Proof.
  revert q. induction turns as [|m rest IH]; intros q; [constructor|].
  rewrite guest_turns_from_cons.
  repeat match goal with
         | |- Forall _ (if ?b then _ else _) => destruct b
         end; try apply IH.
  constructor; [reflexivity | apply IH].
Qed.

(** What [parse_transcript] returns comes from the merged turns. *)
Lemma parse_transcript_in text source_file t :
  In t (parse_transcript text source_file) ->
  exists before m after,
    merged_turns text = before ++ m :: after /\
    turn_speaker t = rt_speaker m /\
    turn_timestamp t = rt_timestamp m /\
    turn_text t = rt_text m /\
    turn_preceding_question t = most_recent_host_question before /\
    is_host (rt_speaker m) = false /\
    is_sponsor_speaker (rt_speaker m) = false /\
    is_sponsor_content (rt_text m) = false /\
    100 <= length (rt_text m).
Proof.
  unfold parse_transcript. intros Hin.
  destruct (fst (marker_matches text)); [destruct Hin|].
  exact (guest_turns_from_spec source_file (merged_turns text) (merged_turns_flags text)
           [] [] t eq_refl Hin).
Qed.

Lemma parse_transcript_source text source_file :
  Forall (fun t => turn_source_file t = source_file) (parse_transcript text source_file).
Proof.
  unfold parse_transcript.
  destruct (fst (marker_matches text)); [constructor | apply guest_turns_from_source].
Qed.

(** A one-word name with a part among the interjections is no name. *)
Lemma single_word_invalid raw w :
  split_ws (lower (strip raw)) = [w] ->
  existsb (fun part => mem part SINGLE_WORD_NON_NAMES)
          (split_char "-" (rstrip_chars (is_char ".") w)) = true ->
  is_valid_speaker_name raw = false.
Proof.
  unfold is_valid_speaker_name. cbv zeta. intros Hw Hn. rewrite Hw.
  destruct (strip raw) as [|c nc]; [reflexivity|].
  destruct (5 <? length [w])%nat; [reflexivity|].
  destruct (length (c :: nc) <? 3)%nat; [reflexivity|].
  change (hd [] [w]) with w. rewrite Hn. reflexivity.
Qed.

Lemma sponsor_speaker_mem s :
  is_sponsor_speaker s = true -> In (lower s) SPONSOR_SPEAKERS.
Proof.
  unfold is_sponsor_speaker, mem. intros H.
  assert (H' : existsb (str_eqb (lower s)) SPONSOR_SPEAKERS = true).
  { destruct s; [discriminate H | exact H]. }
  apply existsb_exists in H'. destruct H' as (x & Hx & Ex).
  apply str_eqb_eq in Ex. subst x. exact Hx.
Qed.

(** Of the three sponsor labels only one can be the speaker of a turn:
    the other two fail the validation of names. *)
Lemma origin_sponsor_speaker text s :
  speaker_origin text s -> is_sponsor_speaker s = true -> lower s = lit "sponsor".
Proof.
  intros [->|(m & _ & Hv & ->)] Hs; [discriminate Hs|].
  apply sponsor_speaker_mem in Hs. rewrite normalize_speaker_name_lower in Hs.
  destruct Hs as [E|[E|[E|[]]]].
  - exfalso. rewrite (single_word_invalid (m_group1 m) (lit "advertisement")) in Hv;
      [discriminate Hv | rewrite <- E; reflexivity | reflexivity].
  - exfalso. apply valid_name_plausible in Hv. destruct Hv as [Hlen _].
    rewrite normalize_speaker_name_length in Hlen.
    rewrite <- (length_map to_lower) in Hlen. fold (lower (strip (m_group1 m))) in Hlen.
    rewrite <- E in Hlen. vm_compute in Hlen. lia.
  - rewrite normalize_speaker_name_lower. symmetry. exact E.
Qed.

End SpeakerTheory.

Section SponsorTheory.

Lemma starts_with_app kw s q :
  starts_with kw s = true -> starts_with kw (s ++ q) = true.
Proof.
  revert s. induction kw as [|x kw IH]; intros s; [reflexivity|].
  destruct s as [|y s]; simpl; [discriminate|].
  intros H. apply andb_true_iff in H. destruct H as [-> H]. simpl. apply IH, H.
Qed.

Lemma contains_cons kw c s :
  contains kw (c :: s) = starts_with kw (c :: s) || contains kw s.
Proof. reflexivity. Qed.

Lemma contains_app_r kw s q :
  contains kw s = true -> contains kw (s ++ q) = true.
Proof.
  induction s as [|c s IH]; intros H.
  - destruct kw; [destruct q; reflexivity | discriminate H].
  - rewrite contains_cons in H. change ((c :: s) ++ q) with (c :: (s ++ q)).
    rewrite contains_cons. apply orb_true_iff in H. apply orb_true_iff.
    destruct H as [H|H]; [left; apply (starts_with_app kw (c :: s) q H) | right; auto].
Qed.

Lemma contains_app_l kw p s :
  contains kw s = true -> contains kw (p ++ s) = true.
Proof.
  intros H. induction p as [|c p IH]; [exact H|].
  change ((c :: p) ++ s) with (c :: (p ++ s)).
  rewrite contains_cons, IH. apply orb_true_r.
Qed.

Lemma is_sponsor_content_app before text after :
  is_sponsor_content text = true ->
  is_sponsor_content (before ++ text ++ after) = true.
Proof.
  unfold is_sponsor_content. rewrite !existsb_exists.
  intros (kw & Hkw & H). exists kw. split; [exact Hkw|].
  unfold lower. rewrite !map_app. apply contains_app_l, contains_app_r. exact H.
Qed.

End SponsorTheory.

Section NoColon.

Lemma speaker_no_timestamp_colon_free s :
  colon_free s -> SPEAKER_NO_TIMESTAMP_PATTERN s = None.
Proof.
  intros Hs. unfold SPEAKER_NO_TIMESTAMP_PATTERN.
  rewrite flat_map_nil; [reflexivity|]. intros [c0 r0] H0.
  apply rx_char_in in H0. destruct H0 as [-> _]. apply colon_free_cons in Hs.
  apply flat_map_nil. intros [name r1] H1.
  apply rx_rep1_in in H1. simpl in H1. subst r0. apply colon_free_app in Hs.
  simpl. destruct r1 as [|c r1]; [reflexivity|]. simpl.
  rewrite (colon_free_head _ _ Hs). reflexivity.
Qed.

Lemma marker_matches_colon_free text :
  colon_free text -> marker_matches text = ([], []).
Proof.
  intros H. unfold marker_matches, finditer.
  rewrite (finditer_from_colon_free _ _ _ _ speaker_with_timestamp_colon_free H).
  rewrite (finditer_from_colon_free _ _ _ _ speaker_no_timestamp_colon_free H).
  reflexivity.
Qed.

End NoColon.

Section NameShape.

Ltac each_char c := destruct c as [[] [] [] [] [] [] [] []]; vm_compute.

Lemma upper_is_name_char c : is_upper c = true -> is_name_char c = true.
Proof. each_char c; intros H; first [reflexivity | discriminate H]. Qed.

Lemma to_lower_name_char c : is_name_char c = true -> is_name_char (to_lower c) = true.
Proof. each_char c; intros H; first [reflexivity | discriminate H]. Qed.

Lemma to_upper_name_char c : is_name_char c = true -> is_name_char (to_upper c) = true.
Proof. each_char c; intros H; first [reflexivity | discriminate H]. Qed.

Lemma rx_upto_forallb p n s m r :
  In (m, r) (rx_upto p n s) -> forallb p m = true /\ length m <= n.
Proof.
  revert s m r. induction n as [|n IH]; intros s m r.
  - destruct s; simpl; intros [H|[]]; inversion H; auto.
  - destruct s as [|c s]; simpl; [intros [H|[]]; inversion H; simpl; split; [auto|lia]|].
    destruct (p c) eqn:E.
    + intros H. apply in_app_or in H. destruct H as [H|[H|[]]].
      * apply in_map_iff in H. destruct H as ([m' r'] & E' & H). inversion E'; subst.
        destruct (IH _ _ _ H) as [H1 H2]. simpl. rewrite E, H1. split; [reflexivity|lia].
      * inversion H; subst. simpl. split; [auto|lia].
    + intros [H|[]]. inversion H; subst. simpl. split; [auto|lia].
Qed.

Lemma rx_rep1_forallb p n s m r :
  In (m, r) (rx_rep1 p n s) -> forallb p m = true /\ 1 <= length m <= S (n - 1).
Proof.
  unfold rx_rep1. intros H. apply in_flat_map in H. destruct H as ([c r0] & Hc & H).
  apply rx_char_in in Hc. destruct Hc as [-> Hp].
  apply in_map_iff in H. destruct H as ([m' r'] & E & H). inversion E; subst.
  destruct (rx_upto_forallb _ _ _ _ _ H) as [H1 H2]. simpl in *.
  rewrite Hp, H1. split; [reflexivity | lia].
Qed.

Lemma rx_close_group consumed g1 g2 rest x :
  In x (rx_close consumed g1 g2 rest) -> fst (fst x) = g1.
Proof.
  unfold rx_close. intros H.
  apply in_flat_map in H. destruct H as (c1 & _ & H).
  apply in_flat_map in H. destruct H as (c2 & _ & H).
  apply in_flat_map in H. destruct H as (w & _ & H).
  destruct (at_eol (snd w)); [|destruct H].
  destruct H as [<-|[]]. reflexivity.
Qed.

Lemma hd_error_in {A : Type} (l : list A) x : hd_error l = Some x -> In x l.
Proof. destruct l; simpl; [discriminate|]. intros H. inversion H. auto. Qed.

Lemma speaker_with_timestamp_name s x :
  SPEAKER_WITH_TIMESTAMP_PATTERN s = Some x -> name_shape (fst (fst x)).
Proof.
  unfold SPEAKER_WITH_TIMESTAMP_PATTERN. intros H. apply hd_error_in in H.
  apply in_flat_map in H. destruct H as ([c0 r0] & H0 & H).
  apply rx_char_in in H0. destruct H0 as [_ Hup].
  apply in_flat_map in H. destruct H as ([name r1] & H1 & H).
  apply rx_rep1_forallb in H1. simpl in H1.
  apply in_flat_map in H. destruct H as (w & _ & H).
  apply in_flat_map in H. destruct H as (par & _ & H).
  apply in_flat_map in H. destruct H as (ts & _ & H).
  apply rx_close_group in H. rewrite H. simpl.
  exists c0, name. repeat split; try tauto; lia.
Qed.

Lemma speaker_no_timestamp_name s x :
  SPEAKER_NO_TIMESTAMP_PATTERN s = Some x -> name_shape (fst (fst x)).
Proof.
  unfold SPEAKER_NO_TIMESTAMP_PATTERN. intros H. apply hd_error_in in H.
  apply in_flat_map in H. destruct H as ([c0 r0] & H0 & H).
  apply rx_char_in in H0. destruct H0 as [_ Hup].
  apply in_flat_map in H. destruct H as ([name r1] & H1 & H).
  apply rx_rep1_forallb in H1. simpl in H1.
  apply in_flat_map in H. destruct H as (c2 & _ & H).
  apply in_flat_map in H. destruct H as (w & _ & H).
  destruct (at_eol (snd w)); [|destruct H].
  destruct H as [<-|[]]. simpl.
  exists c0, name. repeat split; try tauto; lia.
Qed.

Lemma finditer_from_group (P : str -> Prop) (rx : str -> option RxMatch) s pos bol skip :
  (forall s' x, rx s' = Some x -> P (fst (fst x))) ->
  Forall (fun m => P (m_group1 m)) (finditer_from rx s pos bol skip).
Proof.
  intros Hrx. revert pos bol skip.
  induction s as [|c s IH]; intros pos bol skip; simpl; [constructor|].
  destruct skip as [|k]; [|apply IH].
  destruct (if bol then rx (c :: s) else None) as [[[g1 g2] len]|] eqn:E; [|apply IH].
  constructor; [|apply IH]. simpl.
  destruct bol; [|discriminate E]. apply (Hrx _ _ E).
Qed.

Lemma marker_matches_names text :
  Forall (fun m => name_shape (m_group1 m)) (fst (marker_matches text)).
Proof.
  unfold marker_matches, finditer.
  pose proof (finditer_from_group name_shape SPEAKER_WITH_TIMESTAMP_PATTERN text 0 true 0
                speaker_with_timestamp_name) as H1.
  destruct (finditer_from SPEAKER_WITH_TIMESTAMP_PATTERN text 0 true 0); [|exact H1].
  apply finditer_from_group. exact speaker_no_timestamp_name.
Qed.

End NameShape.

Section StripTheory.

Ltac each_char c := destruct c as [[] [] [] [] [] [] [] []]; vm_compute.

Lemma upper_not_space c : is_upper c = true -> is_space c = false.
Proof. each_char c; intros H; first [reflexivity | discriminate H]. Qed.

Lemma to_upper_upper c : is_upper c = true -> to_upper c = c.
Proof. each_char c; intros H; first [reflexivity | discriminate H]. Qed.

Lemma upper_is_alpha c : is_upper c = true -> is_alpha c = true.
Proof. unfold is_alpha. intros ->. reflexivity. Qed.

Lemma drop_while_snoc_stop p l c :
  p c = false -> drop_while p (l ++ [c]) = drop_while p l ++ [c].
Proof.
  intros Hc. induction l as [|x l IH]; simpl; [rewrite Hc; reflexivity|].
  destruct (p x); [exact IH | reflexivity].
Qed.

Lemma rstrip_chars_cons p c s :
  p c = false -> rstrip_chars p (c :: s) = c :: rstrip_chars p s.
Proof.
  intros Hc. unfold rstrip_chars. simpl.
  rewrite (drop_while_snoc_stop p _ c Hc), rev_app_distr. reflexivity.
Qed.

Lemma drop_while_in p s x : In x (drop_while p s) -> In x s.
Proof.
  induction s as [|c s IH]; simpl; [tauto|].
  destruct (p c); [auto | simpl; tauto].
Qed.

Lemma rstrip_chars_in p s x : In x (rstrip_chars p s) -> In x s.
Proof.
  unfold rstrip_chars. rewrite <- in_rev. intros H.
  apply drop_while_in in H. apply in_rev. exact H.
Qed.

Lemma rstrip_chars_length p s : length (rstrip_chars p s) <= length s.
Proof.
  unfold rstrip_chars. rewrite length_rev.
  pose proof (drop_while_length p (rev s)) as H. rewrite length_rev in H. exact H.
Qed.

Lemma strip_head c s : is_space c = false -> strip (c :: s) = c :: rstrip s.
Proof.
  intros Hc. unfold strip, lstrip. simpl. rewrite Hc.
  apply rstrip_chars_cons. exact Hc.
Qed.

Lemma title_from_name_chars prev s :
  forallb is_name_char s = true -> forallb is_name_char (title_from prev s) = true.
Proof.
  revert prev. induction s as [|c s IH]; intros prev; simpl; [reflexivity|].
  intros H. apply andb_true_iff in H. destruct H as [Hc Hs].
  rewrite (IH _ Hs), andb_true_r.
  destruct (is_alpha c); [|exact Hc].
  destruct prev; [apply to_lower_name_char | apply to_upper_name_char]; exact Hc.
Qed.

(** The normalised form of a captured name keeps its shape. *)
Lemma normalize_speaker_name_shape raw :
  name_shape raw -> speaker_shape (normalize_speaker_name raw).
Proof.
  intros (c & name & -> & Hup & Hname & Hlen).
  unfold normalize_speaker_name. cbv zeta.
  rewrite (strip_head c name (upper_not_space c Hup)).
  assert (Hr : forallb is_name_char (rstrip name) = true).
  { apply forallb_forall. intros x Hx. apply rstrip_chars_in in Hx.
    rewrite forallb_forall in Hname. auto. }
  pose proof (rstrip_chars_length is_space name) as Hl. fold (rstrip name) in Hl.
  destruct (isupper (c :: rstrip name)).
  - unfold title. simpl. rewrite (upper_is_alpha c Hup), (to_upper_upper c Hup).
    exists c, (title_from true (rstrip name)).
    rewrite title_from_length.
    repeat split; [exact Hup | apply title_from_name_chars; exact Hr | lia].
  - exists c, (rstrip name). repeat split; [exact Hup | exact Hr | lia].
Qed.

End StripTheory.

Section ChunkIndices.

Variables (turn : Turn) (max_chars overlap : Z).

Lemma chunk_state_indexed_seal chunks cur :
  cur <> [] ->
  chunk_state_indexed turn (chunks, [], length chunks) ->
  forall cur',
  chunk_state_indexed turn
    (chunks ++ [make_chunk turn cur (length chunks)], cur', S (length chunks)).
Proof.
  intros Hcur (_ & Hidx & Hall) cur'. unfold chunk_state_indexed. simpl in *.
  rewrite length_app, map_app, Hidx. simpl.
  split; [lia|]. split.
  - rewrite Nat.add_1_r, seq_S. reflexivity.
  - apply Forall_app. split; [exact Hall|].
    constructor; [|constructor]. split; [reflexivity | exact Hcur].
Qed.

Lemma chunk_step_indexed st para :
  chunk_state_indexed turn st ->
  chunk_state_indexed turn (chunk_step turn max_chars overlap st para).
Proof.
  destruct st as [[chunks cur] idx]. intros H.
  assert (Hkeep : forall cur', chunk_state_indexed turn (chunks, cur', idx)).
  { intros cur'. exact H. }
  unfold chunk_step.
  destruct (Z.of_nat (length cur) + Z.of_nat (length para) + 2 <=? max_chars)%Z.
  - destruct (nonempty cur); apply Hkeep.
  - destruct (nonempty cur) eqn:En; [|apply Hkeep].
    apply nonempty_true in En.
    destruct H as (Ei & H). simpl in Ei. subst idx.
    apply chunk_state_indexed_seal; [exact En|].
    split; [reflexivity | exact H].
Qed.

Lemma chunk_loop_indexed paragraphs :
  chunk_state_indexed turn (chunk_loop turn max_chars overlap paragraphs).
Proof.
  unfold chunk_loop.
  assert (H : chunk_state_indexed turn ([], [], 0)).
  { split; [reflexivity|]. split; [reflexivity | constructor]. }
  revert H. generalize (@nil TurnChunk, @nil ascii, 0).
  induction paragraphs as [|p ps IH]; intros st H; simpl; [exact H|].
  apply IH, chunk_step_indexed, H.
Qed.

End ChunkIndices.

Section ChunkMade.

Lemma chunk_turn_made turn max_chars overlap :
  Forall (fun c => c = make_chunk turn (tc_text c) (tc_chunk_index c))
         (chunk_turn turn max_chars overlap).
Proof.
  unfold chunk_turn.
  destruct (Z.of_nat (length (turn_text turn)) <=? max_chars)%Z.
  - constructor; [reflexivity | constructor].
  - pose proof (chunk_loop_indexed turn max_chars overlap
                  (split_paragraphs (turn_text turn))) as (_ & _ & Hall).
    destruct (chunk_loop turn max_chars overlap (split_paragraphs (turn_text turn)))
      as [[chunks cur] idx].
    simpl in Hall.
    assert (Hmade : Forall (fun c => c = make_chunk turn (tc_text c) (tc_chunk_index c)) chunks).
    { apply Forall_forall. intros c Hc. rewrite Forall_forall in Hall. apply (Hall c Hc). }
    destruct (nonempty cur && (100 <=? length cur)%nat); [|exact Hmade].
    apply Forall_app. split; [exact Hmade|]. constructor; [reflexivity | constructor].
Qed.

End ChunkMade.

Section ParsedSpeakers.

(** The speaker and the file of a turn that [parse_transcript] returns:
    a validated marker name of the transcript, normalised, that is neither
    the host nor a sponsor label. *)
Lemma parse_transcript_speaker text source_file t :
  In t (parse_transcript text source_file) ->
  turn_source_file t = source_file /\
  is_host (turn_speaker t) = false /\
  is_sponsor_speaker (turn_speaker t) = false /\
  speaker_shape (turn_speaker t) /\
  plausible_name (turn_speaker t) /\
  exists m,
    In m (fst (marker_matches text)) /\
    is_valid_speaker_name (m_group1 m) = true /\
    turn_speaker t = normalize_speaker_name (m_group1 m).
Proof.
  intros Hin. split.
  { pose proof (parse_transcript_source text source_file) as Hs.
    rewrite Forall_forall in Hs. auto. }
  destruct (parse_transcript_in _ _ _ Hin)
    as (before & m & after & Em & Es & _ & _ & _ & Hhost & Hspk & _).
  pose proof (merged_turns_origin text) as Ho. rewrite Forall_forall in Ho.
  assert (Hm : In m (merged_turns text)).
  { rewrite Em. apply in_or_app. right. left. reflexivity. }
  rewrite Es. split; [exact Hhost|]. split; [exact Hspk|].
  destruct (Ho m Hm) as [E|(mt & Hmt & Hv & E)].
  - rewrite E in Hhost. discriminate Hhost.
  - pose proof (marker_matches_names text) as Hn. rewrite Forall_forall in Hn.
    rewrite E. split; [apply normalize_speaker_name_shape, Hn, Hmt|].
    split; [apply valid_name_plausible, Hv|].
    exists mt. auto.
Qed.

End ParsedSpeakers.

(** * Parent documents and their identifiers *)

Section IngestTheory.

Lemma read_nat_zero s : read_nat ("0"%char :: s) = read_nat s.
Proof.
  unfold read_nat. simpl.
  destruct (NilEmpty.uint_of_string (string_of_list_ascii s)); reflexivity.
Qed.

Lemma read_nat_zeros k s : read_nat (repeat "0"%char k ++ s) = read_nat s.
Proof.
  induction k as [|k IH]; [reflexivity|].
  simpl. rewrite read_nat_zero. exact IH.
Qed.

Lemma read_str_of_nat n : read_nat (str_of_nat n) = Some n.
Proof.
  unfold read_nat, str_of_nat, lit.
  rewrite string_of_list_ascii_of_string, NilEmpty.usu. simpl.
  rewrite DecimalNat.Unsigned.of_to. reflexivity.
Qed.

(** The six-place format denotes the number it prints. *)
Lemma read_format_06d n : read_nat (format_06d n) = Some n.
Proof. unfold format_06d. rewrite read_nat_zeros. apply read_str_of_nat. Qed.

Lemma string_of_uint_digits d :
  forallb is_digit (lit (NilEmpty.string_of_uint d)) = true.
Proof. induction d; simpl; try exact IHd; reflexivity. Qed.

Lemma format_06d_digits n : forallb is_digit (format_06d n) = true.
Proof.
  unfold format_06d. rewrite forallb_app. apply andb_true_iff. split.
  - apply forallb_forall. intros c Hc. apply repeat_spec in Hc. subst c. reflexivity.
  - apply string_of_uint_digits.
Qed.

Lemma take_while_stop p s c r :
  forallb p s = true -> p c = false -> take_while p (s ++ c :: r) = s.
Proof.
  intros Hs Hc. induction s as [|x s IH]; simpl; [rewrite Hc; reflexivity|].
  simpl in Hs. apply andb_true_iff in Hs. destruct Hs as [Hx Hs].
  rewrite Hx, (IH Hs). reflexivity.
Qed.

Lemma replace_char_app old new s1 s2 :
  replace_char old new (s1 ++ s2) = replace_char old new s1 ++ replace_char old new s2.
Proof. apply map_app. Qed.

Ltac each_char c := destruct c as [[] [] [] [] [] [] [] []]; vm_compute.

Lemma replace_char_digits old new s :
  is_digit old = false -> forallb is_digit s = true -> replace_char old new s = s.
Proof.
  intros Hold. induction s as [|c s IH]; simpl; [reflexivity|].
  intros H. apply andb_true_iff in H. destruct H as [Hc Hs].
  rewrite (IH Hs). f_equal.
  destruct (Ascii.eqb c old) eqn:E; [|reflexivity].
  apply Ascii.eqb_eq in E. subst c. congruence.
Qed.

(** A parent identifier: [doc_], the six-place counter, and a rest that
    begins with an underscore. *)
Lemma make_parent_id_shape n chunk :
  exists rest,
    make_parent_id n chunk = lit "doc_" ++ format_06d n ++ "_"%char :: rest.
Proof.
  unfold make_parent_id. rewrite !replace_char_app.
  rewrite (replace_char_digits " " "_" (format_06d n)) by
    (first [reflexivity | apply format_06d_digits]).
  rewrite (replace_char_digits ":" "-" (format_06d n)) by
    (first [reflexivity | apply format_06d_digits]).
  eexists. reflexivity.
Qed.

Lemma make_parent_id_counter n chunk : id_counter (make_parent_id n chunk) = Some n.
Proof.
  destruct (make_parent_id_shape n chunk) as (rest & ->).
  unfold id_counter. change (skipn 4 (lit "doc_" ++ format_06d n ++ "_"%char :: rest))
    with (format_06d n ++ "_"%char :: rest).
  rewrite take_while_stop; [apply read_format_06d | apply format_06d_digits | reflexivity].
Qed.

(** The identifier holds neither a space nor a colon. *)
Lemma replace_char_absent old new s :
  Ascii.eqb new old = false -> existsb (fun c => Ascii.eqb c old) (replace_char old new s) = false.
Proof.
  intros Hn. induction s as [|c s IH]; simpl; [reflexivity|].
  rewrite IH, orb_false_r.
  destruct (Ascii.eqb c old) eqn:E; [exact Hn | exact E].
Qed.

Lemma replace_char_keeps_absent old new x s :
  Ascii.eqb new x = false ->
  existsb (fun c => Ascii.eqb c x) s = false ->
  existsb (fun c => Ascii.eqb c x) (replace_char old new s) = false.
Proof.
  intros Hn. induction s as [|c s IH]; simpl; [reflexivity|].
  intros H. apply orb_false_iff in H. destruct H as [Hc Hs].
  rewrite (IH Hs), orb_false_r.
  destruct (Ascii.eqb c old); [exact Hn | exact Hc].
Qed.

Lemma make_parent_id_clean n chunk :
  existsb (fun c => Ascii.eqb c " " || Ascii.eqb c ":") (make_parent_id n chunk) = false.
Proof.
  unfold make_parent_id.
  set (s := lit "doc_" ++ _).
  assert (H1 : existsb (fun c => Ascii.eqb c ":") (replace_char ":" "-" (replace_char " " "_" s)) = false)
    by (apply replace_char_absent; reflexivity).
  assert (H2 : existsb (fun c => Ascii.eqb c " ") (replace_char ":" "-" (replace_char " " "_" s)) = false).
  { apply replace_char_keeps_absent; [reflexivity|]. apply replace_char_absent. reflexivity. }
  generalize dependent (replace_char ":" "-" (replace_char " " "_" s)). clear s.
  intros id. induction id as [|c id IH]; simpl; [reflexivity|].
  intros H1 H2. apply orb_false_iff in H1. apply orb_false_iff in H2.
  destruct H1 as [-> H1], H2 as [-> H2]. simpl. apply IH; assumption.
Qed.

End IngestTheory.

Section IngestInvariant.

Lemma store_set_fresh k v d :
  ~ In k (map fst d) -> store_set k v d = d ++ [(k, v)].
Proof.
  induction d as [|[k' v'] d IH]; simpl; intros H; [reflexivity|].
  destruct (str_eqb k' k) eqn:E.
  - apply str_eqb_eq in E. tauto.
  - rewrite IH; [reflexivity | tauto].
Qed.

Lemma counters_nodup (ids : list str) n :
  map id_counter ids = map Some (seq 0 n) -> NoDup ids.
Proof.
  intros H. apply (NoDup_map_inv id_counter). rewrite H.
  apply Finite.Injective_map_NoDup; [|apply seq_NoDup].
  intros a b E. inversion E. reflexivity.
Qed.

Lemma ingest_chunk_ok st chunk :
  ingest_state_ok st -> ingest_state_ok (ingest_chunk st chunk).
Proof.
  destruct st as [[docs store] counter]. unfold ingest_state_ok. simpl.
  intros (Ec & Hids & Hstore). subst counter store.
  rewrite !length_app, !map_app. simpl.
  rewrite make_parent_id_counter, Hids.
  split; [lia|]. split.
  - rewrite Nat.add_1_r, seq_S, map_app. reflexivity.
  - apply store_set_fresh. rewrite map_map. simpl. intros Hin.
    apply (in_map id_counter) in Hin. rewrite map_map, Hids, make_parent_id_counter in Hin.
    apply in_map_iff in Hin. destruct Hin as (k & Ek & Hk).
    inversion Ek; subst k. apply in_seq in Hk. lia.
Qed.

Lemma fold_left_invariant {S X : Type} (P : S -> Prop) (f : S -> X -> S) l :
  (forall st x, P st -> P (f st x)) -> forall st, P st -> P (fold_left f l st).
Proof.
  intros Hf. induction l as [|x l IH]; intros st H; simpl; [exact H|].
  apply IH, Hf, H.
Qed.

Lemma ingest_file_fold st file :
  ingest_file st file =
  match file_content file with
  | None => st
  | Some text => fold_left ingest_turn (parse_transcript text (file_name file)) st
  end.
Proof.
  unfold ingest_file. destruct (file_content file) as [text|]; [|reflexivity].
  destruct (parse_transcript text (file_name file)); reflexivity.
Qed.

Lemma ingest_file_invariant (P : IngestState -> Prop) st file :
  (forall st chunk, P st -> P (ingest_chunk st chunk)) ->
  P st -> P (ingest_file st file).
Proof.
  intros Hc H. rewrite ingest_file_fold.
  destruct (file_content file) as [text|]; [|exact H].
  apply fold_left_invariant; [|exact H].
  intros st' turn H'. unfold ingest_turn. apply fold_left_invariant; assumption.
Qed.

Lemma ingest_files_ok files :
  ingest_state_ok (fold_left ingest_file files ([], [], 0)).
Proof.
  apply fold_left_invariant.
  - intros st file H. apply ingest_file_invariant; [apply ingest_chunk_ok | exact H].
  - repeat split.
Qed.

End IngestInvariant.

Section IngestClosedForm.

Lemma documents_from_app n l1 l2 :
  documents_from n (l1 ++ l2) = documents_from n l1 ++ documents_from (n + length l1) l2.
Proof.
  revert n. induction l1 as [|c l1 IH]; intros n; simpl.
  - rewrite Nat.add_0_r. reflexivity.
  - rewrite IH. do 3 f_equal. lia.
Qed.

Lemma documents_from_in n chunks d :
  In d (documents_from n chunks) ->
  exists k chunk, In chunk chunks /\ d = make_document k chunk.
Proof.
  revert n. induction chunks as [|c chunks IH]; intros n; simpl; [tauto|].
  intros [<-|H]; [eauto|].
  destruct (IH _ H) as (k & chunk & Hc & E). eauto.
Qed.

Lemma ingest_chunks_docs chunks st :
  docs_extended st (fold_left ingest_chunk chunks st) chunks.
Proof.
  revert st. induction chunks as [|c chunks IH]; intros st.
  - split; simpl; [rewrite app_nil_r; reflexivity | lia].
  - destruct (IH (ingest_chunk st c)) as [Hd Hn].
    destruct st as [[docs store] n].
    change (fold_left ingest_chunk (c :: chunks) (docs, store, n))
      with (fold_left ingest_chunk chunks (ingest_chunk (docs, store, n) c)).
    split; [rewrite Hd | rewrite Hn]; simpl; [rewrite <- app_assoc; reflexivity | lia].
Qed.

Lemma docs_extended_app st1 st2 st3 l1 l2 :
  docs_extended st1 st2 l1 -> docs_extended st2 st3 l2 ->
  docs_extended st1 st3 (l1 ++ l2).
Proof.
  intros [H1 N1] [H2 N2]. split.
  - rewrite H2, H1, N1, documents_from_app, <- app_assoc. reflexivity.
  - rewrite N2, N1, length_app. lia.
Qed.

Lemma docs_extended_nil st : docs_extended st st [].
Proof. split; simpl; [rewrite app_nil_r; reflexivity | lia]. Qed.

Lemma ingest_turns_docs turns st :
  docs_extended st (fold_left ingest_turn turns st)
    (flat_map (fun turn => chunk_turn turn PARENT_CHUNK_SIZE 200) turns).
Proof.
  revert st. induction turns as [|t turns IH]; intros st; simpl.
  - apply docs_extended_nil.
  - apply (docs_extended_app st (ingest_turn st t)); [apply ingest_chunks_docs | apply IH].
Qed.

Lemma ingest_files_docs files st :
  docs_extended st (fold_left ingest_file files st) (all_chunks files).
Proof.
  revert st. induction files as [|f files IH]; intros st; simpl.
  - apply docs_extended_nil.
  - apply (docs_extended_app st (ingest_file st f)); [|apply IH].
    rewrite ingest_file_fold.
    destruct (file_content f); [apply ingest_turns_docs | apply docs_extended_nil].
Qed.

Lemma create_parent_documents_docs files :
  fst (create_parent_documents files) = documents_from 0 (all_chunks files).
Proof.
  unfold create_parent_documents.
  destruct (ingest_files_docs files ([], [], 0)) as [H _]. exact H.
Qed.

Lemma all_chunks_in files chunk :
  In chunk (all_chunks files) ->
  exists file text turn,
    In file files /\ file_content file = Some text /\
    In turn (parse_transcript text (file_name file)) /\
    In chunk (chunk_turn turn PARENT_CHUNK_SIZE 200).
Proof.
  unfold all_chunks. intros H. apply in_flat_map in H. destruct H as (file & Hf & H).
  destruct (file_content file) as [text|] eqn:E; [|destruct H].
  apply in_flat_map in H. destruct H as (turn & Ht & H).
  exists file, text, turn. auto.
Qed.

Lemma ingest_file_nothing st file :
  contributes_nothing file -> ingest_file st file = st.
Proof.
  unfold contributes_nothing, ingest_file.
  destruct (file_content file); [intros ->|]; reflexivity.
Qed.

End IngestClosedForm.

(** * Speaker colours by position *)

Section ColorTheory.

Local Open Scope string_scope.

Lemma index_of_positions speakers :
  NoDup speakers ->
  map (fun s => index_of s speakers) speakers = map Some (seq 0 (length speakers)).
Proof.
  induction speakers as [|s rest IH]; intros Hnd; [reflexivity|].
  inversion Hnd as [|? ? Hnin Hrest]; subst.
  simpl. rewrite String.eqb_refl. f_equal.
  transitivity (map (option_map S) (map (fun x => index_of x rest) rest)).
  - rewrite map_map. apply map_ext_in. intros x Hx.
    destruct (String.eqb s x) eqn:E; [|reflexivity].
    apply String.eqb_eq in E. subst x. contradiction.
  - rewrite (IH Hrest), <- seq_shift, !map_map. reflexivity.
Qed.

Lemma index_of_none speaker speakers :
  ~ In speaker speakers -> index_of speaker speakers = None.
Proof.
  induction speakers as [|s rest IH]; intros H; [reflexivity|].
  simpl. destruct (String.eqb s speaker) eqn:E.
  - apply String.eqb_eq in E. subst. exfalso. apply H. left. reflexivity.
  - rewrite IH; [reflexivity|]. intros Hin. apply H. right. exact Hin.
Qed.

(** The colours of distinct speakers go by position. *)
Lemma speaker_colors_by_position speakers :
  NoDup speakers ->
  map (fun s => get_speaker_color s speakers) speakers = position_colors (length speakers).
Proof.
  intros Hnd. unfold get_speaker_color, position_colors.
  rewrite <- (map_map (fun s => index_of s speakers)
                (fun o => match o with
                          | Some idx => nth (idx mod length SPEAKER_COLORS) SPEAKER_COLORS ""
                          | None => "#808080"
                          end)).
  rewrite (index_of_positions _ Hnd), map_map. reflexivity.
Qed.

Lemma position_colors_nodup n : n <= 5 -> NoDup (position_colors n).
Proof.
  intros Hn.
  assert (H5 : NoDup (position_colors 5)).
  { vm_compute. repeat constructor; simpl; intuition discriminate. }
  assert (E : position_colors n = firstn n (position_colors 5)).
  { unfold position_colors. rewrite firstn_map.
    f_equal. destruct n as [|[|[|[|[|[|n]]]]]]; try reflexivity. lia. }
  rewrite E. apply nodup_firstn. exact H5.
Qed.

Lemma index_of_nth speakers i d :
  NoDup speakers -> i < length speakers -> index_of (nth i speakers d) speakers = Some i.
Proof.
  revert i. induction speakers as [|s rest IH]; intros i Hnd Hi; [simpl in Hi; lia|].
  inversion Hnd as [|? ? Hnin Hrest]; subst.
  destruct i as [|j]; simpl; [rewrite String.eqb_refl; reflexivity|].
  simpl in Hi. assert (Hj : j < length rest) by lia.
  destruct (String.eqb s (nth j rest d)) eqn:E.
  - apply String.eqb_eq in E. exfalso. apply Hnin. rewrite E. apply nth_In. exact Hj.
  - rewrite (IH j Hrest Hj). reflexivity.
Qed.

Lemma get_speaker_color_in speaker speakers :
  In speaker speakers -> In (get_speaker_color speaker speakers) SPEAKER_COLORS.
Proof.
  intros Hin. unfold get_speaker_color.
  destruct (index_of speaker speakers) as [idx|] eqn:E.
  - apply nth_In. apply Nat.mod_upper_bound. discriminate.
  - exfalso. revert E. clear -Hin. induction speakers as [|s rest IH]; [destruct Hin|].
    simpl. destruct (String.eqb s speaker) eqn:E; [discriminate|].
    destruct Hin as [->|Hin]; [rewrite String.eqb_refl in E; discriminate E|].
    destruct (index_of speaker rest); [discriminate | intros _; apply IH; auto].
Qed.

End ColorTheory.

(** * Batches *)

Section BatchTheory.

Context {A : Type}.

Lemma list_slice_step (l : list A) i size : list_slice l i (i + size) = firstn size (skipn i l).
Proof. unfold list_slice. f_equal. lia. Qed.

Lemma skipn_add (l : list A) a b : skipn (a + b) l = skipn b (skipn a l).
Proof.
  revert l. induction a as [|a IH]; intros l; [reflexivity|].
  destruct l as [|x l]; simpl; [destruct b; reflexivity | apply IH].
Qed.

(** The slices from [start] on make up the list from [start] on. *)
Lemma batches_from (l : list A) size fuel start :
  0 < size -> length l - start <= fuel ->
  concat (map (fun i => list_slice l i (i + size)) (range_from fuel start (length l) size)) =
  skipn start l.
Proof.
  intros Hs. revert start. induction fuel as [|fuel IH]; intros start Hf; simpl.
  - symmetry. apply skipn_all2. lia.
  - destruct (start <? length l)%nat eqn:E.
    + simpl. rewrite IH by (apply Nat.ltb_lt in E; lia).
      rewrite list_slice_step, skipn_add. apply firstn_skipn.
    + apply Nat.ltb_ge in E. symmetry. apply skipn_all2. exact E.
Qed.

Lemma batches_sized (l : list A) size fuel start :
  0 < size ->
  Forall (fun b => 1 <= length b <= size)
    (map (fun i => list_slice l i (i + size)) (range_from fuel start (length l) size)).
Proof.
  intros Hs. revert start. induction fuel as [|fuel IH]; intros start; simpl; [constructor|].
  destruct (start <? length l)%nat eqn:E; [|constructor].
  apply Nat.ltb_lt in E. constructor; [|apply IH].
  rewrite list_slice_step, length_firstn, length_skipn. lia.
Qed.

Lemma list_slice_map {B : Type} (f : A -> B) (l : list A) a b :
  list_slice (map f l) a b = map f (list_slice l a b).
Proof. unfold list_slice. rewrite skipn_map, firstn_map. reflexivity. Qed.

End BatchTheory.
(** * Verification without markers *)

Section VerifyTheory.

Lemma marker_matches_none text :
  fst (marker_matches text) = [] -> marker_matches text = ([], []).
Proof.
  unfold marker_matches.
  destruct (finditer SPEAKER_WITH_TIMESTAMP_PATTERN text); simpl; [|discriminate].
  intros ->. reflexivity.
Qed.

Lemma parse_transcript_none text file :
  fst (marker_matches text) = [] -> parse_transcript text file = [].
Proof. unfold parse_transcript. intros ->. reflexivity. Qed.

(** Without a marker there is nothing to capture, and the capture is
    reported as complete. *)
Lemma verify_transcript_none text file :
  fst (marker_matches text) = [] ->
  verify_transcript text file =
  {| vr_file := file;
     vr_total_chars := length text;
     vr_guest_chars := 0;
     vr_parsed_turns := 0;
     vr_parsed_guest_chars := 0;
     vr_capture_ratio := 1%float;
     vr_speakers := [] |}.
Proof.
  intros H. unfold verify_transcript, verify_markers.
  rewrite (parse_transcript_none _ _ H), (marker_matches_none _ H). reflexivity.
Qed.

Lemma filter_none {A : Type} (p : A -> bool) l :
  (forall x, In x l -> p x = false) -> filter p l = [].
Proof.
  induction l as [|a l IH]; intros H; [reflexivity|]. simpl.
  rewrite (H a (or_introl eq_refl)). apply IH. intros x Hx. apply H. right. exact Hx.
Qed.

End VerifyTheory.
(** * The rounds of a discussion *)

Section GeneratorTheory.

Context {num : Type} {AR : Arith num}.
Variable llm : nat -> string -> string -> string.
Variable shuffle : Z -> list (SpeakerContext num) -> list (SpeakerContext num).

Lemma generate_response_speaker complete (ctx : SpeakerContext num) question previous round_num brevity :
  r_speaker (generate_response complete ctx question previous round_num brevity) = speaker ctx /\
  r_round_num (generate_response complete ctx question previous round_num brevity) = round_num.
Proof. split; reflexivity. Qed.

(** The speakers of a round answer in the order of the contexts, and the
    responses of the round are added to those of the discussion. *)
Lemma discussion_turns_fold question round_num (ctxs : list (SpeakerContext num)) rr ar :
  exists new,
    fold_left (discussion_turn llm question round_num) ctxs (rr, ar) = (rr ++ new, ar ++ new) /\
    map r_speaker new = map speaker ctxs /\
    Forall (fun r => r_round_num r = round_num) new.
Proof.
  revert rr ar. induction ctxs as [|ctx ctxs IH]; intros rr ar.
  - exists []. rewrite !app_nil_r. repeat split. constructor.
  - pose (response := generate_response (llm (length ar)) ctx question
                        (if (1 <? round_num)%Z then ar else []) round_num 2).
    change (fold_left (discussion_turn llm question round_num) (ctx :: ctxs) (rr, ar))
      with (fold_left (discussion_turn llm question round_num) ctxs
              (rr ++ [response], ar ++ [response])).
    destruct (IH (rr ++ [response]) (ar ++ [response])) as (new & E & Hs & Hr).
    exists (response :: new). rewrite E, <- !app_assoc. simpl.
    split; [reflexivity|]. split; [f_equal; exact Hs|].
    constructor; [reflexivity | exact Hr].
Qed.

Lemma discussion_rounds_fold (contexts : list (SpeakerContext num)) question rounds all_rounds ar :
  (forall r l, Permutation (shuffle r l) l) ->
  exists new_rounds,
    fst (fold_left (discussion_round llm shuffle contexts question) rounds (all_rounds, ar)) =
      all_rounds ++ new_rounds /\
    Forall2 (fun round_num round =>
               Permutation (map r_speaker round) (map speaker contexts) /\
               ((round_num <= 1)%Z -> map r_speaker round = map speaker contexts) /\
               Forall (fun r => r_round_num r = round_num) round)
            rounds new_rounds.
Proof.
  intros Hshuffle. revert all_rounds ar.
  induction rounds as [|round_num rounds IH]; intros all_rounds ar.
  - exists []. simpl. rewrite app_nil_r. split; [reflexivity | constructor].
  - set (ctxs := if (1 <? round_num)%Z then shuffle round_num contexts else contexts).
    destruct (discussion_turns_fold question round_num ctxs [] ar) as (new & E & Hs & Hr).
    assert (Estep : discussion_round llm shuffle contexts question (all_rounds, ar) round_num =
                    (all_rounds ++ [new], ar ++ new)).
    { unfold discussion_round. fold ctxs. rewrite E. reflexivity. }
    change (fold_left (discussion_round llm shuffle contexts question)
              (round_num :: rounds) (all_rounds, ar))
      with (fold_left (discussion_round llm shuffle contexts question) rounds
              (discussion_round llm shuffle contexts question (all_rounds, ar) round_num)).
    rewrite Estep.
    destruct (IH (all_rounds ++ [new]) (ar ++ new)) as (more & E' & Hall).
    exists (new :: more). rewrite E', <- app_assoc. split; [reflexivity|].
    constructor; [|exact Hall].
    split; [|split; [|exact Hr]].
    + rewrite Hs. unfold ctxs. destruct (1 <? round_num)%Z; [|reflexivity].
      apply Permutation_map, Hshuffle.
    + intros Hle. rewrite Hs. unfold ctxs.
      destruct (1 <? round_num)%Z eqn:E1; [apply Z.ltb_lt in E1; lia | reflexivity].
Qed.

End GeneratorTheory.

Section GeneratorCalls.

Context {num : Type} {AR : Arith num}.
Variable llm : nat -> string -> string -> string.
Variable shuffle : Z -> list (SpeakerContext num) -> list (SpeakerContext num).

Lemma discussion_turns_calls question round_num (ctxs : list (SpeakerContext num)) rr ar :
  exists new,
    fold_left (discussion_turn llm question round_num) ctxs (rr, ar) = (rr ++ new, ar ++ new) /\
    round_calls llm question round_num ctxs ar new.
Proof.
  revert rr ar. induction ctxs as [|ctx ctxs IH]; intros rr ar.
  - exists []. rewrite !app_nil_r. split; [reflexivity|].
    intros i r H. destruct i; discriminate H.
  - pose (response := generate_response (llm (length ar)) ctx question
                        (if (1 <? round_num)%Z then ar else []) round_num 2).
    change (fold_left (discussion_turn llm question round_num) (ctx :: ctxs) (rr, ar))
      with (fold_left (discussion_turn llm question round_num) ctxs
              (rr ++ [response], ar ++ [response])).
    destruct (IH (rr ++ [response]) (ar ++ [response])) as (new & E & Hc).
    exists (response :: new). rewrite E, <- !app_assoc. split; [reflexivity|].
    intros i r H. destruct i as [|i].
    + exists ctx. split; [reflexivity|]. simpl in H. inversion H; subst r.
      simpl firstn. rewrite app_nil_r. reflexivity.
    + simpl in H. destruct (Hc i r H) as (c & Hn & Hr).
      exists c. split; [exact Hn|].
      simpl firstn. rewrite <- app_assoc in Hr. exact Hr.
Qed.

Lemma discussion_rounds_calls (contexts : list (SpeakerContext num)) question rounds all_rounds ar :
  exists new_rounds,
    fst (fold_left (discussion_round llm shuffle contexts question) rounds (all_rounds, ar)) =
      all_rounds ++ new_rounds /\
    rounds_calls llm shuffle contexts question ar rounds new_rounds.
Proof.
  revert all_rounds ar.
  induction rounds as [|round_num rounds IH]; intros all_rounds ar.
  - exists []. simpl. rewrite app_nil_r. split; [reflexivity | exact I].
  - destruct (discussion_turns_calls question round_num
                (round_order shuffle contexts round_num) [] ar) as (new & E & Hc).
    assert (Estep : discussion_round llm shuffle contexts question (all_rounds, ar) round_num =
                    (all_rounds ++ [new], ar ++ new)).
    { unfold discussion_round. fold (round_order shuffle contexts round_num).
      rewrite E. reflexivity. }
    change (fold_left (discussion_round llm shuffle contexts question)
              (round_num :: rounds) (all_rounds, ar))
      with (fold_left (discussion_round llm shuffle contexts question) rounds
              (discussion_round llm shuffle contexts question (all_rounds, ar) round_num)).
    rewrite Estep.
    destruct (IH (all_rounds ++ [new]) (ar ++ new)) as (more & E' & Hall).
    exists (new :: more). rewrite E', <- app_assoc. split; [reflexivity|].
    split; assumption.
Qed.

(** The round at position [k] was made after the rounds before it. *)
Lemma rounds_calls_nth (contexts : list (SpeakerContext num)) question rounds new_rounds :
  forall before k round,
    rounds_calls llm shuffle contexts question before rounds new_rounds ->
    nth_error new_rounds k = Some round ->
    exists round_num,
      nth_error rounds k = Some round_num /\
      round_calls llm question round_num (round_order shuffle contexts round_num)
        (before ++ concat (firstn k new_rounds)) round.
Proof.
  revert new_rounds. induction rounds as [|rn rounds IH]; intros new_rounds before k round H Hk.
  - destruct new_rounds; [destruct k; discriminate Hk | destruct H].
  - destruct new_rounds as [|r0 more]; [destruct H|]. destruct H as [H0 Hmore].
    destruct k as [|k].
    + simpl in Hk. inversion Hk; subst r0. exists rn. split; [reflexivity|].
      simpl. rewrite app_nil_r. exact H0.
    + simpl in Hk. destruct (IH more (before ++ r0) k round Hmore Hk) as (rn' & Hn & Hc).
      exists rn'. split; [exact Hn|]. simpl. rewrite app_assoc. exact Hc.
Qed.

Lemma round_numbers_nth num_rounds k round_num :
  nth_error (round_numbers num_rounds) k = Some round_num -> round_num = Z.of_nat (S k).
Proof.
  unfold round_numbers. intros H. rewrite nth_error_map in H.
  destruct (nth_error (seq 1 (Z.to_nat num_rounds)) k) as [n|] eqn:E; [|discriminate H].
  simpl in H. inversion H; subst round_num. f_equal.
  assert (Hk : k < length (seq 1 (Z.to_nat num_rounds))).
  { apply nth_error_Some. congruence. }
  rewrite length_seq in Hk.
  apply nth_error_nth with (d := 0%nat) in E.
  rewrite seq_nth in E by exact Hk. lia.
Qed.

Lemma forall2_nth_r {X Y : Type} (Rel : X -> Y -> Prop) l1 l2 k b :
  Forall2 Rel l1 l2 -> nth_error l2 k = Some b ->
  exists a, nth_error l1 k = Some a /\ Rel a b.
Proof.
  intros H. revert k. induction H as [|x y l1 l2 Hxy _ IH]; intros k Hk.
  - destruct k; discriminate Hk.
  - destruct k as [|k]; simpl in *; [inversion Hk; subst; eauto | auto].
Qed.

End GeneratorCalls.
(** * Trimming twice *)

Section StripIdempotent.

Lemma drop_while_head p s c r : drop_while p s = c :: r -> p c = false.
Proof.
  induction s as [|x s IH]; simpl; [discriminate|].
  destruct (p x) eqn:E; [exact IH|]. intros H. inversion H; subst. exact E.
Qed.

Lemma drop_while_idem p s : drop_while p (drop_while p s) = drop_while p s.
Proof.
  destruct (drop_while p s) as [|c r] eqn:E; [reflexivity|].
  simpl. rewrite (drop_while_head _ _ _ _ E). reflexivity.
Qed.

Lemma rstrip_chars_idem p s : rstrip_chars p (rstrip_chars p s) = rstrip_chars p s.
Proof. unfold rstrip_chars. rewrite rev_involutive, drop_while_idem. reflexivity. Qed.

Lemma strip_cases s :
  strip s = [] \/ exists c r, strip s = c :: rstrip r /\ is_space c = false.
Proof.
  unfold strip, lstrip.
  destruct (drop_while is_space s) as [|c r] eqn:E; [left; reflexivity|].
  pose proof (drop_while_head _ _ _ _ E) as Hc.
  right. exists c, r. split; [|exact Hc].
  apply (rstrip_chars_cons is_space c r Hc).
Qed.

(** [strip] leaves a stripped text as it is. *)
Lemma strip_idem s : strip (strip s) = strip s.
Proof.
  destruct (strip_cases s) as [E|(c & r & E & Hc)]; rewrite E; [reflexivity|].
  rewrite (strip_head c _ Hc). f_equal. apply rstrip_chars_idem.
Qed.

Lemma is_valid_speaker_name_strip name :
  is_valid_speaker_name (strip name) = is_valid_speaker_name name.
Proof. unfold is_valid_speaker_name. cbv zeta. rewrite strip_idem. reflexivity. Qed.

Lemma is_host_normalize raw :
  is_host (normalize_speaker_name raw) = is_host (strip raw).
Proof.
  unfold is_host. rewrite normalize_speaker_name_lower. reflexivity.
Qed.

End StripIdempotent.

(** * rank_speakers: size, members and evidence of the result *)

(** X1. For a non-negative [top_k], [rank_speakers] returns as many
    speakers as [top_k] asks for, or all the speakers of the grouping when
    there are fewer: the threshold [min_chunks] never shortens the result,
    since the backfill pass makes up the number. *)
Theorem rank_speakers_length :
  forall (num : Type) (AR : Arith num) (store : ParentStore)
         (hits : list (ChildHit num)) (top_k min_chunks : Z),
    (0 <= top_k)%Z ->
    exists groups out,
      speaker_groups store hits = Ok groups /\
      rank_speakers store hits top_k min_chunks = Ok out /\
      length out = Nat.min (Z.to_nat top_k) (length groups).
Proof.
  intros num AR store hits top_k min_chunks Hk.
  exists (groups_of store hits). eexists.
  split; [apply speaker_groups_spec|].
  split; [apply rank_speakers_closed|].
  apply full_ranking_length. exact Hk.
Qed.

Lemma rank_speakers_length_witness :
  exists groups out,
    speaker_groups scenario3_store scenario3_hits = Ok groups /\
    rank_speakers scenario3_store scenario3_hits 5 3 = Ok out /\
    length out = Nat.min (Z.to_nat 5) (length groups).
Proof.
  apply (rank_speakers_length float FloatArith scenario3_store scenario3_hits 5 3).
  intros H. discriminate H.
Defined.

(** X2. [rank_speakers] never returns a speaker twice, whatever the
    arithmetic of the scores: the backfill pass adds only speakers that the
    primary pass left out. *)
Theorem rank_speakers_distinct_speakers :
  forall (num : Type) (AR : Arith num) (store : ParentStore)
         (hits : list (ChildHit num)) (top_k min_chunks : Z),
    exists out,
      rank_speakers store hits top_k min_chunks = Ok out /\
      NoDup (map speaker out).
Proof.
  intros num AR store hits top_k min_chunks.
  eexists. split; [apply rank_speakers_closed|].
  destruct (py_slice_to_firstn (full_ranking top_k min_chunks (groups_of store hits)) top_k)
    as [n ->].
  rewrite <- firstn_map. apply nodup_firstn, full_ranking_nodup, groups_of_nodup.
Qed.

(** X3. The evidence of every returned speaker: its chunks are, up to
    their order, one record per evidence parent of the speaker (the
    distinct parents of the hits that the collection resolves to that
    speaker), there is at least one, and each record carries the parent's
    identifier, its stored text and metadata, the best similarity of the
    parent's child hits and the number of those hits. *)
Theorem returned_evidence_records :
  forall (num : Type) (AR : Arith num) (store : ParentStore)
         (hits : list (ChildHit num)) (top_k min_chunks : Z),
    exists out,
      rank_speakers store hits top_k min_chunks = Ok out /\
      Forall (fun ctx =>
        exists cs,
          cs <> [] /\
          Permutation (chunks ctx) cs /\
          Forall2 (evidence_record store hits)
                  (evidence_parents store hits (speaker ctx)) cs) out.
Proof.
  intros num AR store hits top_k min_chunks.
  destruct (rank_speakers_total store hits top_k min_chunks) as [out Hout].
  exists out. split; [exact Hout|].
  apply Forall_forall. intros ctx Hin.
  destruct (rank_speakers_in _ _ _ _ _ _ Hout Hin) as ([sp cs] & He & ->).
  exists cs. simpl.
  split; [exact (groups_of_in_nonempty _ _ _ He)|].
  split; [apply sort_desc_perm|].
  apply groups_of_records. exact He.
Qed.

(** X4. A hit whose parent the parent collection does not hold (or that
    names no parent) changes nothing: [rank_speakers] returns what it
    returns on the hits that resolve. *)
Theorem unresolved_hits_are_ignored :
  forall (num : Type) (AR : Arith num) (store : ParentStore)
         (hits : list (ChildHit num)) (top_k min_chunks : Z),
    rank_speakers store hits top_k min_chunks =
    rank_speakers store (filter (hit_resolved store) hits) top_k min_chunks.
Proof.
  intros num AR store hits top_k min_chunks.
  rewrite !rank_speakers_groups, groups_of_resolved_hits. reflexivity.
Qed.

(** X5. When at least [top_k] speakers pass the threshold, no speaker is
    backfilled: every returned speaker has at least [min_chunks] chunks. *)
Theorem threshold_holds_without_backfill :
  forall (num : Type) (AR : Arith num) (store : ParentStore)
         (hits : list (ChildHit num)) (top_k min_chunks : Z),
    (top_k <= Z.of_nat (length (filter (qualifies min_chunks) (groups_of store hits))))%Z ->
    exists out,
      rank_speakers store hits top_k min_chunks = Ok out /\
      Forall (fun ctx => (min_chunks <= Z.of_nat (length (chunks ctx)))%Z) out.
Proof.
  intros num AR store hits top_k min_chunks Hk.
  eexists. split; [apply rank_speakers_closed|].
  apply Forall_forall. intros ctx Hin. apply py_slice_to_in in Hin.
  unfold full_ranking in Hin. rewrite primary_ranking_length in Hin.
  destruct (Z.of_nat (length (filter (qualifies min_chunks) (groups_of store hits))) <? top_k)%Z
    eqn:E; [apply Z.ltb_lt in E; lia|].
  apply primary_ranking_in in Hin. destruct Hin as (e & _ & Hq & ->).
  simpl. rewrite sort_desc_length.
  unfold qualifies in Hq. apply negb_true_iff, Z.ltb_ge in Hq. exact Hq.
Qed.

Lemma threshold_holds_without_backfill_witness :
  exists out,
    rank_speakers scenario3_store scenario3_hits 2 1 = Ok out /\
    Forall (fun ctx => (1 <= Z.of_nat (length (chunks ctx)))%Z) out.
Proof.
  apply (threshold_holds_without_backfill float FloatArith scenario3_store scenario3_hits 2 1).
  vm_compute. intros H. discriminate H.
Defined.

(** ** Order of the result, in binary64 arithmetic *)

(** X6. When no speaker of the grouping has a score that is NaN, the
    returned speakers come in descending order of score, also after a
    backfill: the list is sorted again before it is cut at [top_k]. *)
Theorem ranking_sorted_by_score :
  forall (store : ParentStore) (hits : list (ChildHit float)) (top_k min_chunks : Z),
    Forall (fun e => PrimFloat.is_nan (score (context_of e)) = false)
           (groups_of store hits) ->
    exists out,
      rank_speakers store hits top_k min_chunks = Ok out /\
      StronglySorted (fun a b => PrimFloat.leb (score b) (score a) = true) out.
Proof.
  intros store hits top_k min_chunks Hnan.
  eexists. split; [apply rank_speakers_closed|].
  destruct (py_slice_to_firstn (full_ranking top_k min_chunks (groups_of store hits)) top_k)
    as [n ->].
  apply strongly_sorted_firstn.
  rewrite Forall_forall in Hnan.
  assert (Hprim : Forall (fun a : SpeakerContext float => PrimFloat.is_nan (score a) = false)
                    (primary_ranking min_chunks (groups_of store hits))).
  { apply Forall_forall. intros ctx Hctx. apply primary_ranking_in in Hctx.
    destruct Hctx as (e & He & _ & ->). apply Hnan, He. }
  unfold full_ranking.
  destruct (Z.of_nat _ <? top_k)%Z.
  - apply float_sort_desc_sorted. apply Forall_app. split; [exact Hprim|].
    apply Forall_forall. intros ctx Hctx. apply remaining_speakers_in in Hctx.
    destruct Hctx as (e & He & ->). apply in_firstn, filter_In in He. apply Hnan, He.
  - unfold primary_ranking. apply float_sort_desc_sorted.
    apply Forall_forall. intros ctx Hctx. apply in_map_iff in Hctx.
    destruct Hctx as (e & <- & He). apply filter_In in He. apply Hnan, He.
Qed.

Lemma ranking_sorted_by_score_witness :
  exists out,
    rank_speakers backfill_store backfill_hits 5 2 = Ok out /\
    StronglySorted (fun a b => PrimFloat.leb (score b) (score a) = true) out.
Proof.
  apply (ranking_sorted_by_score backfill_store backfill_hits 5 2).
  vm_compute. repeat constructor.
Defined.

(** X7. The context text of a returned speaker quotes the leading chunks
    of its evidence, at most [max_chunks] of them, and, when no hit has a
    similarity (1 - distance) that is NaN, every chunk that is left out is
    no more similar to the query than any chunk quoted. *)
Theorem context_text_quotes_best_chunks :
  forall (store : ParentStore) (hits : list (ChildHit float))
         (top_k min_chunks max_chunks : Z),
    exists out,
      rank_speakers store hits top_k min_chunks = Ok out /\
      Forall (fun ctx =>
        exists quoted rest,
          chunks ctx = quoted ++ rest /\
          get_context_text ctx max_chunks =
            String.concat (newline ++ newline) (map format_chunk quoted) /\
          ((0 <= max_chunks)%Z -> (length quoted <= Z.to_nat max_chunks)%nat) /\
          (Forall (fun h => PrimFloat.is_nan (one_minus (hit_distance h)) = false) hits ->
           forall q u, In q quoted -> In u rest ->
             PrimFloat.leb (similarity u) (similarity q) = true)) out.
Proof.
  intros store hits top_k min_chunks max_chunks.
  destruct (rank_speakers_total store hits top_k min_chunks) as [out Hout].
  exists out. split; [exact Hout|].
  apply Forall_forall. intros ctx Hin.
  destruct (rank_speakers_in _ _ _ _ _ _ Hout Hin) as ([sp cs] & He & ->).
  destruct (py_slice_to_split (chunks (context_of (sp, cs))) max_chunks) as [rest Hrest].
  exists (py_slice_to (chunks (context_of (sp, cs))) max_chunks), rest.
  split; [exact Hrest|].
  split; [reflexivity|].
  split.
  - intros Hn. rewrite (py_slice_to_length _ _ Hn). apply Nat.le_min_l.
  - intros Hnan q u Hq Hu.
    assert (Hs : StronglySorted
                   (fun a b : ChunkData float =>
                      PrimFloat.leb (similarity b) (similarity a) = true)
                   (chunks (context_of (sp, cs)))).
    { apply float_sort_desc_sorted. apply Forall_forall. intros c Hc.
      destruct (groups_of_chunk_similarity store hits sp cs c He Hc) as (h & Hh & ->).
      rewrite Forall_forall in Hnan. apply Hnan, Hh. }
    rewrite Hrest in Hs.
    exact (strongly_sorted_cross _ _ _ Hs q u Hq Hu).
Qed.

Lemma context_text_quotes_best_chunks_witness :
  exists out,
    rank_speakers backfill_store backfill_hits 5 1 = Ok out /\
    Forall (fun ctx =>
      exists quoted rest,
        chunks ctx = quoted ++ rest /\
        get_context_text ctx 1 =
          String.concat (newline ++ newline) (map format_chunk quoted) /\
        (length quoted <= 1)%nat /\
        (forall q u, In q quoted -> In u rest ->
           PrimFloat.leb (similarity u) (similarity q) = true)) out.
Proof.
  destruct (context_text_quotes_best_chunks backfill_store backfill_hits 5 1 1)
    as (out & Hout & Hall).
  exists out. split; [exact Hout|].
  revert Hall. apply Forall_impl.
  intros ctx (quoted & rest & E1 & E2 & E3 & E4).
  exists quoted, rest. split; [exact E1|]. split; [exact E2|]. split.
  - apply E3. intros H. discriminate H.
  - apply E4. vm_compute. repeat constructor.
Defined.

(** ** Example scenario 1: the marker line and its body *)

Section GreedyTheory.

Lemma rx_upto_greedy p n pre c s :
  forallb p pre = true -> p c = false -> length pre <= n ->
  exists others, rx_upto p n (pre ++ c :: s) = (pre, c :: s) :: others.
Proof.
  revert n. induction pre as [|a pre IH]; intros n Hpre Hc Hn.
  - exists []. destruct n; simpl; [reflexivity | rewrite Hc; reflexivity].
  - simpl in Hpre. apply andb_true_iff in Hpre. destruct Hpre as [Ha Hpre].
    destruct n as [|n]; [simpl in Hn; lia|]. simpl in Hn.
    destruct (IH n Hpre Hc ltac:(lia)) as [others E].
    simpl. rewrite Ha, E. simpl. eexists. reflexivity.
Qed.

Lemma rx_rep1_greedy p n a pre c s :
  p a = true -> forallb p pre = true -> p c = false -> length pre <= n - 1 ->
  exists others, rx_rep1 p n (a :: pre ++ c :: s) = (a :: pre, c :: s) :: others.
Proof.
  intros Ha Hpre Hc Hn. unfold rx_rep1. simpl. rewrite Ha. simpl.
  destruct (rx_upto_greedy p (n - 1) pre c s Hpre Hc Hn) as [others E].
  rewrite E. simpl. rewrite app_nil_r. eexists. reflexivity.
Qed.

Lemma rx_star_stop p c s :
  p c = false -> exists others, rx_star p (c :: s) = ([], c :: s) :: others.
Proof.
  intros Hc. unfold rx_star.
  apply (rx_upto_greedy p (length (c :: s)) [] c s eq_refl Hc). simpl. lia.
Qed.

(** The shortest candidate of a repetition is the empty one. *)
Lemma rx_upto_empty p n s : In ([], s) (rx_upto p n s).
Proof.
  destruct n as [|n]; destruct s as [|c s]; simpl; auto.
  destruct (p c); [apply in_or_app; right|]; left; reflexivity.
Qed.

Lemma hd_error_app_some {A : Type} (l1 l2 : list A) x :
  hd_error l1 = Some x -> hd_error (l1 ++ l2) = Some x.
Proof. destruct l1; simpl; [discriminate | auto]. Qed.

(** The first candidate that passes a test decides the match. *)
Lemma hd_error_first_passing {A B : Type} (test : A -> bool) (G : A -> B) l :
  (exists x, In x l /\ test x = true) ->
  exists x, In x l /\ test x = true /\
    hd_error (flat_map (fun x => if test x then [G x] else []) l) = Some (G x).
Proof.
  induction l as [|a l IH]; intros (x & Hin & Hx); [destruct Hin|].
  simpl. destruct (test a) eqn:Ea.
  - exists a. simpl. auto.
  - destruct Hin as [->|Hin]; [congruence|].
    destruct (IH (ex_intro _ x (conj Hin Hx))) as (y & Hy & Ty & E).
    exists y. simpl. auto.
Qed.

(** [\):\s*$] before a newline, or before white space that ends in one:
    the match takes the closing signs and some white space. *)
Lemma rx_close_at_newline consumed g1 g2 body :
  exists w r,
    nl :: body = w ++ r /\ forallb is_space w = true /\
    hd_error (rx_close consumed g1 g2 (")"%char :: ":"%char :: nl :: body)) =
      Some (g1, g2, consumed + 2 + length w).
Proof.
  unfold rx_close.
  change (rx_char (is_char ")") (")"%char :: ":"%char :: nl :: body))
    with [(")"%char, ":"%char :: nl :: body)].
  cbn [flat_map snd app].
  change (rx_char (is_char ":") (":"%char :: nl :: body)) with [(":"%char, nl :: body)].
  cbn [flat_map snd app]. rewrite !app_nil_r.
  destruct (hd_error_first_passing (fun w => at_eol (snd w))
              (fun w => (g1, g2, consumed + 2 + length (fst w)))
              (rx_star is_space (nl :: body)))
    as ([w r] & Hin & _ & E).
  { exists ([], nl :: body). split; [apply rx_upto_empty | reflexivity]. }
  exists w, r. unfold rx_star in Hin.
  split; [exact (rx_upto_in _ _ _ _ _ Hin)|].
  split; [exact (proj1 (rx_upto_forallb _ _ _ _ _ Hin))|].
  exact E.
Qed.

End GreedyTheory.

Section Scenario1Line.

(** The marker line of scenario 1 before a newline: the match is the
    line and some white space after it. *)
Lemma kunal_shah_line_match body :
  exists w r,
    nl :: body = w ++ r /\ forallb is_space w = true /\
    SPEAKER_WITH_TIMESTAMP_PATTERN (kunal_shah_line ++ nl :: body) =
      Some (lit "KUNAL SHAH ", Some (lit "00:00:08"), 22 + length w).
Proof.
  destruct (rx_close_at_newline 20 (lit "KUNAL SHAH ") (Some (lit "00:00:08")) body)
    as (w & r & E & Hw & Hclose).
  exists w, r. split; [exact E|]. split; [exact Hw|].
  unfold SPEAKER_WITH_TIMESTAMP_PATTERN.
  change (rx_char is_upper (kunal_shah_line ++ nl :: body))
    with [("K"%char, lit "UNAL SHAH (00:00:08):" ++ nl :: body)].
  cbn [flat_map snd fst]. rewrite app_nil_r.
  destruct (rx_rep1_greedy is_name_char 49 "U"%char (lit "NAL SHAH ") "("%char
              (lit "00:00:08):" ++ nl :: body) eq_refl eq_refl eq_refl)
    as [names En]; [simpl; lia|].
  change (lit "UNAL SHAH (00:00:08):" ++ nl :: body)
    with ("U"%char :: lit "NAL SHAH " ++ "("%char :: lit "00:00:08):" ++ nl :: body).
  rewrite En. cbn [flat_map snd fst].
  apply hd_error_app_some.
  destruct (rx_star_stop is_space "("%char (lit "00:00:08):" ++ nl :: body) eq_refl)
    as [spaces Es].
  match goal with
  | |- context [rx_star is_space ?x] =>
      change x with ("("%char :: lit "00:00:08):" ++ nl :: body)
  end.
  rewrite Es. cbn [flat_map snd fst].
  apply hd_error_app_some.
  change (rx_char (is_char "(") ("("%char :: lit "00:00:08):" ++ nl :: body))
    with [("("%char, lit "00:00:08):" ++ nl :: body)].
  cbn [flat_map snd fst]. rewrite app_nil_r.
  change (rx_timestamp (lit "00:00:08):" ++ nl :: body))
    with [ (lit "00:00:08", ")"%char :: ":"%char :: nl :: body);
           (lit "00:00", lit ":08):" ++ nl :: body) ].
  cbn [flat_map snd fst].
  apply hd_error_app_some.
  exact Hclose.
Qed.

End Scenario1Line.

Section FinditerTheory.

Variable rx : str -> option RxMatch.

(** Whether a match is found does not depend on the position counted. *)
Lemma finditer_from_nil_pos s pos pos' bol skip :
  finditer_from rx s pos bol skip = [] -> finditer_from rx s pos' bol skip = [].
Proof.
  revert pos pos' bol skip. induction s as [|c s IH]; intros pos pos' bol skip; [reflexivity|].
  simpl. destruct skip as [|k]; [|apply IH].
  destruct (if bol then rx (c :: s) else None) as [[[g1 g2] len]|]; [discriminate | apply IH].
Qed.

Lemma bol_after_cons bol c a : bol_after bol (c :: a) = bol_after (is_nl c) a.
Proof.
  unfold bol_after. simpl. destruct (rev a) as [|x l] eqn:E; reflexivity.
Qed.

Lemma bol_after_app bol a b : bol_after bol (a ++ b) = bol_after (bol_after bol a) b.
Proof.
  revert bol. induction a as [|c a IH]; intros bol; [reflexivity|].
  change ((c :: a) ++ b) with (c :: (a ++ b)). rewrite !bol_after_cons. apply IH.
Qed.

(** Where nothing is found, nothing is found from any later point on. *)
Lemma finditer_from_nil_suffix a r pos bol :
  finditer_from rx (a ++ r) pos bol 0 = [] ->
  forall pos', finditer_from rx r pos' (bol_after bol a) 0 = [].
Proof.
  revert pos bol. induction a as [|c a IH]; intros pos bol H pos'.
  - exact (finditer_from_nil_pos _ _ _ _ _ H).
  - rewrite bol_after_cons. simpl in H.
    destruct (if bol then rx (c :: a ++ r) else None) as [[[g1 g2] len]|];
      [discriminate H|].
    exact (IH _ _ H pos').
Qed.

(** Inside a match nothing is tried. *)
Lemma finditer_from_skip_run a r pos bol :
  finditer_from rx (a ++ r) pos bol (length a) =
  finditer_from rx r (pos + length a) (bol_after bol a) 0.
Proof.
  revert pos bol. induction a as [|c a IH]; intros pos bol.
  - simpl. rewrite Nat.add_0_r. reflexivity.
  - rewrite bol_after_cons.
    change (finditer_from rx ((c :: a) ++ r) pos bol (length (c :: a)))
      with (finditer_from rx (a ++ r) (S pos) (is_nl c) (length a)).
    rewrite IH. f_equal. simpl. lia.
Qed.

End FinditerTheory.

Section Scenario1Parse.

Lemma strip_space_prefix w r : forallb is_space w = true -> strip (w ++ r) = strip r.
Proof.
  intros H. unfold strip, lstrip. f_equal.
  induction w as [|c w IH]; [reflexivity|].
  simpl in H. apply andb_true_iff in H. destruct H as [Hc Hw].
  simpl. rewrite Hc. apply IH, Hw.
Qed.

Lemma kunal_shah_speaker_matches body :
  finditer SPEAKER_WITH_TIMESTAMP_PATTERN body = [] ->
  exists w r,
    nl :: body = w ++ r /\ forallb is_space w = true /\
    finditer SPEAKER_WITH_TIMESTAMP_PATTERN (kunal_shah_line ++ nl :: body) =
      [kunal_shah_match_to w].
Proof.
  intros Hbody. set (P := SPEAKER_WITH_TIMESTAMP_PATTERN) in *.
  destruct (kunal_shah_line_match body) as (w & r & E & Hw & Hm).
  exists w, r. split; [exact E|]. split; [exact Hw|].
  assert (E1 : finditer P (kunal_shah_line ++ nl :: body) =
               kunal_shah_match_to w ::
               finditer_from P (lit "UNAL SHAH (00:00:08):" ++ nl :: body) 1 false
                 (22 + length w - 1)).
  { exact (finditer_from_match P "K"%char
             (lit "UNAL SHAH (00:00:08):" ++ nl :: body) 0 _ _ _ Hm). }
  rewrite E1. f_equal.
  replace (22 + length w - 1) with (length (lit "UNAL SHAH (00:00:08):" ++ w))
    by (rewrite length_app; simpl; lia).
  rewrite E, app_assoc, finditer_from_skip_run, bol_after_app.
  change (bol_after false (lit "UNAL SHAH (00:00:08):")) with false.
  destruct w as [|c w'].
  - simpl in E. subst r.
    change (finditer_from P (nl :: body) (1 + length (lit "UNAL SHAH (00:00:08):" ++ [])) false 0)
      with (finditer_from P body (S (1 + length (lit "UNAL SHAH (00:00:08):" ++ []))) true 0).
    exact (finditer_from_nil_pos P _ _ _ _ _ Hbody).
  - simpl in E. inversion E; subst c. rewrite bol_after_cons.
    change (is_nl nl) with true.
    match goal with H : body = _ |- _ => rewrite H in Hbody end.
    exact (finditer_from_nil_suffix P w' r 0 true Hbody _).
Qed.

Lemma kunal_shah_timestamp_matches body :
  finditer TIMESTAMP_ONLY_PATTERN body = [] ->
  finditer TIMESTAMP_ONLY_PATTERN (kunal_shah_line ++ nl :: body) = [].
Proof.
  intros Hbody.
  set (P := TIMESTAMP_ONLY_PATTERN) in *.
  assert (E1 : finditer P (kunal_shah_line ++ nl :: body) =
               finditer_from P (lit "UNAL SHAH (00:00:08):" ++ nl :: body) 1 false 0).
  { exact (finditer_from_no_match P "K"%char
             (lit "UNAL SHAH (00:00:08):" ++ nl :: body) 0 eq_refl). }
  assert (E2 : finditer_from P (lit "UNAL SHAH (00:00:08):" ++ nl :: body) 1 false 0 =
               finditer_from P (nl :: body) 22 false 0).
  { exact (finditer_from_midline P (lit "UNAL SHAH (00:00:08):") (nl :: body) 1 eq_refl). }
  assert (E3 : finditer_from P (nl :: body) 22 false 0 =
               finditer_from P body 23 true 0) by reflexivity.
  rewrite E1, E2, E3.
  exact (finditer_from_nil_pos P _ _ _ _ _ Hbody).
Qed.

(** Example scenario 1 for any body without a marker line that, trimmed,
    has at least 100 characters and no sponsor keyword. *)
Lemma kunal_shah_parse body source_file :
  no_marker_line body ->
  100 <= length (strip body) ->
  is_sponsor_content (strip body) = false ->
  parse_transcript (kunal_shah_line ++ nl :: body) source_file =
  [kunal_shah_turn (strip body) source_file].
Proof.
  intros [Hspk Hts] Hlen Hsponsor.
  set (text := kunal_shah_line ++ nl :: body).
  destruct (kunal_shah_speaker_matches body Hspk) as (w & r & E & Hw & Hmatches).
  assert (Hm : marker_matches text = ([kunal_shah_match_to w], [])).
  { unfold marker_matches, text.
    rewrite Hmatches, (kunal_shah_timestamp_matches body Hts). reflexivity. }
  assert (Hmarkers : all_markers text =
            [ {| mk_start := 0; mk_end := 22 + length w;
                 mk_speaker := Some (lit "Kunal Shah");
                 mk_timestamp := lit "00:00:08"; mk_type := speaker_marker |} ]).
  { unfold all_markers. rewrite Hm. reflexivity. }
  assert (Hraw : raw_turns text =
                 [ {| rt_speaker := lit "Kunal Shah";
                      rt_timestamp := lit "00:00:08";
                      rt_text := strip body;
                      rt_is_host := false |} ]).
  { unfold raw_turns. rewrite Hmarkers.
    change (raw_turns_from text None
              [ {| mk_start := 0; mk_end := 22 + length w;
                   mk_speaker := Some (lit "Kunal Shah");
                   mk_timestamp := lit "00:00:08"; mk_type := speaker_marker |} ])
      with [ {| rt_speaker := lit "Kunal Shah";
                rt_timestamp := lit "00:00:08";
                rt_text := strip (py_slice text (length (kunal_shah_line ++ w)) (length text));
                rt_is_host := false |} ].
    assert (Et : text = (kunal_shah_line ++ w) ++ r).
    { unfold text. rewrite E, app_assoc. reflexivity. }
    rewrite Et, py_slice_suffix.
    rewrite <- (strip_space_prefix w r Hw), <- E. reflexivity. }
  unfold parse_transcript. rewrite Hm. simpl fst. cbv iota.
  unfold merged_turns. rewrite Hraw.
  change (merge_turns [ {| rt_speaker := lit "Kunal Shah";
                           rt_timestamp := lit "00:00:08";
                           rt_text := strip body;
                           rt_is_host := false |} ])
    with [ {| rt_speaker := lit "Kunal Shah";
              rt_timestamp := lit "00:00:08";
              rt_text := strip body;
              rt_is_host := false |} ].
  rewrite guest_turns_from_cons. cbn [rt_is_host rt_speaker rt_text rt_timestamp].
  change (is_sponsor_speaker (lit "Kunal Shah")) with false. cbv iota.
  rewrite Hsponsor. apply Nat.leb_le in Hlen. rewrite Hlen. reflexivity.
Qed.

End Scenario1Parse.

(** * parse_transcript: merging, speakers and sponsor filters *)

(** X8. Merging consecutive turns of one speaker: afterwards no two
    neighbouring turns have the same speaker, the texts joined by blank
    lines are the texts before the merge joined by blank lines (no text is
    lost or added), and merging again changes nothing. *)
Theorem merge_turns_merges_runs :
  forall turns : list RawTurn,
    adjacent_distinct (merge_turns turns) /\
    join_paragraphs (map rt_text (merge_turns turns)) =
      join_paragraphs (map rt_text turns) /\
    merge_turns (merge_turns turns) = merge_turns turns.
Proof.
  intros turns.
  assert (Hd : adjacent_distinct (merge_turns turns)).
  { apply merge_into_distinct. exact I. }
  split; [exact Hd|]. split.
  - apply (merge_into_text [] turns).
  - apply (merge_into_fixed [] (merge_turns turns)). exact Hd.
Qed.

(** X9. The sponsor test is monotone in the text: a text that holds a
    sponsor read stays a sponsor read when more text is put before or
    after it, so a merged turn with one sponsor paragraph is dropped as a
    whole. *)
Theorem sponsor_content_is_monotone :
  forall text before after : str,
    is_sponsor_content text = true ->
    is_sponsor_content (before ++ text ++ after) = true /\
    is_sponsor_content (before ++ paragraph_break ++ text) = true /\
    is_sponsor_content (text ++ paragraph_break ++ after) = true.
Proof.
  intros text before after H. split; [apply is_sponsor_content_app; exact H|]. split.
  - rewrite app_assoc, <- (app_nil_r text).
    apply (is_sponsor_content_app (before ++ paragraph_break) text [] H).
  - apply (is_sponsor_content_app [] text (paragraph_break ++ after) H).
Qed.

Lemma sponsor_content_is_monotone_witness :
  is_sponsor_content (lit "We shipped it. " ++ lit "Use promo code LENNY" ++ lit " today.") = true.
Proof.
  exact (proj1 (sponsor_content_is_monotone (lit "Use promo code LENNY")
                  (lit "We shipped it. ") (lit " today.") eq_refl)).
Defined.

(** X10. Every turn that [parse_transcript] returns carries the name of
    the file, and its speaker is the normalised name captured by a marker
    line of the transcript: it begins with a capital letter, holds only
    letters, spaces, dots, ampersands, hyphens and apostrophes, has 3 to
    50 characters and at most 5 words, and no word of it is a sentence
    indicator. *)
Theorem turn_speakers_are_validated_names :
  forall text source_file : str,
    Forall (fun t =>
      turn_source_file t = source_file /\
      speaker_shape (turn_speaker t) /\
      plausible_name (turn_speaker t) /\
      exists m,
        In m (fst (marker_matches text)) /\
        is_valid_speaker_name (m_group1 m) = true /\
        turn_speaker t = normalize_speaker_name (m_group1 m))
      (parse_transcript text source_file).
Proof.
  intros text source_file. apply Forall_forall. intros t Hin.
  destruct (parse_transcript_speaker _ _ _ Hin) as (Hsrc & _ & _ & Hshape & Hname & Hm).
  auto.
Qed.

(** X11. Of the three sponsor labels of the filter only [sponsor] can be
    the speaker of a turn: the labels [advertisement] and [ad] fail the
    validation of names, so such a marker line never starts a turn of its
    own. *)
Theorem sponsor_label_filter_reach :
  forall text : str,
    Forall (fun m =>
      is_sponsor_speaker (rt_speaker m) = true ->
      lower (rt_speaker m) = lit "sponsor") (merged_turns text).
Proof.
  intros text. pose proof (merged_turns_origin text) as Ho.
  rewrite Forall_forall in Ho. apply Forall_forall. intros m Hm.
  apply (origin_sponsor_speaker text). apply Ho, Hm.
Qed.

(** X12. A text without any colon has no marker line: [parse_transcript]
    returns no turn. *)
Theorem text_without_colon_has_no_turns :
  forall text source_file : str,
    colon_free text -> parse_transcript text source_file = [].
Proof.
  intros text source_file H. unfold parse_transcript.
  rewrite (marker_matches_colon_free text H). reflexivity.
Qed.

Lemma text_without_colon_has_no_turns_witness :
  parse_transcript answer_150 transcript_name = [].
Proof.
  apply (text_without_colon_has_no_turns answer_150 transcript_name). reflexivity.
Defined.

(** ** Speaker names and example scenario 1 *)

(** C9, as stated, fails: the marker line [KUNAL SHAH (00:00:08):]
    followed by a body of 150 characters yields no Turn at all when the
    body holds the sponsor keyword "check out", or when it keeps only 99
    characters once trimmed; and when the body has a marker line of its
    own, the one Turn returned is that of the other speaker. *)
Lemma scenario1_body_without_turn :
  (length sponsor_answer_150 = 150 /\
   parse_transcript (kunal_shah_line ++ nl :: sponsor_answer_150) transcript_name = []) /\
  (length padded_answer_150 = 150 /\
   parse_transcript (kunal_shah_line ++ nl :: padded_answer_150) transcript_name = []) /\
  (length two_speaker_answer_150 = 150 /\
   parse_transcript (kunal_shah_line ++ nl :: two_speaker_answer_150) transcript_name =
   [ {| turn_speaker := lit "Anna Lee";
        turn_timestamp := lit "00:00:20";
        turn_text := repeat "b"%char 108;
        turn_preceding_question := [];
        turn_source_file := transcript_name |} ]).
Proof. repeat split; vm_compute; reflexivity. Qed.

(** C9, amended.  [normalize_speaker_name] turns a name whose letters are
    all uppercase into title case (same letters, a capital exactly at the
    start of each run of letters) and returns any other name unchanged but
    for the trimming; on the line [KUNAL SHAH (00:00:08):] followed by a
    body of 150 characters that holds no marker line, keeps at least 100
    characters once trimmed and holds no sponsor keyword,
    [parse_transcript] returns exactly one Turn, of speaker "Kunal Shah",
    timestamp "00:00:08" and the trimmed body as text. *)
Theorem speaker_name_normalization :
  (forall name : str,
     all_uppercase (strip name) ->
     normalize_speaker_name name = title (strip name) /\
     title_cased (normalize_speaker_name name) /\
     lower (normalize_speaker_name name) = lower (strip name) /\
     length (normalize_speaker_name name) = length (strip name)) /\
  (forall name : str,
     ~ all_uppercase (strip name) -> normalize_speaker_name name = strip name) /\
  (forall name : str,
     has_lowercase (strip name) -> normalize_speaker_name name = strip name) /\
  (forall body source_file : str,
     length body = 150 ->
     no_marker_line body ->
     100 <= length (strip body) ->
     is_sponsor_content (strip body) = false ->
     parse_transcript (kunal_shah_line ++ nl :: body) source_file =
     [ {| turn_speaker := lit "Kunal Shah";
          turn_timestamp := lit "00:00:08";
          turn_text := strip body;
          turn_preceding_question := [];
          turn_source_file := source_file |} ]).
Proof.
  split; [|split; [|split]].
  - intros name H. apply isupper_spec in H. unfold normalize_speaker_name.
    rewrite H. unfold title. repeat split.
    + apply title_from_cased.
    + apply title_from_lower.
    + apply title_from_length.
  - intros name H. unfold normalize_speaker_name.
    destruct (isupper (strip name)) eqn:E; [|reflexivity].
    apply isupper_spec in E. contradiction.
  - intros name H. unfold normalize_speaker_name.
    rewrite (has_lowercase_not_upper _ H). reflexivity.
  - intros body source_file _ Hmarker Hlen Hsponsor.
    apply kunal_shah_parse; assumption.
Qed.

Lemma speaker_name_normalization_witness :
  normalize_speaker_name (lit "KUNAL SHAH ") = lit "Kunal Shah" /\
  length answer_150 = 150 /\
  parse_transcript scenario1_text transcript_name =
  [kunal_shah_turn answer_150 transcript_name].
Proof.
  destruct speaker_name_normalization as (Hupper & _ & _ & Hscenario).
  split; [|split].
  - assert (Hup : all_uppercase (strip (lit "KUNAL SHAH "))).
    { apply isupper_spec. vm_compute. reflexivity. }
    destruct (Hupper (lit "KUNAL SHAH ") Hup) as [E _]. rewrite E.
    vm_compute. reflexivity.
  - reflexivity.
  - change (kunal_shah_turn answer_150 transcript_name)
      with (kunal_shah_turn (strip answer_150) transcript_name).
    apply (Hscenario answer_150 transcript_name).
    + reflexivity.
    + split; vm_compute; reflexivity.
    + vm_compute. lia.
    + vm_compute. reflexivity.
Defined.

(** * chunk_turn: numbering, metadata and what is never lost *)

(** X13. The chunks of a turn are numbered 0, 1, 2, ... in their order,
    and each carries the speaker, the timestamp, the preceding question
    and the source file of the turn. *)
Theorem chunk_indices_and_metadata :
  forall (turn : Turn) (max_chars overlap : Z),
    map tc_chunk_index (chunk_turn turn max_chars overlap) =
      seq 0 (length (chunk_turn turn max_chars overlap)) /\
    Forall (fun c =>
      tc_speaker c = turn_speaker turn /\
      tc_timestamp c = turn_timestamp turn /\
      tc_preceding_question c = turn_preceding_question turn /\
      tc_source_file c = turn_source_file turn)
      (chunk_turn turn max_chars overlap).
Proof.
  intros turn max_chars overlap.
  assert (Hmade : forall c, c = make_chunk turn (tc_text c) (tc_chunk_index c) ->
            tc_speaker c = turn_speaker turn /\
            tc_timestamp c = turn_timestamp turn /\
            tc_preceding_question c = turn_preceding_question turn /\
            tc_source_file c = turn_source_file turn).
  { intros c ->. repeat split. }
  unfold chunk_turn.
  destruct (Z.of_nat (length (turn_text turn)) <=? max_chars)%Z.
  - split; [reflexivity|]. constructor; [|constructor]. apply Hmade. reflexivity.
  - pose proof (chunk_loop_indexed turn max_chars overlap
                  (split_paragraphs (turn_text turn))) as (Ei & Hidx & Hall).
    destruct (chunk_loop turn max_chars overlap (split_paragraphs (turn_text turn)))
      as [[chunks cur] idx].
    simpl in Ei, Hidx, Hall. subst idx.
    assert (Hmeta : Forall (fun c =>
              tc_speaker c = turn_speaker turn /\
              tc_timestamp c = turn_timestamp turn /\
              tc_preceding_question c = turn_preceding_question turn /\
              tc_source_file c = turn_source_file turn) chunks).
    { apply Forall_forall. intros c Hc. rewrite Forall_forall in Hall.
      apply Hmade. apply (Hall c Hc). }
    destruct (nonempty cur && (100 <=? length cur)%nat); [|split; assumption].
    rewrite map_app, length_app, Hidx. simpl. split.
    + rewrite Nat.add_1_r, seq_S. reflexivity.
    + apply Forall_app. split; [exact Hmeta|].
      constructor; [|constructor]. apply Hmade. reflexivity.
Qed.

(** X14. A turn of at least 100 characters that does not begin with a
    blank line is never lost in the chunking: [chunk_turn] returns at
    least one chunk, and no chunk has an empty text. *)
Theorem long_turn_yields_chunks :
  forall (turn : Turn) (max_chars overlap : Z),
    100 <= length (turn_text turn) ->
    starts_with paragraph_break (turn_text turn) = false ->
    chunk_turn turn max_chars overlap <> [] /\
    Forall (fun c => tc_text c <> []) (chunk_turn turn max_chars overlap).
Proof.
  intros turn max_chars overlap Hlen Hstart.
  assert (Hne : turn_text turn <> []).
  { intros E. rewrite E in Hlen. simpl in Hlen. lia. }
  unfold chunk_turn.
  destruct (Z.of_nat (length (turn_text turn)) <=? max_chars)%Z.
  - split; [discriminate|]. constructor; [exact Hne | constructor].
  - pose proof (chunk_loop_indexed turn max_chars overlap
                  (split_paragraphs (turn_text turn))) as (_ & _ & Hall).
    assert (Hrec : chunk_state_reconstructs overlap (split_paragraphs (turn_text turn))
              (chunk_loop turn max_chars overlap (split_paragraphs (turn_text turn)))).
    { destruct (split_paragraphs_head _ Hne Hstart) as (p & ps & E & Hp).
      rewrite E. apply chunk_loop_reconstructs. exact Hp. }
    destruct Hrec as (Hcur & _ & Hrec). rewrite join_split_paragraphs in Hrec.
    destruct (chunk_loop turn max_chars overlap (split_paragraphs (turn_text turn)))
      as [[chunks cur] idx].
    simpl in Hall, Hcur, Hrec.
    assert (Htexts : Forall (fun c => tc_text c <> []) chunks).
    { apply Forall_forall. intros c Hc. rewrite Forall_forall in Hall.
      apply (Hall c Hc). }
    destruct chunks as [|c0 chunks].
    + simpl in Hrec. rewrite app_nil_r in Hrec. subst cur.
      apply Nat.leb_le in Hlen. rewrite Hlen.
      apply nonempty_true in Hne. rewrite Hne. simpl.
      split; [discriminate|]. constructor; [apply nonempty_true; exact Hne | constructor].
    + destruct (nonempty cur && (100 <=? length cur)%nat).
      * split; [discriminate|]. apply Forall_app. split; [exact Htexts|].
        constructor; [exact Hcur | constructor].
      * split; [discriminate | exact Htexts].
Qed.

Lemma long_turn_yields_chunks_witness :
  chunk_turn long_answer 1500 200 <> [] /\
  Forall (fun c => tc_text c <> []) (chunk_turn long_answer 1500 200).
Proof.
  apply (long_turn_yields_chunks long_answer 1500 200).
  - apply Nat.leb_le. vm_compute. reflexivity.
  - vm_compute. reflexivity.
Defined.

(** * create_parent_documents *)

(** X15. The parent documents are, in order, one document per chunk of
    every turn of every readable transcript, chunked at 2048 characters
    with an overlap of 200, the [k]-th document built with counter [k]. *)
Theorem parent_documents_in_order :
  forall transcript_files : list TranscriptFile,
    fst (create_parent_documents transcript_files) =
      documents_from 0 (all_chunks transcript_files) /\
    length (fst (create_parent_documents transcript_files)) =
      length (all_chunks transcript_files).
Proof.
  intros files. split; [apply create_parent_documents_docs|].
  unfold create_parent_documents.
  destruct (ingest_files_docs files ([], [], 0)) as [_ Hn].
  destruct (ingest_files_ok files) as (Ec & _). simpl in Hn.
  rewrite <- Ec. exact Hn.
Qed.

(** X16. The identifiers of the parent documents are pairwise distinct,
    whatever the speakers and timestamps: the identifier of the [k]-th
    document holds the number [k].  They hold neither a space nor a colon,
    each document has its identifier as [parent_id] too, and the parent
    store has exactly one entry per document, its text: no entry is
    overwritten. *)
Theorem parent_ids_are_unique :
  forall transcript_files : list TranscriptFile,
    let docs := fst (create_parent_documents transcript_files) in
    let parent_store := snd (create_parent_documents transcript_files) in
    NoDup (map pd_id docs) /\
    map (fun d => id_counter (pd_id d)) docs = map Some (seq 0 (length docs)) /\
    parent_store = map (fun d => (pd_id d, pd_text d)) docs /\
    Forall (fun d =>
      pd_parent_id d = pd_id d /\
      existsb (fun c => Ascii.eqb c " " || Ascii.eqb c ":") (pd_id d) = false) docs.
Proof.
  intros files docs parent_store.
  destruct (ingest_files_ok files) as (_ & Hids & Hstore).
  fold (create_parent_documents files) in Hids, Hstore. fold docs in Hids, Hstore.
  split.
  { apply (counters_nodup _ (length docs)). rewrite map_map. exact Hids. }
  split; [exact Hids|]. split; [exact Hstore|].
  apply Forall_forall. intros d Hd. unfold docs in Hd.
  rewrite create_parent_documents_docs in Hd.
  apply documents_from_in in Hd. destruct Hd as (k & chunk & _ & ->).
  split; [reflexivity | apply make_parent_id_clean].
Qed.

(** X17. Every parent document is an answer of a guest: it names a
    readable file of the directory as its source; its speaker is the
    normalised name captured by a speaker marker of that file's text, a
    name that passed [is_valid_speaker_name]; the speaker is a plausible
    name of the shape of a marker name, and neither the host nor a sponsor
    label; and the question kept in its metadata has at most 500
    characters. *)
Theorem parent_documents_are_guest_answers :
  forall transcript_files : list TranscriptFile,
    Forall (fun d =>
      (exists file text,
         In file transcript_files /\ file_content file = Some text /\
         pd_source_file d = file_name file /\
         exists m,
           In m (fst (marker_matches text)) /\
           is_valid_speaker_name (m_group1 m) = true /\
           pd_speaker d = normalize_speaker_name (m_group1 m)) /\
      is_host (pd_speaker d) = false /\
      is_sponsor_speaker (pd_speaker d) = false /\
      speaker_shape (pd_speaker d) /\
      plausible_name (pd_speaker d) /\
      length (pd_preceding_question d) <= 500)
      (fst (create_parent_documents transcript_files)).
Proof.
  intros files. apply Forall_forall. intros d Hd.
  rewrite create_parent_documents_docs in Hd.
  apply documents_from_in in Hd. destruct Hd as (k & chunk & Hc & ->).
  apply all_chunks_in in Hc. destruct Hc as (file & text & turn & Hf & Et & Ht & Hc).
  pose proof (chunk_turn_made turn PARENT_CHUNK_SIZE 200) as Hmade.
  rewrite Forall_forall in Hmade. specialize (Hmade chunk Hc).
  destruct (parse_transcript_speaker _ _ _ Ht)
    as (Hsrc & Hhost & Hspk & Hshape & Hplausible & m & Hm & Hvalid & Hname).
  simpl. rewrite Hmade. simpl.
  split; [exists file, text; repeat split; auto; exists m; auto|].
  split; [exact Hhost|]. split; [exact Hspk|]. split; [exact Hshape|].
  split; [exact Hplausible|].
  destruct (turn_preceding_question turn) as [|c q]; [simpl; lia|].
  apply (firstn_le_length 500 (c :: q)).
Qed.

(** X18. A file that cannot be read, or whose text has no turn, is
    skipped: the documents, their identifiers and the parent store are
    those of the directory without the file. *)
Theorem unusable_file_is_skipped :
  forall (before after : list TranscriptFile) (file : TranscriptFile),
    contributes_nothing file ->
    create_parent_documents (before ++ file :: after) =
    create_parent_documents (before ++ after).
Proof.
  intros before after file H. unfold create_parent_documents.
  rewrite !fold_left_app. simpl. rewrite (ingest_file_nothing _ _ H). reflexivity.
Qed.

Lemma unusable_file_is_skipped_witness :
  create_parent_documents [unreadable_file; scenario1_file] =
  create_parent_documents [scenario1_file].
Proof.
  exact (unusable_file_is_skipped [] [scenario1_file] unreadable_file I).
Defined.

(** * Storing the parents *)

(** X21. The batches in which the parents are added to their collection:
    put end to end they are exactly the parents, in order, each batch has
    between 1 and 100 of them, and the batches of the identifiers, of the
    texts and of the metadata are cut at the same places. *)
Theorem parents_are_stored_in_batches :
  forall (A B : Type) (f : A -> B) (parents : list A),
    concat (parent_batches PARENT_BATCH_SIZE parents) = parents /\
    Forall (fun batch => 1 <= length batch <= PARENT_BATCH_SIZE)
           (parent_batches PARENT_BATCH_SIZE parents) /\
    parent_batches PARENT_BATCH_SIZE (map f parents) =
      map (map f) (parent_batches PARENT_BATCH_SIZE parents).
Proof.
  intros A B f parents. unfold parent_batches, py_range_step.
  split; [|split].
  - apply (batches_from parents PARENT_BATCH_SIZE (length parents) 0);
      [unfold PARENT_BATCH_SIZE|]; lia.
  - apply batches_sized. unfold PARENT_BATCH_SIZE. lia.
  - rewrite length_map, map_map. apply map_ext. intros i. apply list_slice_map.
Qed.

(** * Speaker colours *)

(** X19. The colour of a speaker, for a list of distinct speakers: the
    speakers get the colours of the palette by position, so up to five
    speakers get pairwise distinct colours; from the sixth speaker on the
    colours repeat (the speaker at position [i + 5] gets the colour of the
    speaker at position [i]); a listed speaker always gets a colour of the
    palette, and anybody else gets the grey fallback. *)
Theorem speaker_colors_by_palette_position :
  forall speakers : list string,
    NoDup speakers ->
    map (fun s => get_speaker_color s speakers) speakers =
      position_colors (length speakers) /\
    (length speakers <= 5 ->
     NoDup (map (fun s => get_speaker_color s speakers) speakers)) /\
    (forall i d, i + 5 < length speakers ->
       get_speaker_color (nth (i + 5) speakers d) speakers =
       get_speaker_color (nth i speakers d) speakers) /\
    (forall s, In s speakers -> In (get_speaker_color s speakers) SPEAKER_COLORS) /\
    (forall s, ~ In s speakers -> get_speaker_color s speakers = "#808080"%string).
Proof.
  intros speakers Hnd.
  split; [apply speaker_colors_by_position; exact Hnd|].
  split.
  { intros Hlen. rewrite (speaker_colors_by_position _ Hnd).
    apply position_colors_nodup. exact Hlen. }
  split.
  { intros i d Hi. unfold get_speaker_color.
    rewrite (index_of_nth speakers (i + 5) d Hnd Hi).
    rewrite (index_of_nth speakers i d Hnd) by lia.
    change (i + 5) with (i + 5)%nat.
    replace (i + 5)%nat with (i + 1 * 5)%nat by lia.
    change (length SPEAKER_COLORS) with 5%nat.
    rewrite Nat.Div0.mod_add. reflexivity. }
  split; [intros s Hs; apply get_speaker_color_in; exact Hs|].
  intros s Hs. unfold get_speaker_color. rewrite (index_of_none _ _ Hs). reflexivity.
Qed.

Lemma speaker_colors_by_palette_position_witness :
  get_speaker_color "F" six_speakers = get_speaker_color "A" six_speakers.
Proof.
  assert (Hnd : NoDup six_speakers).
  { repeat constructor; simpl; intuition discriminate. }
  exact (proj1 (proj2 (proj2 (speaker_colors_by_palette_position six_speakers Hnd)))
           0%nat ""%string (Nat.lt_succ_diag_r 5)).
Defined.

(** X20. The colours of a roundtable of at most five: the speakers that
    [rank_speakers] returns for [top_k] between 0 and 5 are given pairwise
    distinct colours. *)
Theorem ranked_speakers_get_distinct_colors :
  forall (num : Type) (AR : Arith num) (store : ParentStore)
         (hits : list (ChildHit num)) (top_k min_chunks : Z),
    (0 <= top_k <= 5)%Z ->
    exists out,
      rank_speakers store hits top_k min_chunks = Ok out /\
      NoDup (map (fun s => get_speaker_color s (map speaker out)) (map speaker out)).
Proof.
  intros num AR store hits top_k min_chunks Hk.
  eexists. split; [apply rank_speakers_closed|].
  set (out := py_slice_to (full_ranking top_k min_chunks (groups_of store hits)) top_k).
  assert (Hnd : NoDup (map speaker out)).
  { unfold out.
    destruct (py_slice_to_firstn (full_ranking top_k min_chunks (groups_of store hits)) top_k)
      as [n ->].
    rewrite <- firstn_map. apply nodup_firstn, full_ranking_nodup, groups_of_nodup. }
  rewrite (speaker_colors_by_position _ Hnd).
  apply position_colors_nodup. rewrite length_map. unfold out.
  rewrite full_ranking_length by lia. lia.
Qed.

Lemma ranked_speakers_get_distinct_colors_witness :
  exists out,
    rank_speakers scenario3_store scenario3_hits 5 1 = Ok out /\
    NoDup (map (fun s => get_speaker_color s (map speaker out)) (map speaker out)).
Proof.
  apply (ranked_speakers_get_distinct_colors float FloatArith
           scenario3_store scenario3_hits 5 1).
  split; intros H; discriminate H.
Defined.

(** * verify_all *)

(** X22. Verification passes on transcripts that cannot be parsed: for a
    text in which no speaker marker is found (a text without a colon, for
    one) [verify_transcript] reports no guest character, no turn and a
    capture ratio of 1.0, and [verify_all] passes a directory of such
    files for every [min_capture] up to 1.0. *)
Theorem verification_passes_without_markers :
  forall (files : list TranscriptFile) (min_capture : float),
    files <> [] ->
    Forall (fun f => exists text,
              file_content f = Some text /\ fst (marker_matches text) = []) files ->
    PrimFloat.ltb 1%float min_capture = false ->
    verify_all files min_capture = true /\
    Forall (fun f => forall text,
              file_content f = Some text ->
              vr_guest_chars (verify_transcript text (file_name f)) = 0%Z /\
              vr_parsed_turns (verify_transcript text (file_name f)) = 0 /\
              vr_capture_ratio (verify_transcript text (file_name f)) = 1%float) files.
Proof.
  intros files min_capture Hne Hall Hmin. split.
  - unfold verify_all. destruct files as [|f0 files0]; [congruence|].
    assert (E : filter (verify_issue min_capture) (f0 :: files0) = []).
    { apply filter_none. rewrite Forall_forall in Hall. intros f Hf.
      destruct (Hall f Hf) as (text & Et & Hm).
      unfold verify_issue. rewrite Et, (verify_transcript_none _ _ Hm). exact Hmin. }
    rewrite E. reflexivity.
  - apply Forall_forall. intros f Hf text Et.
    rewrite Forall_forall in Hall. destruct (Hall f Hf) as (text' & Et' & Hm).
    rewrite Et in Et'. inversion Et'; subst text'.
    rewrite (verify_transcript_none _ _ Hm). auto.
Qed.

Lemma verification_passes_without_markers_witness :
  verify_all [prose_file] 0.95%float = true.
Proof.
  apply (verification_passes_without_markers [prose_file] 0.95%float).
  - discriminate.
  - constructor; [|constructor]. exists answer_150. split; [reflexivity|].
    vm_compute. reflexivity.
  - vm_compute. reflexivity.
Defined.

(** X25. The verifier and the parser read a speaker match alike:
    [verify_transcript] keeps it as a marker exactly when
    [parse_transcript] makes it a speaker marker (the name is validated
    once trimmed, once as captured, with the same outcome); the two
    markers have the same span and timestamp, and the verifier's speaker,
    the trimmed name, is the host exactly when the parser's normalised
    name is. *)
Theorem verifier_and_parser_agree_on_markers :
  forall m : Match,
    (verify_speaker_marker m = [] <->
     mk_type (speaker_match_marker m) = continuation_marker) /\
    (forall vm, In vm (verify_speaker_marker m) ->
       vm_speaker vm = Some (strip (m_group1 m)) /\
       mk_speaker (speaker_match_marker m) = Some (normalize_speaker_name (m_group1 m)) /\
       is_host (strip (m_group1 m)) = is_host (normalize_speaker_name (m_group1 m)) /\
       vm_start vm = mk_start (speaker_match_marker m) /\
       vm_end vm = mk_end (speaker_match_marker m) /\
       vm_timestamp vm = mk_timestamp (speaker_match_marker m)).
Proof.
  intros m. unfold verify_speaker_marker, speaker_match_marker. cbv zeta.
  rewrite is_valid_speaker_name_strip.
  destruct (is_valid_speaker_name (m_group1 m)); simpl.
  - split; [split; discriminate|].
    intros vm [<-|[]]. simpl. rewrite is_host_normalize. repeat split.
  - split; [split; reflexivity|]. intros vm [].
Qed.

(** * run_discussion *)

(** X23. The shape of a discussion, whatever the model answers, when the
    shuffle only reorders: there are [num_rounds] rounds, in every round
    every speaker answers exactly once, in round 1 in the order of the
    ranking, and every response carries the number of its round. *)
Theorem every_speaker_answers_once_per_round :
  forall (num : Type) (AR : Arith num)
         (llm : nat -> string -> string -> string)
         (shuffle : Z -> list (SpeakerContext num) -> list (SpeakerContext num))
         (speaker_contexts : list (SpeakerContext num)) (question : string) (num_rounds : Z),
    (forall round_num l, Permutation (shuffle round_num l) l) ->
    let rounds := run_discussion llm shuffle speaker_contexts question num_rounds in
    length rounds = Z.to_nat num_rounds /\
    Forall (fun round =>
              Permutation (map r_speaker round) (map speaker speaker_contexts)) rounds /\
    (forall round, nth_error rounds 0 = Some round ->
       map r_speaker round = map speaker speaker_contexts) /\
    (forall k round, nth_error rounds k = Some round ->
       Forall (fun r => r_round_num r = Z.of_nat (S k)) round).
Proof.
  intros num AR llm shuffle contexts question num_rounds Hshuffle rounds.
  destruct (discussion_rounds_fold llm shuffle contexts question
              (round_numbers num_rounds) [] [] Hshuffle) as (new_rounds & E & Hall).
  simpl in E. fold (run_discussion llm shuffle contexts question num_rounds) in E.
  fold rounds in E. rewrite <- E in Hall. clear E new_rounds.
  split.
  { rewrite <- (Forall2_length Hall). unfold round_numbers.
    rewrite length_map, length_seq. reflexivity. }
  split.
  { apply Forall_forall. intros round Hin.
    destruct (forall2_in_r _ _ _ _ Hall Hin) as (rn & _ & H & _). exact H. }
  split.
  { intros round H0.
    destruct (forall2_nth_r _ _ _ _ _ Hall H0) as (rn & Hn & _ & H & _).
    apply round_numbers_nth in Hn. apply H. lia. }
  intros k round Hk.
  destruct (forall2_nth_r _ _ _ _ _ Hall Hk) as (rn & Hn & _ & _ & H).
  apply round_numbers_nth in Hn. subst rn. exact H.
Qed.

Lemma every_speaker_answers_once_per_round_witness :
  length (run_discussion counting_llm reversing_shuffle scenario3_contexts "Why?" 2) = 2.
Proof.
  refine (proj1 (every_speaker_answers_once_per_round float FloatArith
                   counting_llm reversing_shuffle scenario3_contexts "Why?" 2 _)).
  intros round_num l. symmetry. apply Permutation_rev.
Defined.

(** X24. What each call of the model is given: the response at position
    [i] of the round at position [k] is the response of the [i]-th speaker
    in the order of that round, generated with brevity 2 by the call whose
    number is the number of responses made before it; from round 2 on the
    call is given all those responses, the ones of the running round
    included, and in round 1 it is given none. *)
Theorem discussion_calls_in_order :
  forall (num : Type) (AR : Arith num)
         (llm : nat -> string -> string -> string)
         (shuffle : Z -> list (SpeakerContext num) -> list (SpeakerContext num))
         (speaker_contexts : list (SpeakerContext num)) (question : string) (num_rounds : Z)
         (k i : nat) (round : list Response) (r : Response),
    let rounds := run_discussion llm shuffle speaker_contexts question num_rounds in
    nth_error rounds k = Some round ->
    nth_error round i = Some r ->
    let earlier := concat (firstn k rounds) ++ firstn i round in
    exists ctx,
      nth_error (if (k =? 0)%nat then speaker_contexts
                 else shuffle (Z.of_nat (S k)) speaker_contexts) i = Some ctx /\
      r = generate_response (llm (length earlier)) ctx question
            (if (k =? 0)%nat then [] else earlier) (Z.of_nat (S k)) 2.
Proof.
  intros num AR llm shuffle contexts question num_rounds k i round r rounds Hk Hi earlier.
  destruct (discussion_rounds_calls llm shuffle contexts question
              (round_numbers num_rounds) [] []) as (new_rounds & E & Hall).
  simpl in E. fold (run_discussion llm shuffle contexts question num_rounds) in E.
  fold rounds in E. rewrite <- E in Hall. clear E new_rounds.
  destruct (rounds_calls_nth llm shuffle contexts question _ _ [] k round Hall Hk)
    as (rn & Hn & Hc).
  apply round_numbers_nth in Hn. subst rn.
  destruct (Hc i r Hi) as (ctx & Hctx & Hr). simpl app in Hr. fold earlier in Hr.
  exists ctx. unfold round_order in Hctx.
  destruct k as [|k].
  - split; [exact Hctx | exact Hr].
  - assert (E1 : (1 <? Z.of_nat (S (S k)))%Z = true) by (apply Z.ltb_lt; lia).
    rewrite E1 in Hctx, Hr. split; [exact Hctx | exact Hr].
Qed.

Lemma discussion_calls_in_order_witness :
  exists ctx,
    nth_error (reversing_shuffle 2 scenario3_contexts) 1 = Some ctx /\
    nth 1 (nth 1 (run_discussion counting_llm reversing_shuffle scenario3_contexts "Why?" 2) [])
        (Build_Response "" "" 0) =
    generate_response (counting_llm 3) ctx "Why?"
      (concat (firstn 1 (run_discussion counting_llm reversing_shuffle
                           scenario3_contexts "Why?" 2)) ++
       firstn 1 (nth 1 (run_discussion counting_llm reversing_shuffle
                          scenario3_contexts "Why?" 2) [])) 2 2.
Proof.
  exact (discussion_calls_in_order float FloatArith counting_llm reversing_shuffle
           scenario3_contexts "Why?" 2 1 1
           (nth 1 (run_discussion counting_llm reversing_shuffle scenario3_contexts "Why?" 2) [])
           (nth 1 (nth 1 (run_discussion counting_llm reversing_shuffle
                            scenario3_contexts "Why?" 2) []) (Build_Response "" "" 0))
           eq_refl eq_refl).
Defined.
